(** * Lennard-Jones molecular dynamics in a periodic 2-D box

    A shallow embedding of the classes [MDSimulation] and
    [MDSimulationSwitch] of [Tutorials/12_MD/12a_basics.ipynb], and the
    properties of the pair list, the minimum-image convention, the two
    potential evaluators and the Verlet integrator.

    Number model.  Python floats and numpy float64 arrays are embedded as
    exact real numbers ([R]).  Two kinds of failure are kept apart:
    - a Python exception ([Raise]): scalar division by zero, an index out
      of range, an unbound name;
    - [NonFinite]: numpy divides arrays without raising and yields inf or
      nan instead; the exact model does not follow such values and stops
      with [NonFinite], which stands for "some entry of the result is inf
      or nan".
    Rounding and overflow are outside this model: [Ok] says that no
    division by zero was met, not that the binary64 value is finite, and
    a comparison decided within one rounding error of its threshold can
    come out the other way in the code.  One statement of
    [apply_periodicity] is replayed in binary64 ([wrap64]) to show the
    difference at the face of the periodic cell. *)

From Stdlib Require Import String.
From Stdlib Require Import Reals Lra Lia ZArith Bool Arith List FinFun.
From Stdlib Require PrimFloat FloatOps SpecFloat.
Import ListNotations.
Local Open Scope R_scope.

(** ** Outcomes *)

Inductive exn : Type :=
| IndexError
| ZeroDivisionError
| NameError (name : string)
| Raised (class message : string).

Inductive result (A : Type) : Type :=
| Ok (a : A)
| Raise (e : exn)
| NonFinite.

Arguments Ok {A} a.
Arguments Raise {A} e.
Arguments NonFinite {A}.

Definition bind {A B : Type} (m : result A) (k : A -> result B) : result B :=
  match m with
  | Ok a => k a
  | Raise e => Raise e
  | NonFinite => NonFinite
  end.

Notation "x <- m ;; k" := (bind m (fun x => k))
  (at level 61, m at next level, right associativity).
Notation "' p <- m ;; k" := (bind m (fun p => k))
  (at level 61, p pattern, m at next level, right associativity).

Fixpoint mapM {A B : Type} (f : A -> result B) (l : list A) : result (list B) :=
  match l with
  | [] => Ok []
  | a :: l' => b <- f a ;; bs <- mapM f l' ;; Ok (b :: bs)
  end.

(** Python scalar division: [ZeroDivisionError] on a zero divisor. *)
Definition py_div (x y : R) : result R :=
  if Req_dec_T y 0 then Raise ZeroDivisionError else Ok (x / y).

(** numpy division of one array entry: inf or nan on a zero divisor. *)
Definition np_div (x y : R) : result R :=
  if Req_dec_T y 0 then NonFinite else Ok (x / y).

(** ** Arrays of shape (n, 2) *)

Abbreviation vec := (R * R)%type.
Abbreviation ndarray := (list (R * R)).

Definition vadd (u v : vec) : vec := (fst u + fst v, snd u + snd v).
Definition vsub (u v : vec) : vec := (fst u - fst v, snd u - snd v).
Definition vscale (c : R) (v : vec) : vec := (c * fst v, c * snd v).
Definition vdot (u v : vec) : R := fst u * fst v + snd u * snd v.
Definition vzero : vec := (0, 0).

(** Entry-wise combination of two arrays.  The arrays that the code
    combines always have the same shape; here the result stops with the
    shorter one. *)
Fixpoint map2 {A B C : Type} (f : A -> B -> C) (l : list A) (m : list B) : list C :=
  match l, m with
  | a :: l', b :: m' => f a b :: map2 f l' m'
  | _, _ => []
  end.

Definition arr_add (a b : ndarray) : ndarray := map2 vadd a b.
Definition arr_sub (a b : ndarray) : ndarray := map2 vsub a b.
Definition arr_scale (c : R) (a : ndarray) : ndarray := map (vscale c) a.

(** [np.sum(np.square(a))] *)
Definition sum_square (a : ndarray) : R :=
  fold_right (fun v acc => vdot v v + acc) 0 a.

(** [a / c] for an array [a] and a scalar [c] *)
Definition arr_div (a : ndarray) (c : R) : result ndarray :=
  mapM (fun v => x <- np_div (fst v) c ;; y <- np_div (snd v) c ;; Ok (x, y)) a.

(** In-place update of row [k]: [a[k] = f(a[k])].  The code only uses row
    numbers from the pair list, all below the number of rows. *)
Fixpoint upd (k : nat) (f : vec -> vec) (a : ndarray) : ndarray :=
  match a, k with
  | [], _ => []
  | v :: a', O => f v :: a'
  | v :: a', S k' => v :: upd k' f a'
  end.

Definition Rsum (l : list R) : R := fold_right Rplus 0 l.

(** [a[idx]] with an integer index array: [IndexError] out of range. *)
Definition np_take (a : ndarray) (idx : list nat) : result ndarray :=
  mapM (fun i => match nth_error a i with
                 | Some v => Ok v
                 | None => Raise IndexError
                 end) idx.

(** [np.floor] *)
Definition np_floor (x : R) : R := IZR (Int_part x).

(** ** Pair enumeration: [itertools.combinations(range(n), 2)] *)

Fixpoint combinations2 (l : list nat) : list (nat * nat) :=
  match l with
  | [] => []
  | x :: t => map (pair x) t ++ combinations2 t
  end.

Definition range (n : nat) : list nat := seq 0 n.

(** ** The simulation object *)

Definition Rgas : R := 83144621 / 10000000000.

(** Arrays live in a store and the object holds references to them, since
    [apply_periodicity] and [+=] update an array in place. *)
Definition ref : Type := nat.
Definition heap : Type := list ndarray.

Definition deref (h : heap) (l : ref) : ndarray := nth l h [].
Definition alloc (a : ndarray) (h : heap) : ref * heap := (length h, h ++ [a]).

Fixpoint store (l : ref) (a : ndarray) (h : heap) : heap :=
  match h, l with
  | [], _ => []
  | _ :: h', O => a :: h'
  | b :: h', S l' => b :: store l' a h'
  end.

(** [window = None]: an instance of the base class [MDSimulation];
    [window = Some w]: an instance of [MDSimulationSwitch]. *)
Record MDSimulation : Type := mkMD {
  sigma : R;
  epsilon : R;
  mass : R;
  dt : R;
  T : R;
  atoms_per_dim : nat;
  boxlength : R;
  cutoff : R;
  nsteps : nat;
  window : option R;
  coords : ref;
  last_coords : ref;
  timestep : R;
  timeseries : list R;
  PEs : list R;
  KEs : list R;
  TEs : list R;
  coorddata : ref
}.

Section Intermediates.
Variable self : MDSimulation.

Definition RT : R := Rgas * T self.
Definition cutoff2 : R := cutoff self ^ 2.
Definition foureps : R := 4 * epsilon self.
Definition natoms : nat := (atoms_per_dim self ^ 2)%nat.
Definition pairs : list (nat * nat) := combinations2 (range natoms).
Definition iindices : list nat := map fst pairs.
Definition jindices : list nat := map snd pairs.
Definition sigmaij : R := 2 * sigma self.
Definition sig2 : R := sigmaij ^ 2.
Definition boxinv : R := 1 / boxlength self.
Definition minv : R := 1 / mass self.

(** [dR -= self.boxlength*np.floor(dR*self.boxinv+0.5)], one entry *)
Definition wrap (d : R) : R :=
  d - boxlength self * np_floor (d * boxinv + 0.5).

(** The new contents of the array [dR], which is also what is returned. *)
Definition apply_periodicity (dR : ndarray) : ndarray :=
  map (fun d => (wrap (fst d), wrap (snd d))) dR.
End Intermediates.

Section Evaluator.
Variable self : MDSimulation.

(** The array statements of [compute_energy_and_gradient_cutoff] act
    entry by entry; this is what they compute at one index [n], from
    [dR[n]] to [(pairenergies[n], pairforces[n])].  The division
    [1.0/r2] followed by [r2inv[r2>self.cutoff2] = 0.0] leaves a
    non-finite entry only where [r2] is zero and not beyond the cutoff. *)
Definition pair_cutoff (dR : vec) : result (R * vec) :=
  let r2 := vdot dR dR in
  r2inv <- (if Rgt_dec r2 (cutoff2 self) then Ok 0 else np_div 1 r2) ;;
  let sig_r2 := sig2 self * r2inv in
  let sig_r6 := sig_r2 * sig_r2 * sig_r2 in
  let sig_r12 := sig_r6 * sig_r6 in
  let repulsive := foureps self * sig_r12 in
  let attractive := foureps self * sig_r6 in
  let pairenergies := repulsive - attractive in
  let pairforces := vscale (6 * r2inv * (repulsive + pairenergies)) dR in
  Ok (pairenergies, pairforces).

(** [for n,(iind,jind) in enumerate(self.pairs):
       forces[iind] += pairforces[n]; forces[jind] -= pairforces[n]] *)
Definition accumulate (forces : ndarray) (ps : list (nat * nat))
    (pairforces : ndarray) : ndarray :=
  fold_left
    (fun forces (np : (nat * nat) * vec) =>
       let '((iind, jind), pf) := np in
       upd jind (fun v => vsub v pf) (upd iind (fun v => vadd v pf) forces))
    (combine ps pairforces) forces.

(** [coords[self.jindices] - coords[self.iindices]], then the in-place
    [apply_periodicity] on that fresh array. *)
Definition displacements (coords : ndarray) : result ndarray :=
  cj <- np_take coords (jindices self) ;;
  ci <- np_take coords (iindices self) ;;
  Ok (apply_periodicity self (arr_sub cj ci)).

Definition compute_energy_and_gradient_cutoff (coords : ndarray)
    : result (R * ndarray) :=
  let forces := repeat vzero (natoms self) in
  dR <- displacements coords ;;
  pp <- mapM pair_cutoff dR ;;
  let pairenergies := map fst pp in
  let pairforces := map snd pp in
  let energy := Rsum pairenergies in
  Ok (energy, accumulate forces (pairs self) pairforces).

(** [np.where(r2>ron2, ..., 1.0)] and [switch[r2>self.cutoff2] = 0.0] *)
Definition switch_fn (ron2 roff2 denom r2 : R) : R :=
  let switch :=
    if Rgt_dec r2 ron2
    then (roff2 + 2 * r2 - 3 * ron2) * (roff2 - r2) ^ 2 * denom
    else 1 in
  if Rgt_dec r2 (cutoff2 self) then 0 else switch.

(** [np.where(r2>ron2, ..., 0.0)] and [dswitch[r2>self.cutoff2] = 0.0] *)
Definition dswitch_fn (ron2 roff2 denom r2 : R) : R :=
  let dswitch :=
    if Rgt_dec r2 ron2
    then -12 * (r2 - roff2) * (r2 - ron2) * denom
    else 0 in
  if Rgt_dec r2 (cutoff2 self) then 0 else dswitch.

(** One index of the array statements of
    [compute_energy_and_gradient_switch]. *)
Definition pair_switch (ron2 roff2 denom : R) (dR : vec) : result (R * vec) :=
  let r2 := vdot dR dR in
  r2inv <- np_div 1 r2 ;;
  let switch := switch_fn ron2 roff2 denom r2 in
  let dswitch := dswitch_fn ron2 roff2 denom r2 in
  let sig_r2 := sig2 self * r2inv in
  let sig_r6 := sig_r2 * sig_r2 * sig_r2 in
  let sig_r12 := sig_r6 * sig_r6 in
  let rep := foureps self * sig_r12 in
  let att := foureps self * sig_r6 in
  let pairenergies := switch * (rep - att) in
  let pairforces :=
    vscale (6 * r2inv * switch * (2 * rep - att) + dswitch * (rep - att)) dR in
  Ok (pairenergies, pairforces).

(** [w] is [self.window]. *)
Definition compute_energy_and_gradient_switch (w : R) (coords : ndarray)
    : result (R * ndarray) :=
  let ron2 := (cutoff self - w) ^ 2 in
  let roff2 := cutoff2 self in
  denom <- py_div 1 ((roff2 - ron2) ^ 3) ;;
  let forces := repeat vzero (natoms self) in
  dR <- displacements coords ;;
  pp <- mapM (pair_switch ron2 roff2 denom) dR ;;
  let pairenergies := map fst pp in
  let pairforces := map snd pp in
  let energy := Rsum pairenergies in
  Ok (energy, accumulate forces (pairs self) pairforces).

(** The method of the base class, and its override in
    [MDSimulationSwitch]. *)
Definition compute_energy_and_gradient (coords : ndarray)
    : result (R * ndarray) :=
  match window self with
  | None => compute_energy_and_gradient_cutoff coords
  | Some w =>
      if Req_dec_T w 0
      then compute_energy_and_gradient_cutoff coords
      else compute_energy_and_gradient_switch w coords
  end.
End Evaluator.

(** ** The integrator *)

(** [propagate], without the drawing calls.  [coorddata] keeps the array
    handed to the plot. *)
Definition propagate (self : MDSimulation) (h : heap)
    : result (MDSimulation * heap) :=
  '(PE, gradient) <- compute_energy_and_gradient self (deref h (coords self)) ;;
  let a := arr_scale (- minv self) gradient in
  let newcoords :=
    arr_add
      (arr_sub (arr_scale 2 (deref h (coords self))) (deref h (last_coords self)))
      (arr_scale (dt self * dt self) a) in
  v <- arr_div (arr_sub newcoords (deref h (last_coords self))) (2 * dt self) ;;
  let KE := 0.5 * mass self * sum_square v in
  let '(last_coords', h1) := alloc (deref h (coords self)) h in
  let '(coords', h2) := alloc newcoords h1 in
  let '(displaycoords, h3) := alloc (deref h2 coords') h2 in
  let h4 := store displaycoords (apply_periodicity self (deref h3 displaycoords)) h3 in
  let timestep' := timestep self + dt self in
  Ok ({| sigma := sigma self; epsilon := epsilon self; mass := mass self;
         dt := dt self; T := T self; atoms_per_dim := atoms_per_dim self;
         boxlength := boxlength self; cutoff := cutoff self;
         nsteps := nsteps self; window := window self;
         coords := coords';
         last_coords := last_coords';
         timestep := timestep';
         timeseries := timeseries self ++ [timestep'];
         PEs := PEs self ++ [PE];
         KEs := KEs self ++ [KE];
         TEs := TEs self ++ [PE + KE];
         coorddata := displaycoords |}, h4).

(** [k] calls of [propagate] in a row, as [run_simulation] schedules them. *)
Fixpoint run (k : nat) (self : MDSimulation) (h : heap)
    : result (MDSimulation * heap) :=
  match k with
  | O => Ok (self, h)
  | S k' => '(self', h') <- propagate self h ;; run k' self' h'
  end.

(** ** Construction *)

(** [np.linspace(start, stop, num, endpoint=False)] *)
Definition linspace (start stop : R) (num : nat) : list R :=
  map (fun k => start + INR k * ((stop - start) / INR num)) (range num).

(** The lattice of [init_coords] before the random displacement:
    [np.array([np.repeat(spacing, n), np.tile(spacing, n)]).T] *)
Definition lattice (self : MDSimulation) : ndarray :=
  let n := atoms_per_dim self in
  let spacing :=
    map (fun x => x + boxlength self / (2 * INR n))
        (linspace (- boxlength self / 2) (boxlength self / 2) n) in
  flat_map (fun x => map (fun y => (x, y)) spacing) spacing.

(** [rand] holds the draws of [np.random.rand(self.natoms,2)]. *)
Definition init_coords (self : MDSimulation) (rand : ndarray) : ndarray :=
  arr_add (lattice self)
          (arr_scale 0.2 (map (fun u => (fst u - 0.5, snd u - 0.5)) rand)).

(** The names bound at the top level of the notebook when a simulation
    is constructed: its imports, functions, classes and variables. *)
Definition notebook_globals : list string :=
  ["matplotlib"; "np"; "itertools"; "plt"; "animation"; "interact";
   "interactive"; "fixed"; "FloatSlider"; "widgets"; "showpotential"; "fig";
   "ax"; "rval"; "dr"; "boxlength"; "line"; "move_particle"; "init"; "ani";
   "atoms_per_dim"; "cutoff"; "epsilon"; "sigma"; "cutoff2"; "foureps";
   "natoms"; "pairs"; "iindices"; "jindices"; "sigmaij"; "sig2"; "boxinv";
   "spacing"; "coords"; "apply_periodicity";
   "compute_energy_and_gradient_cutoff"; "fdgrad"; "delta"; "refE"; "refF";
   "atom"; "Epx"; "Fpx"; "Emx"; "Fmx"; "Epy"; "Fpy"; "Emy"; "Fmy"; "Rgas";
   "MDSimulation"; "MDSimulationSwitch"; "sim"]%string.

(** Evaluating a global name that is not a builtin. *)
Definition global_name (name : string) : result unit :=
  if in_dec string_dec name notebook_globals
  then Ok tt
  else Raise (NameError name).

(** [raise cls(message)] for a class named [cls]. *)
Definition raise_new {A : Type} (cls message : string) : result A :=
  _ <- global_name cls ;; Raise (Raised cls message).

(** [__init__] of both classes, without the plot objects.  [window0] is
    [None] for [MDSimulation(...)] and [Some window] for
    [MDSimulationSwitch(...)]; [rand] and [normal] hold the random draws.
    [np.sqrt] of a negative number gives nan without raising, so the
    non-finite outcome is reported after the evaluator has had its chance
    to raise. *)
Definition init (sigma0 epsilon0 mass0 temp dt0 : R) (atoms_per_dim0 : nat)
    (boxlength0 cutoff0 : R) (window0 : option R) (nsteps0 : nat)
    (rand normal : ndarray) (h : heap) : result (MDSimulation * heap) :=
  let self :=
    {| sigma := sigma0; epsilon := epsilon0; mass := mass0; dt := dt0;
       T := temp; atoms_per_dim := atoms_per_dim0; boxlength := boxlength0;
       cutoff := cutoff0; nsteps := nsteps0; window := window0;
       coords := 0%nat; last_coords := 0%nat; timestep := 0;
       timeseries := []; PEs := []; KEs := []; TEs := [];
       coorddata := 0%nat |} in
  (* self.iindices = self.pairs[:,0] *)
  _ <- (match pairs self with [] => Raise IndexError | _ => Ok tt end) ;;
  _ <- py_div 1 boxlength0 ;;
  _ <- py_div 1 mass0 ;;
  _ <- (if Rge_dec cutoff0 (boxlength0 / 2)
        then raise_new "ValidationError" "The cutoff must be less than boxlength/2"
        else Ok tt) ;;
  let '(coords0, h1) := alloc (init_coords self rand) h in
  let '(last_coords0, h2) := alloc (deref h1 coords0) h1 in
  let velocities := arr_scale (sqrt (RT self / mass0)) normal in
  let KE := 0.5 * mass0 * sum_square velocities in
  '(PE, gradient) <- compute_energy_and_gradient self (deref h2 coords0) ;;
  _ <- (if Rlt_dec (RT self / mass0) 0 then NonFinite else Ok tt) ;;
  let a := arr_scale (- minv self) gradient in
  let h3 :=
    store coords0
          (arr_add (deref h2 coords0)
                   (arr_add (arr_scale dt0 velocities)
                            (arr_scale (0.5 * dt0 * dt0) a))) h2 in
  Ok ({| sigma := sigma0; epsilon := epsilon0; mass := mass0; dt := dt0;
         T := temp; atoms_per_dim := atoms_per_dim0; boxlength := boxlength0;
         cutoff := cutoff0; nsteps := nsteps0; window := window0;
         coords := coords0; last_coords := last_coords0; timestep := 0;
         timeseries := [0]; PEs := [PE]; KEs := [KE]; TEs := [KE + PE];
         coorddata := coords0 |}, h3).

(** ** A small instance: four atoms in a box of length 10 *)

Definition demo_sim : MDSimulation :=
  {| sigma := 1 / 2; epsilon := 1 / 4; mass := 2; dt := 1; T := 300;
     atoms_per_dim := 2; boxlength := 10; cutoff := 2; nsteps := 1;
     window := None; coords := 0%nat; last_coords := 1%nat; timestep := 0;
     timeseries := [0]; PEs := [0]; KEs := [0]; TEs := [0];
     coorddata := 0%nat |}.

(** The coordinates that [propagate] computes from the two stored arrays
    and the gradient. *)
Definition verlet (self : MDSimulation) (current previous gradient : ndarray)
    : ndarray :=
  arr_add (arr_sub (arr_scale 2 current) previous)
          (arr_scale (dt self * dt self) (arr_scale (- minv self) gradient)).

(** The pair energy as the notebook writes it for a pair at distance [r]:
    4 eps [(sigma_pair/r)^12 - (sigma_pair/r)^6]. *)
Definition lennard_jones (eps sigmapair r : R) : R :=
  4 * eps * ((sigmapair / r) ^ 12 - (sigmapair / r) ^ 6).

(** The same object as an instance of the base class. *)
Definition as_base (self : MDSimulation) : MDSimulation :=
  {| sigma := sigma self; epsilon := epsilon self; mass := mass self;
     dt := dt self; T := T self; atoms_per_dim := atoms_per_dim self;
     boxlength := boxlength self; cutoff := cutoff self;
     nsteps := nsteps self; window := None;
     coords := coords self; last_coords := last_coords self;
     timestep := timestep self; timeseries := timeseries self;
     PEs := PEs self; KEs := KEs self; TEs := TEs self;
     coorddata := coorddata self |}.

Definition demo_coords : ndarray := [(0, 0); (1, 0); (0, 4); (4, 4)].

(** The outcome is not the exception [e]. *)
Definition avoids {A : Type} (e : exn) (m : result A) : Prop :=
  match m with
  | Raise e' => e' <> e
  | _ => True
  end.

(** The minimum-image displacement of one pair, [dR[n]] for
    [pairs[n] = (i, j)]. *)
Definition pair_disp (self : MDSimulation) (coords : ndarray) (ij : nat * nat)
    : result vec :=
  match nth_error coords (snd ij) with
  | None => Raise IndexError
  | Some cj =>
      match nth_error coords (fst ij) with
      | None => Raise IndexError
      | Some ci => Ok (wrap self (fst cj - fst ci), wrap self (snd cj - snd ci))
      end
  end.

Definition demo_previous : ndarray := [(0, 0); (1, 0); (0, 4); (4, 4)].
Definition demo_heap : heap := [demo_coords; demo_previous].

(** The object after a successful step from [self] in a store of [n]
    arrays, with the potential and kinetic energy of the step. *)
Definition stepped (self : MDSimulation) (n : nat) (PE KE : R) : MDSimulation :=
  {| sigma := sigma self; epsilon := epsilon self; mass := mass self;
     dt := dt self; T := T self; atoms_per_dim := atoms_per_dim self;
     boxlength := boxlength self; cutoff := cutoff self;
     nsteps := nsteps self; window := window self;
     coords := S n;
     last_coords := n;
     timestep := timestep self + dt self;
     timeseries := timeseries self ++ [timestep self + dt self];
     PEs := PEs self ++ [PE];
     KEs := KEs self ++ [KE];
     TEs := TEs self ++ [PE + KE];
     coorddata := S (S n) |}.

Definition demo_gradient : ndarray := [(6, 0); (-6, 0); (0, 0); (0, 0)].

(** The constructor arguments of an object, with its state blanked. *)
Definition setup (self : MDSimulation) : MDSimulation :=
  {| sigma := sigma self; epsilon := epsilon self; mass := mass self;
     dt := dt self; T := T self; atoms_per_dim := atoms_per_dim self;
     boxlength := boxlength self; cutoff := cutoff self;
     nsteps := nsteps self; window := window self;
     coords := 0%nat; last_coords := 0%nat; timestep := 0;
     timeseries := []; PEs := []; KEs := []; TEs := [];
     coorddata := 0%nat |}.

(** The object with the roles of current and previous positions exchanged. *)
Definition reversed (self : MDSimulation) : MDSimulation :=
  {| sigma := sigma self; epsilon := epsilon self; mass := mass self;
     dt := dt self; T := T self; atoms_per_dim := atoms_per_dim self;
     boxlength := boxlength self; cutoff := cutoff self;
     nsteps := nsteps self; window := window self;
     coords := last_coords self; last_coords := coords self;
     timestep := timestep self; timeseries := timeseries self;
     PEs := PEs self; KEs := KEs self; TEs := TEs self;
     coorddata := coorddata self |}.

(** The position history (current, previous) of an object. *)
Definition arrays (self : MDSimulation) (h : heap) : ndarray * ndarray :=
  (deref h (coords self), deref h (last_coords self)).

(** What [propagate] does to the position history. *)
Definition verlet_step (self : MDSimulation) (cp : ndarray * ndarray)
    : result (ndarray * ndarray) :=
  '(PE, gradient) <- compute_energy_and_gradient self (fst cp) ;;
  let newcoords := verlet self (fst cp) (snd cp) gradient in
  _ <- arr_div (arr_sub newcoords (snd cp)) (2 * dt self) ;;
  Ok (newcoords, fst cp).

Fixpoint verlet_run (k : nat) (self : MDSimulation) (cp : ndarray * ndarray)
    : result (ndarray * ndarray) :=
  match k with
  | O => Ok cp
  | S k' => cp' <- verlet_step self cp ;; verlet_run k' self cp'
  end.

(** The small instance after one step. *)
Definition demo_after : MDSimulation * heap :=
  match propagate demo_sim demo_heap with
  | Ok p => p
  | _ => (demo_sim, demo_heap)
  end.

(** Moving one atom by whole box lengths along the two axes. *)
Definition translate (self : MDSimulation) (k : nat) (m n : Z) (c : ndarray)
    : ndarray :=
  upd k (fun v => (fst v + IZR m * boxlength self,
                   snd v + IZR n * boxlength self)) c.

(** The small instance as an [MDSimulationSwitch] object with window 0. *)
Definition demo_switch0 : MDSimulation :=
  {| sigma := 1 / 2; epsilon := 1 / 4; mass := 2; dt := 1; T := 300;
     atoms_per_dim := 2; boxlength := 10; cutoff := 2; nsteps := 1;
     window := Some 0; coords := 0%nat; last_coords := 1%nat; timestep := 0;
     timeseries := [0]; PEs := [0]; KEs := [0]; TEs := [0];
     coorddata := 0%nat |}.

(** ** Energy and force as functions of position *)

(** The pair energy and the factor of [dR] in the pair force of the hard
    cutoff, as functions of [r2]: the scalar statements between [r2] and
    [pairenergies], [pairforces]. *)
Definition energy_cutoff (self : MDSimulation) (r2 : R) : R :=
  let r2inv := if Rgt_dec r2 (cutoff2 self) then 0 else 1 / r2 in
  let sig_r2 := sig2 self * r2inv in
  let sig_r6 := sig_r2 * sig_r2 * sig_r2 in
  let sig_r12 := sig_r6 * sig_r6 in
  let repulsive := foureps self * sig_r12 in
  let attractive := foureps self * sig_r6 in
  repulsive - attractive.

Definition factor_cutoff (self : MDSimulation) (r2 : R) : R :=
  let r2inv := if Rgt_dec r2 (cutoff2 self) then 0 else 1 / r2 in
  let sig_r2 := sig2 self * r2inv in
  let sig_r6 := sig_r2 * sig_r2 * sig_r2 in
  let sig_r12 := sig_r6 * sig_r6 in
  let repulsive := foureps self * sig_r12 in
  let attractive := foureps self * sig_r6 in
  let pairenergies := repulsive - attractive in
  6 * r2inv * (repulsive + pairenergies).

(** [rep - att] of the switched routine, as a function of [r2]. *)
Definition energy_unswitched (self : MDSimulation) (r2 : R) : R :=
  let r2inv := 1 / r2 in
  let sig_r2 := sig2 self * r2inv in
  let sig_r6 := sig_r2 * sig_r2 * sig_r2 in
  let sig_r12 := sig_r6 * sig_r6 in
  let rep := foureps self * sig_r12 in
  let att := foureps self * sig_r6 in
  rep - att.

(** The same for the switched routine. *)
Definition energy_switch (self : MDSimulation) (ron2 roff2 denom r2 : R) : R :=
  let r2inv := 1 / r2 in
  let switch := switch_fn self ron2 roff2 denom r2 in
  let sig_r2 := sig2 self * r2inv in
  let sig_r6 := sig_r2 * sig_r2 * sig_r2 in
  let sig_r12 := sig_r6 * sig_r6 in
  let rep := foureps self * sig_r12 in
  let att := foureps self * sig_r6 in
  switch * (rep - att).

Definition factor_switch (self : MDSimulation) (ron2 roff2 denom r2 : R) : R :=
  let r2inv := 1 / r2 in
  let switch := switch_fn self ron2 roff2 denom r2 in
  let dswitch := dswitch_fn self ron2 roff2 denom r2 in
  let sig_r2 := sig2 self * r2inv in
  let sig_r6 := sig_r2 * sig_r2 * sig_r2 in
  let sig_r12 := sig_r6 * sig_r6 in
  let rep := foureps self * sig_r12 in
  let att := foureps self * sig_r6 in
  6 * r2inv * switch * (2 * rep - att) + dswitch * (rep - att).

(** The energy of a finite outcome. *)
Definition energy_of {A : Type} (m : result (R * A)) : R :=
  match m with
  | Ok (e, _) => e
  | _ => 0
  end.

(** The two coordinate axes. *)
Inductive axis : Type := X | Y.

Definition coord (a : axis) (v : vec) : R :=
  match a with X => fst v | Y => snd v end.

Definition set_coord (a : axis) (t : R) (v : vec) : vec :=
  match a with X => (t, snd v) | Y => (fst v, t) end.

(** The position array with coordinate [a] of atom [k] set to [t]. *)
Definition move (a : axis) (k : nat) (t : R) (c : ndarray) : ndarray :=
  upd k (set_coord a t) c.

(** The shape shared by the two evaluators: the same statements around a
    pair routine [pf]. *)
Definition evaluate_with (pf : vec -> result (R * vec)) (self : MDSimulation)
    (coords : ndarray) : result (R * ndarray) :=
  let forces := repeat vzero (natoms self) in
  dR <- displacements self coords ;;
  pp <- mapM pf dR ;;
  let pairenergies := map fst pp in
  let pairforces := map snd pp in
  let energy := Rsum pairenergies in
  Ok (energy, accumulate forces (pairs self) pairforces).

(** A pair routine whose energy is [W r2] and whose force is [G r2 * dR]. *)
Definition radial (W G : R -> R) (pf : vec -> result (R * vec)) : Prop :=
  forall d : vec,
    (vdot d d <> 0 -> pf d = Ok (W (vdot d d), vscale (G (vdot d d)) d)) /\
    (vdot d d = 0 -> pf d = NonFinite).

(** What pair [ij] contributes at the positions [c]. *)
Definition pair_out (pf : vec -> result (R * vec)) (self : MDSimulation)
    (c : ndarray) (ij : nat * nat) : result (R * vec) :=
  bind (pair_disp self c ij) pf.

Definition pair_val (m : result (R * vec)) : R * vec :=
  match m with
  | Ok p => p
  | _ => (0, vzero)
  end.

(** The part of the force on atom [k] that comes from pair [ij] with pair
    force [pf]. *)
Definition contrib (k : nat) (ij : nat * nat) (pf v : vec) : vec :=
  let v1 := if Nat.eq_dec (fst ij) k then vadd v pf else v in
  if Nat.eq_dec (snd ij) k then vsub v1 pf else v1.

(** The displacement component [x] is not on a face of the periodic cell,
    where the nearest image changes. *)
Definition off_boundary (self : MDSimulation) (x : R) : Prop :=
  x * boxinv self + 0.5 <> np_floor (x * boxinv self + 0.5).

(** A switched object whose window lies inside the cutoff sphere. *)
Definition smooth_switch (self : MDSimulation) : Prop :=
  match window self with
  | Some w => w <> 0 /\ (cutoff self - w) ^ 2 < cutoff2 self
  | None => False
  end.

(** The pair of atoms at [ci] and [cj] is away from the places where the
    energy has no derivative. *)
Definition regular_pair (self : MDSimulation) (ci cj : vec) : Prop :=
  off_boundary self (fst cj - fst ci) /\
  off_boundary self (snd cj - snd ci) /\
  (smooth_switch self \/
   vdot (wrap self (fst cj - fst ci), wrap self (snd cj - snd ci))
        (wrap self (fst cj - fst ci), wrap self (snd cj - snd ci))
     <> cutoff2 self).

Definition other (a : axis) : axis := match a with X => Y | Y => X end.

Definition on_axis (a : axis) (u w : R) : vec :=
  match a with X => (u, w) | Y => (w, u) end.

(** The minimum image of [cj - ci]. *)
Definition disp_of (self : MDSimulation) (cj ci : vec) : vec :=
  (wrap self (fst cj - fst ci), wrap self (snd cj - snd ci)).

(** The derivative that pair [ij] with pair force [f] contributes to the
    coordinate [a] of atom [k]. *)
Definition pair_slope (a : axis) (k : nat) (ij : nat * nat) (f : vec) : R :=
  (if Nat.eq_dec (fst ij) k then coord a f else 0)
  - (if Nat.eq_dec (snd ij) k then coord a f else 0).

(** The evaluator [ev] stays finite as coordinate [a] of atom [k] moves
    near [x], and there the returned energy has the derivative [l] with
    respect to that coordinate. *)
Definition partial_at (ev : ndarray -> result (R * ndarray)) (a : axis)
    (k : nat) (coords : ndarray) (x l : R) : Prop :=
  (exists delta, 0 < delta /\
     forall t, Rabs (t - x) < delta ->
       exists E' F', ev (move a k t coords) = Ok (E', F')) /\
  derivable_pt_lim (fun t => energy_of (ev (move a k t coords))) x l.

(** The entry of atom [k] in [forces] is the gradient of the energy that
    [ev] returns, and [forces] is accumulated pair by pair with opposite
    signs. *)
Definition gradient_at (ev : ndarray -> result (R * ndarray))
    (self : MDSimulation) (coords : ndarray) (k : nat) (ck : vec)
    (forces : ndarray) : Prop :=
  exists (fk : vec) (f : nat * nat -> vec),
    nth_error forces k = Some fk /\
    partial_at ev X k coords (fst ck) (fst fk) /\
    partial_at ev Y k coords (snd ck) (snd fk) /\
    forces = accumulate (repeat vzero (natoms self)) (pairs self)
               (map f (pairs self)) /\
    fk = fold_left (fun v ij => contrib k ij (f ij) v) (pairs self) vzero /\
    Rsum (map fst forces) = 0 /\ Rsum (map snd forces) = 0.

(** An [MDSimulationSwitch] object whose window is wider than twice the
    cutoff. *)
Definition demo_wide : MDSimulation :=
  {| sigma := 1 / 2; epsilon := 1 / 4; mass := 2; dt := 1; T := 300;
     atoms_per_dim := 2; boxlength := 10; cutoff := 1; nsteps := 1;
     window := Some 3; coords := 0%nat; last_coords := 1%nat; timestep := 0;
     timeseries := [0]; PEs := [0]; KEs := [0]; TEs := [0];
     coorddata := 0%nat |}.

(** An [MDSimulationSwitch] object with cutoff 2 and window 1. *)
Definition demo_switch : MDSimulation :=
  {| sigma := 1 / 2; epsilon := 1 / 4; mass := 2; dt := 1; T := 300;
     atoms_per_dim := 2; boxlength := 10; cutoff := 2; nsteps := 1;
     window := Some 1; coords := 0%nat; last_coords := 1%nat; timestep := 0;
     timeseries := [0]; PEs := [0]; KEs := [0]; TEs := [0];
     coorddata := 0%nat |}.

(** ** The remaining cells of the notebook *)

(** [move_particle]: the new value of the global [rval]; [dr] and
    [boxlength] are the globals it reads. *)
Definition move_particle (boxlength dr rval : R) : R :=
  let rval := rval + dr in
  let rval := if Rgt_dec rval boxlength then rval - boxlength else rval in
  if Rlt_dec rval 0 then rval + boxlength else rval.

(** [n] frames of the animation. *)
Fixpoint move_particles (n : nat) (boxlength dr rval : R) : R :=
  match n with
  | O => rval
  | S n' => move_particles n' boxlength dr (move_particle boxlength dr rval)
  end.

(** All atoms moved by the same vector. *)
Definition shift_all (t : vec) (c : ndarray) : ndarray :=
  map (fun v => vadd v t) c.

(** The sum of the rows of an array. *)
Definition total (a : ndarray) : vec := (Rsum (map fst a), Rsum (map snd a)).

(** Two positions that differ by whole box lengths along both axes. *)
Definition same_site (self : MDSimulation) (ci cj : vec) : Prop :=
  exists m n : Z,
    fst cj = fst ci + IZR m * boxlength self /\
    snd cj = snd ci + IZR n * boxlength self.

(** Entry [k] of [spacing] in [init_coords]: the centre of cell [k] along
    one axis. *)
Definition site (self : MDSimulation) (k : nat) : R :=
  - boxlength self / 2
  + INR k * ((boxlength self / 2 - - boxlength self / 2) / INR (atoms_per_dim self))
  + boxlength self / (2 * INR (atoms_per_dim self)).

(** A window for which the scalar division of the switched routine is
    defined, or no window at all. *)
Definition window_defined (cutoff0 : R) (window0 : option R) : Prop :=
  match window0 with
  | Some w => w = 0 \/ (cutoff0 - w) ^ 2 <> cutoff0 ^ 2
  | None => True
  end.

(** The four atoms with the third one moved onto an image of the first. *)
Definition demo_overlap : ndarray := [(0, 0); (1, 0); (10, -20); (4, 4)].

(** The small instance with a time step of 0. *)
Definition demo_still : MDSimulation :=
  {| sigma := 1 / 2; epsilon := 1 / 4; mass := 2; dt := 0; T := 300;
     atoms_per_dim := 2; boxlength := 10; cutoff := 2; nsteps := 1;
     window := None; coords := 0%nat; last_coords := 1%nat; timestep := 0;
     timeseries := [0]; PEs := [0]; KEs := [0]; TEs := [0];
     coorddata := 0%nat |}.

(** ** The plots of the pair potential *)

(** [np.linspace(start, stop, num)], end point included.  numpy sets the
    last entry to [stop]; over the reals the formula already gives it. *)
Definition linspace_endpoint (start stop : R) (num : nat) : list R :=
  map (fun k => start + INR k * ((stop - start) / INR (num - 1))) (range num).

(** One entry of the array statements of the first [showpotential], from
    [rvals[n]] to [energies[n]]. *)
Definition showpotential_at (sigma0 epsilon0 r : R) : result R :=
  let sigmapair := 2 * sigma0 in
  sig_r <- np_div sigmapair r ;;
  let sig_r2 := sig_r * sig_r in
  let sig_r6 := sig_r2 * sig_r2 * sig_r2 in
  let sig_r12 := sig_r6 * sig_r6 in
  Ok (4 * epsilon0 * (sig_r12 - sig_r6)).

(** The first [showpotential]: the two arrays handed to [ax.plot]. *)
Definition showpotential (sigma0 epsilon0 : R) : result (list R * list R) :=
  let npts := 200%nat in
  let maxr := 1.5 in
  let rvals := linspace_endpoint 0.015 maxr npts in
  energies <- mapM (showpotential_at sigma0 epsilon0) rvals ;;
  Ok (rvals, energies).

(** The second [showpotential], with [sig_r[rvals>cutoff] = 0]. *)
Definition showpotential_cutoff_at (sigma0 epsilon0 cutoff0 r : R) : result R :=
  let sigmapair := 2 * sigma0 in
  sig_r <- (if Rgt_dec r cutoff0 then Ok 0 else np_div sigmapair r) ;;
  let sig_r2 := sig_r * sig_r in
  let sig_r6 := sig_r2 * sig_r2 * sig_r2 in
  let sig_r12 := sig_r6 * sig_r6 in
  Ok (4 * epsilon0 * (sig_r12 - sig_r6)).

Definition showpotential_cutoff (sigma0 epsilon0 cutoff0 : R)
    : result (list R * list R) :=
  let npts := 200%nat in
  let maxr := 1.5 in
  let rvals := linspace_endpoint 0.3 maxr npts in
  energies <- mapM (showpotential_cutoff_at sigma0 epsilon0 cutoff0) rvals ;;
  Ok (rvals, energies).

(** The third [showpotential], with the switching function.  The quotient
    is an array divided by a scalar, so a zero divisor gives inf or nan in
    the entries that [np.where] takes from it, unless
    [switch[rvals>cutoff] = 0] overwrites them. *)
Definition showpotential_switch_at (sigma0 epsilon0 cutoff0 window0 r : R)
    : result R :=
  let sigmapair := 2 * sigma0 in
  let ron2 := (cutoff0 - window0) ^ 2 in
  let roff2 := cutoff0 ^ 2 in
  let r2vals := r * r in
  switch <- (if Rgt_dec r cutoff0 then Ok 0
             else if Rgt_dec r2vals ron2
                  then np_div ((roff2 + 2 * r2vals - 3 * ron2) * (roff2 - r2vals) ^ 2)
                              ((roff2 - ron2) ^ 3)
                  else Ok 1) ;;
  sig_r <- np_div sigmapair r ;;
  let sig_r2 := sig_r * sig_r in
  let sig_r6 := sig_r2 * sig_r2 * sig_r2 in
  let sig_r12 := sig_r6 * sig_r6 in
  Ok (4 * epsilon0 * switch * (sig_r12 - sig_r6)).

Definition showpotential_switch (sigma0 epsilon0 cutoff0 window0 : R)
    : result (list R * list R) :=
  let npts := 200%nat in
  let maxr := 1.5 in
  let rvals := linspace_endpoint 0.3 maxr npts in
  energies <- mapM (showpotential_switch_at sigma0 epsilon0 cutoff0 window0) rvals ;;
  Ok (rvals, energies).

(** ** [apply_periodicity] in binary64 *)

(** numpy's float64, with the operations of IEEE 754 binary64. *)
Definition float64 : Type := PrimFloat.float.

(** The float64 value of a small positive integer. *)
Definition float64_of_pos (p : positive) : float64 :=
  FloatOps.SF2Prim (SpecFloat.S754_finite false p 0).

(** [np.floor] on a float64: a number with a non-negative exponent is an
    integer already; otherwise the mantissa is divided, rounding down. *)
Definition np_floor64 (x : float64) : float64 :=
  match FloatOps.Prim2SF x with
  | SpecFloat.S754_finite s m e =>
      if (0 <=? e)%Z then x
      else
        match ((if s then Z.neg m else Z.pos m) / 2 ^ (- e))%Z with
        | Z0 => PrimFloat.zero
        | Z.pos p => FloatOps.SF2Prim (SpecFloat.S754_finite false p 0)
        | Z.neg p => FloatOps.SF2Prim (SpecFloat.S754_finite true p 0)
        end
  | _ => x
  end.

(** [dR -= self.boxlength*np.floor(dR*self.boxinv+0.5)], one entry, with
    [self.boxinv = 1.0/self.boxlength], each operation rounded. *)
Definition wrap64 (boxlength0 d : float64) : float64 :=
  let boxinv0 := PrimFloat.div (float64_of_pos 1) boxlength0 in
  let half := PrimFloat.div (float64_of_pos 1) (float64_of_pos 2) in
  PrimFloat.sub d
    (PrimFloat.mul boxlength0
       (np_floor64 (PrimFloat.add (PrimFloat.mul d boxinv0) half))).

Definition apply_periodicity64 (boxlength0 : float64)
    (dR : list (float64 * float64)) : list (float64 * float64) :=
  map (fun d => (wrap64 boxlength0 (fst d), wrap64 boxlength0 (snd d))) dR.

(** ** Periodicity *)

Lemma np_floor_bounds (x : R) : np_floor x <= x < np_floor x + 1.
Proof.
  unfold np_floor. destruct (base_Int_part x) as [Hle Hgt]. lra.
Qed.

Lemma np_floor_unique (x : R) (n : Z) :
  IZR n <= x < IZR n + 1 -> np_floor x = IZR n.
Proof.
  intros [Hlo Hhi]. unfold np_floor. f_equal. symmetry.
  apply Int_part_spec. lra.
Qed.

Lemma wrap_range (self : MDSimulation) (d : R) :
  0 < boxlength self ->
  - (boxlength self / 2) <= wrap self d < boxlength self / 2.
Proof.
  intros HL. unfold wrap, boxinv.
  pose proof (np_floor_bounds (d * (1 / boxlength self) + 0.5)) as [Hlo Hhi].
  set (n := np_floor (d * (1 / boxlength self) + 0.5)) in *.
  assert (Hd : d * (1 / boxlength self) * boxlength self = d) by (field; lra).
  split; nra.
Qed.

Lemma wrap_nearest (self : MDSimulation) (d : R) :
  0 < boxlength self ->
  exists n : Z,
    wrap self d = d - boxlength self * IZR n /\
    Rabs (d / boxlength self - IZR n) <= 1 / 2.
Proof.
  intros HL. exists (Int_part (d * boxinv self + 0.5)). split.
  - reflexivity.
  - pose proof (np_floor_bounds (d * boxinv self + 0.5)) as [Hlo Hhi].
    unfold np_floor, boxinv in *.
    replace (d / boxlength self) with (d * (1 / boxlength self)) by (field; lra).
    apply Rabs_le. lra.
Qed.

(** C8 (amended).  In exact arithmetic, for a box of length L > 0, every
    entry of the array returned by [apply_periodicity] is the input entry
    minus L times an integer nearest to (entry / L), axis by axis, and has
    magnitude at most L/2. *)
Theorem apply_periodicity_min_image (self : MDSimulation) (dR : ndarray) (n : nat) (d' : vec) :
  0 < boxlength self ->
  nth_error (apply_periodicity self dR) n = Some d' ->
  exists (d : vec) (kx ky : Z),
    nth_error dR n = Some d /\
    fst d' = fst d - boxlength self * IZR kx /\
    snd d' = snd d - boxlength self * IZR ky /\
    Rabs (fst d / boxlength self - IZR kx) <= 1 / 2 /\
    Rabs (snd d / boxlength self - IZR ky) <= 1 / 2 /\
    Rabs (fst d') <= boxlength self / 2 /\
    Rabs (snd d') <= boxlength self / 2.
Proof.
  intros HL Hn. unfold apply_periodicity in Hn.
  rewrite nth_error_map in Hn.
  destruct (nth_error dR n) as [d|] eqn:Hd; cbn in Hn; [|discriminate Hn].
  injection Hn as <-. cbn [fst snd].
  destruct (wrap_nearest self (fst d) HL) as [kx [Hx Hkx]].
  destruct (wrap_nearest self (snd d) HL) as [ky [Hy Hky]].
  exists d, kx, ky.
  pose proof (wrap_range self (fst d) HL).
  pose proof (wrap_range self (snd d) HL).
  repeat split; auto; apply Rabs_le; lra.
Qed.

Lemma apply_periodicity_min_image_witness :
  exists (d : vec) (kx ky : Z),
    nth_error [(7, -4)] 0 = Some d /\
    fst (wrap demo_sim 7, wrap demo_sim (-4)) = fst d - boxlength demo_sim * IZR kx /\
    snd (wrap demo_sim 7, wrap demo_sim (-4)) = snd d - boxlength demo_sim * IZR ky /\
    Rabs (fst d / boxlength demo_sim - IZR kx) <= 1 / 2 /\
    Rabs (snd d / boxlength demo_sim - IZR ky) <= 1 / 2 /\
    Rabs (fst (wrap demo_sim 7, wrap demo_sim (-4))) <= boxlength demo_sim / 2 /\
    Rabs (snd (wrap demo_sim 7, wrap demo_sim (-4))) <= boxlength demo_sim / 2.
Proof.
  apply (apply_periodicity_min_image demo_sim [(7, -4)] 0).
  - simpl. lra.
  - reflexivity.
Defined.

(** In binary64 the bound of C8 can fail by a rounding error.  With L = 10
    and the entry 4.999999999999999, the largest float64 below 5, the sum
    d*boxinv + 0.5 rounds to 1.0, its floor is 1, and the code returns
    -5.000000000000001, the largest float64 below -5: its magnitude is
    above L/2 = 5, and the integer subtracted, 1, is not the one nearest
    to d/L.  An entry away from the face, 7, is wrapped to -3 as over the
    reals. *)
Lemma apply_periodicity_binary64 :
  apply_periodicity64 (float64_of_pos 10)
    [(PrimFloat.next_down (float64_of_pos 5), float64_of_pos 7)] =
    [(PrimFloat.next_down (PrimFloat.opp (float64_of_pos 5)),
      PrimFloat.opp (float64_of_pos 3))] /\
  PrimFloat.ltb (PrimFloat.div (float64_of_pos 10) (float64_of_pos 2))
    (PrimFloat.abs
       (wrap64 (float64_of_pos 10) (PrimFloat.next_down (float64_of_pos 5)))) = true /\
  PrimFloat.ltb (PrimFloat.next_down (float64_of_pos 5)) (float64_of_pos 5) = true /\
  wrap demo_sim 5 = -5 /\
  (forall d : R, 0 <= d < 5 -> wrap demo_sim d = d).
Proof.
  split; [vm_compute; reflexivity|].
  split; [vm_compute; reflexivity|].
  split; [vm_compute; reflexivity|].
  split.
  - unfold wrap, boxinv. cbn [demo_sim boxlength].
    rewrite (np_floor_unique _ 1); lra.
  - intros d Hd. unfold wrap, boxinv. cbn [demo_sim boxlength].
    rewrite (np_floor_unique _ 0); lra.
Qed.

(** ** The pair list *)

Lemma combinations2_double_length (l : list nat) :
  (2 * length (combinations2 l) = length l * (length l - 1))%nat.
Proof.
  induction l as [|x t IH]; [reflexivity|].
  cbn [combinations2 length]. rewrite length_app, length_map.
  destruct t as [|y t']; [reflexivity|].
  cbn [length] in *. nia.
Qed.

Lemma combinations2_length (l : list nat) :
  length (combinations2 l) = (length l * (length l - 1) / 2)%nat.
Proof.
  rewrite <- combinations2_double_length.
  rewrite Nat.mul_comm, Nat.div_mul; [reflexivity | discriminate].
Qed.

Lemma combinations2_seq_In (a n i j : nat) :
  In (i, j) (combinations2 (seq a n)) <-> (a <= i /\ i < j /\ j < a + n)%nat.
Proof.
  revert a. induction n as [|n IH]; intros a; cbn [seq combinations2].
  - split; [intros [] | lia].
  - rewrite in_app_iff, in_map_iff, IH. split.
    + intros [[y [Heq Hy]] | H].
      * injection Heq as <- <-. apply in_seq in Hy. lia.
      * lia.
    + intros (Ha & Hij & Hj).
      destruct (Nat.eq_dec a i) as [->|Hne].
      * left. exists j. split; [reflexivity|]. apply in_seq. lia.
      * right. lia.
Qed.

Lemma combinations2_seq_NoDup (a n : nat) : NoDup (combinations2 (seq a n)).
Proof.
  revert a. induction n as [|n IH]; intros a; cbn [seq combinations2].
  - constructor.
  - apply NoDup_app.
    + apply Injective_map_NoDup; [|apply seq_NoDup].
      intros y z Heq. now injection Heq.
    + apply IH.
    + intros [i j] Hin1 Hin2.
      apply in_map_iff in Hin1 as [y [Heq _]]. injection Heq as <- <-.
      apply combinations2_seq_In in Hin2. lia.
Qed.

(** ** Inversion of one integrator step *)

Lemma bind_Ok {A B : Type} (m : result A) (k : A -> result B) (b : B) :
  bind m k = Ok b -> exists a, m = Ok a /\ k a = Ok b.
Proof.
  destruct m as [a| |]; cbn; intros H; try discriminate. now exists a.
Qed.

Lemma propagate_eq (self : MDSimulation) (h : heap) (PE : R)
    (gradient v : ndarray) :
  let newcoords :=
    verlet self (deref h (coords self)) (deref h (last_coords self)) gradient in
  compute_energy_and_gradient self (deref h (coords self)) = Ok (PE, gradient) ->
  arr_div (arr_sub newcoords (deref h (last_coords self))) (2 * dt self) = Ok v ->
  propagate self h =
    Ok (stepped self (length h) PE (0.5 * mass self * sum_square v),
        store (S (S (length h)))
              (apply_periodicity self newcoords)
              (h ++ [deref h (coords self)] ++ [newcoords] ++ [newcoords])).
Proof.
  cbn zeta. intros Heval Hv. unfold propagate, verlet in *.
  rewrite Heval. cbn [bind]. rewrite Hv. cbn [bind].
  unfold alloc, stepped.
  assert (Hd2 : forall (g : heap) (a b : ndarray),
             deref ((g ++ [a]) ++ [b]) (length (g ++ [a])) = b).
  { intros g a b. unfold deref. rewrite app_nth2 by lia.
    rewrite Nat.sub_diag. reflexivity. }
  rewrite !Hd2. rewrite !length_app. cbn [length].
  replace (length h + 1 + 1)%nat with (S (S (length h))) by lia.
  replace (length h + 1)%nat with (S (length h)) by lia.
  rewrite <- !app_assoc. reflexivity.
Qed.

Lemma propagate_Ok (self self' : MDSimulation) (h h' : heap) :
  propagate self h = Ok (self', h') ->
  exists PE gradient v,
    let newcoords :=
      verlet self (deref h (coords self)) (deref h (last_coords self)) gradient in
    compute_energy_and_gradient self (deref h (coords self)) = Ok (PE, gradient) /\
    arr_div (arr_sub newcoords (deref h (last_coords self))) (2 * dt self) = Ok v /\
    h' = store (S (S (length h)))
               (apply_periodicity self newcoords)
               (h ++ [deref h (coords self)] ++ [newcoords] ++ [newcoords]) /\
    self' = stepped self (length h) PE (0.5 * mass self * sum_square v).
Proof.
  intros H. pose proof H as H0. unfold propagate in H0.
  apply bind_Ok in H0 as [[PE gradient] [Heval H0]].
  apply bind_Ok in H0 as [v [Hv _]].
  exists PE, gradient, v. cbn zeta.
  rewrite (propagate_eq self h PE gradient v Heval Hv) in H.
  injection H as <- <-. auto.
Qed.

(** C9.  For every particle count N the list
    [combinations(range(N), 2)] has N(N-1)/2 entries, holds exactly the
    pairs (i, j) with i < j < N, each once (so no self-pair and no
    duplicate), and the pair list of a simulation object is this list for
    its particle count and is the same after every integrator step. *)
Theorem pairs_enumeration (N : nat) :
  length (combinations2 (range N)) = (N * (N - 1) / 2)%nat /\
  (forall i j : nat, In (i, j) (combinations2 (range N)) <-> (i < j /\ j < N)%nat) /\
  (forall i : nat, ~ In (i, i) (combinations2 (range N))) /\
  NoDup (combinations2 (range N)) /\
  (forall self : MDSimulation,
     natoms self = N ->
     pairs self = combinations2 (range N) /\
     forall (h : heap) (self' : MDSimulation) (h' : heap),
       propagate self h = Ok (self', h') -> pairs self' = pairs self).
Proof.
  unfold range. split; [|split; [|split; [|split]]].
  - rewrite combinations2_length, length_seq. reflexivity.
  - intros i j. rewrite combinations2_seq_In. lia.
  - intros i H. apply combinations2_seq_In in H. lia.
  - apply combinations2_seq_NoDup.
  - intros self HN. split.
    + unfold pairs, range. now rewrite HN.
    + intros h self' h' Hp.
      apply propagate_Ok in Hp as (PE & g & v & _ & _ & _ & ->).
      reflexivity.
Qed.

(** ** Monadic plumbing *)

Lemma mapM_Ok_length {A B : Type} (f : A -> result B) (l : list A) (bs : list B) :
  mapM f l = Ok bs -> length bs = length l.
Proof.
  revert bs. induction l as [|a l IH]; cbn; intros bs H.
  - now injection H as <-.
  - apply bind_Ok in H as [b [_ H]]. apply bind_Ok in H as [bs' [Hbs H]].
    injection H as <-. cbn. f_equal. now apply IH.
Qed.

Lemma mapM_Ok_nth {A B : Type} (f : A -> result B) (l : list A) (bs : list B)
    (n : nat) (a : A) :
  mapM f l = Ok bs -> nth_error l n = Some a ->
  exists b, f a = Ok b /\ nth_error bs n = Some b.
Proof.
  revert bs n. induction l as [|x l IH]; intros bs n H Hn.
  - destruct n; discriminate.
  - cbn in H. apply bind_Ok in H as [b [Hb H]].
    apply bind_Ok in H as [bs' [Hbs H]]. injection H as <-.
    destruct n as [|n]; cbn in Hn.
    + injection Hn as <-. now exists b.
    + cbn. now apply IH.
Qed.

Lemma mapM_ext_in {A B : Type} (f g : A -> result B) (l : list A) :
  (forall a, In a l -> f a = g a) -> mapM f l = mapM g l.
Proof.
  induction l as [|a l IH]; intros H; [reflexivity|].
  cbn. rewrite (H a (or_introl eq_refl)).
  rewrite IH; [reflexivity|]. intros b Hb. apply H. now right.
Qed.

Lemma mapM_all_Ok {A B : Type} (f : A -> result B) (g : A -> B) (l : list A) :
  (forall a, In a l -> f a = Ok (g a)) -> mapM f l = Ok (map g l).
Proof.
  induction l as [|a l IH]; intros H; [reflexivity|].
  cbn. rewrite (H a (or_introl eq_refl)). cbn.
  rewrite IH; [reflexivity|]. intros b Hb. apply H. now right.
Qed.

(** ** The hard cutoff, pair by pair *)

Lemma Ok_triple (a a' b b' c c' : R) :
  a = a' -> b = b' -> c = c' ->
  @Ok (R * vec) (a, (b, c)) = Ok (a', (b', c')).
Proof. now intros -> -> ->. Qed.

Lemma pair_cutoff_beyond (self : MDSimulation) (d : vec) :
  vdot d d > cutoff2 self -> pair_cutoff self d = Ok (0, vzero).
Proof.
  intros H. unfold pair_cutoff.
  destruct (Rgt_dec (vdot d d) (cutoff2 self)) as [_|Hn]; [|contradiction].
  cbn. unfold vscale, vzero. apply Ok_triple; ring.
Qed.

Lemma sqrt_pow2 (x : R) : 0 <= x -> sqrt x ^ 2 = x.
Proof. intros H. cbn. rewrite Rmult_1_r. now apply sqrt_sqrt. Qed.

Lemma pair_cutoff_within (self : MDSimulation) (d : vec) :
  0 < vdot d d <= cutoff2 self ->
  exists pf : vec,
    pair_cutoff self d =
      Ok (lennard_jones (epsilon self) (2 * sigma self) (sqrt (vdot d d)), pf).
Proof.
  intros [Hpos Hle]. unfold pair_cutoff.
  destruct (Rgt_dec (vdot d d) (cutoff2 self)) as [Hgt|_]; [lra|].
  unfold np_div. destruct (Req_dec_T (vdot d d) 0) as [H0|_]; [lra|].
  cbn. eexists. apply Ok_triple; [|reflexivity|reflexivity].
  unfold lennard_jones, foureps, sig2, sigmaij.
  pose proof (sqrt_pow2 (vdot d d) (Rlt_le _ _ Hpos)) as Hs.
  assert (Hr : sqrt (vdot d d) <> 0).
  { intros E. rewrite E in Hs. cbn in Hs. lra. }
  set (r := sqrt (vdot d d)) in *. rewrite <- Hs.
  field. exact Hr.
Qed.

Lemma pair_cutoff_coincident (self : MDSimulation) (d : vec) :
  vdot d d = 0 -> pair_cutoff self d = NonFinite.
Proof.
  intros H. unfold pair_cutoff.
  assert (0 <= cutoff2 self) by (unfold cutoff2; apply pow2_ge_0).
  destruct (Rgt_dec (vdot d d) (cutoff2 self)) as [Hgt|_]; [lra|].
  unfold np_div. destruct (Req_dec_T (vdot d d) 0) as [_|Hn]; [reflexivity|].
  contradiction.
Qed.

Lemma upd_vzero (forces : ndarray) (i j : nat) :
  upd j (fun v => vsub v vzero) (upd i (fun v => vadd v vzero) forces) = forces.
Proof.
  assert (Hid : forall (f : vec -> vec), (forall v, f v = v) ->
                forall k a, upd k f a = a).
  { intros f Hf k a. revert k. induction a as [|v a IH]; intros [|k]; cbn;
      try reflexivity.
    - now rewrite Hf.
    - now rewrite IH. }
  rewrite (Hid (fun v => vadd v vzero)).
  - apply Hid. intros [x y]. unfold vsub, vzero. cbn. apply f_equal2; ring.
  - intros [x y]. unfold vadd, vzero. cbn. apply f_equal2; ring.
Qed.

(** C2.  Whenever the hard-cutoff evaluator returns a finite result, the
    total energy is the sum of the pair energies and the forces are
    accumulated from the pair forces; a pair whose minimum-image squared
    distance exceeds cutoff^2 has pair energy 0 and pair force (0, 0), which
    leaves both atoms' force entries as they are; a pair with
    r^2 <= cutoff^2 has the Lennard-Jones energy
    4 eps [(sigma_pair/r)^12 - (sigma_pair/r)^6] with sigma_pair = 2 sigma. *)
Theorem cutoff_pair_contributions (self : MDSimulation) (coords : ndarray)
    (energy : R) (forces : ndarray) :
  compute_energy_and_gradient_cutoff self coords = Ok (energy, forces) ->
  exists (dR : ndarray) (pairenergies : list R) (pairforces : ndarray),
    displacements self coords = Ok dR /\
    length pairenergies = length dR /\
    length pairforces = length dR /\
    energy = Rsum pairenergies /\
    forces = accumulate (repeat vzero (natoms self)) (pairs self) pairforces /\
    forall (n : nat) (d : vec),
      nth_error dR n = Some d ->
      (vdot d d > cutoff2 self ->
         nth_error pairenergies n = Some 0 /\
         nth_error pairforces n = Some vzero /\
         forall (f : ndarray) (i j : nat),
           upd j (fun v => vsub v vzero) (upd i (fun v => vadd v vzero) f) = f) /\
      (vdot d d <= cutoff2 self ->
         nth_error pairenergies n =
           Some (lennard_jones (epsilon self) (2 * sigma self) (sqrt (vdot d d)))).
Proof.
  unfold compute_energy_and_gradient_cutoff. intros H.
  apply bind_Ok in H as [dR [HdR H]].
  apply bind_Ok in H as [pp [Hpp H]].
  injection H as <- <-.
  exists dR, (map fst pp), (map snd pp).
  pose proof (mapM_Ok_length _ _ _ Hpp) as Hlen.
  rewrite !length_map.
  repeat (split; [solve [auto] |]).
  intros n d Hn.
  destruct (mapM_Ok_nth _ _ _ _ _ Hpp Hn) as [[pe pf] [Hpair Hnth]].
  rewrite !nth_error_map, Hnth. cbn. split.
  - intros Hgt. rewrite (pair_cutoff_beyond self d Hgt) in Hpair.
    injection Hpair as <- <-. repeat split. intros f i j. apply upd_vzero.
  - intros Hle.
    destruct (Req_dec_T (vdot d d) 0) as [H0|Hne].
    + rewrite (pair_cutoff_coincident self d H0) in Hpair. discriminate.
    + assert (Hpos : 0 < vdot d d).
      { assert (0 <= vdot d d) by (unfold vdot; nra). lra. }
      destruct (pair_cutoff_within self d (conj Hpos Hle)) as [pf' Hw].
      rewrite Hw in Hpair. now injection Hpair as <- _.
Qed.

(** ** Window zero *)

Lemma cutoff_as_base (self : MDSimulation) (coords : ndarray) :
  compute_energy_and_gradient_cutoff (as_base self) coords =
  compute_energy_and_gradient_cutoff self coords.
Proof. reflexivity. Qed.

Lemma bind_avoids {A B : Type} (e : exn) (m : result A) (k : A -> result B) :
  avoids e m -> (forall a, avoids e (k a)) -> avoids e (bind m k).
Proof. destruct m as [a|e'|]; cbn; auto. Qed.

Lemma mapM_avoids {A B : Type} (e : exn) (f : A -> result B) (l : list A) :
  (forall a, avoids e (f a)) -> avoids e (mapM f l).
Proof.
  intros Hf. induction l as [|a l IH]; cbn; [exact I|].
  apply bind_avoids; [apply Hf|]. intros b.
  apply bind_avoids; [exact IH|]. intros bs. exact I.
Qed.

Lemma avoids_neq {A : Type} (e : exn) (m : result A) :
  avoids e m -> m <> Raise e.
Proof. intros H E. rewrite E in H. now apply H. Qed.

Lemma displacements_avoids (e : exn) (self : MDSimulation) (coords : ndarray) :
  e <> IndexError -> avoids e (displacements self coords).
Proof.
  intros He. unfold displacements, np_take.
  assert (Htake : forall i : nat,
             avoids e (match nth_error coords i with
                       | Some v => Ok v
                       | None => Raise IndexError
                       end)).
  { intros i. destruct (nth_error coords i); cbn;
      [exact I | intros E; apply He; now symmetry]. }
  repeat (apply bind_avoids; [apply mapM_avoids; exact Htake | intros ?]).
  exact I.
Qed.

Lemma cutoff_avoids (e : exn) (self : MDSimulation) (coords : ndarray) :
  e <> IndexError -> avoids e (compute_energy_and_gradient_cutoff self coords).
Proof.
  intros He. unfold compute_energy_and_gradient_cutoff.
  apply bind_avoids; [now apply displacements_avoids | intros dR].
  apply bind_avoids; [|intros pp; exact I].
  apply mapM_avoids. intros d. unfold pair_cutoff, np_div.
  destruct (Rgt_dec _ _); cbn; [exact I|].
  destruct (Req_dec_T _ _); cbn; exact I.
Qed.

Lemma cutoff_no_ZeroDivision (self : MDSimulation) (coords : ndarray) :
  compute_energy_and_gradient_cutoff self coords <> Raise ZeroDivisionError.
Proof. apply avoids_neq, cutoff_avoids. discriminate. Qed.

Lemma evaluate_avoids (e : exn) (self : MDSimulation) (coords : ndarray) :
  e <> IndexError -> e <> ZeroDivisionError ->
  avoids e (compute_energy_and_gradient self coords).
Proof.
  intros Hi Hz.
  assert (Hc : avoids e (compute_energy_and_gradient_cutoff self coords))
    by (apply cutoff_avoids; exact Hi).
  unfold compute_energy_and_gradient.
  destruct (window self) as [w|]; [|exact Hc].
  destruct (Req_dec_T w 0); [exact Hc|].
  unfold compute_energy_and_gradient_switch.
  apply bind_avoids.
  { unfold py_div. destruct (Req_dec_T _ _); cbn; [|exact I].
    intros E. apply Hz. now symmetry. }
  intros denom.
  apply bind_avoids; [apply displacements_avoids; exact Hi | intros dR].
  apply bind_avoids; [|intros pp; exact I].
  apply mapM_avoids. intros d. unfold pair_switch, np_div.
  destruct (Req_dec_T _ _); cbn; exact I.
Qed.

Lemma evaluate_avoids_NameError (name : string) (self : MDSimulation)
    (coords : ndarray) :
  avoids (NameError name) (compute_energy_and_gradient self coords).
Proof. apply evaluate_avoids; discriminate. Qed.

Lemma evaluate_avoids_Raised (name message : string) (self : MDSimulation)
    (coords : ndarray) :
  avoids (Raised name message) (compute_energy_and_gradient self coords).
Proof. apply evaluate_avoids; discriminate. Qed.

(** C3.  An [MDSimulationSwitch] object with window = 0 evaluates every
    position array exactly as the hard-cutoff evaluator of an [MDSimulation]
    object with the same parameters does, and this raises no
    [ZeroDivisionError] (the switched routine itself would raise it). *)
Theorem switch_window_zero (self : MDSimulation) (coords : ndarray) :
  window self = Some 0 ->
  compute_energy_and_gradient self coords =
    compute_energy_and_gradient (as_base self) coords /\
  compute_energy_and_gradient self coords =
    compute_energy_and_gradient_cutoff self coords /\
  compute_energy_and_gradient self coords <> Raise ZeroDivisionError /\
  compute_energy_and_gradient_switch self 0 coords = Raise ZeroDivisionError.
Proof.
  intros Hw.
  assert (Heq : compute_energy_and_gradient self coords =
                compute_energy_and_gradient_cutoff self coords).
  { unfold compute_energy_and_gradient. rewrite Hw.
    destruct (Req_dec_T 0 0) as [_|Hn]; [reflexivity | contradiction]. }
  repeat split.
  - rewrite Heq. reflexivity.
  - exact Heq.
  - rewrite Heq. apply cutoff_no_ZeroDivision.
  - unfold compute_energy_and_gradient_switch, py_div.
    destruct (Req_dec_T _ 0) as [_|Hn]; [reflexivity|].
    exfalso. apply Hn. unfold cutoff2. ring.
Qed.

(** ** Displacements, pair by pair *)

Lemma np_take_outcome (c : ndarray) (l : list nat) :
  (exists a, np_take c l = Ok a) \/ np_take c l = Raise IndexError.
Proof.
  unfold np_take. induction l as [|i l IH]; cbn.
  - left. now eexists.
  - destruct (nth_error c i) as [v|]; cbn; [|now right].
    destruct IH as [[a ->] | ->]; cbn; [left; now eexists | now right].
Qed.

Lemma displacements_pairwise (self : MDSimulation) (coords : ndarray) :
  displacements self coords = mapM (pair_disp self coords) (pairs self).
Proof.
  unfold displacements, iindices, jindices.
  induction (pairs self) as [|[i j] ps IH]; [reflexivity|].
  cbn [map fst snd mapM]. unfold pair_disp at 1. cbn [fst snd].
  unfold np_take in *. cbn [mapM].
  destruct (nth_error coords j) as [cj|]; cbn [bind]; [|reflexivity].
  rewrite <- IH. clear IH.
  destruct (np_take_outcome coords (map snd ps)) as [[a Ha] | Ha];
    unfold np_take in Ha; rewrite Ha; cbn [bind].
  - destruct (nth_error coords i) as [ci|]; cbn [bind]; [|reflexivity].
    destruct (np_take_outcome coords (map fst ps)) as [[b Hb] | Hb];
      unfold np_take in Hb; rewrite Hb; cbn [bind]; reflexivity.
  - destruct (nth_error coords i) as [ci|]; reflexivity.
Qed.

Lemma wrap_small (self : MDSimulation) (d : R) :
  0 < boxlength self ->
  - (boxlength self / 2) <= d < boxlength self / 2 ->
  wrap self d = d.
Proof.
  intros HL [Hlo Hhi]. unfold wrap, boxinv.
  rewrite (np_floor_unique _ 0); [ring|].
  assert (Hd : d * (1 / boxlength self) * boxlength self = d) by (field; lra).
  cbn. split; nra.
Qed.

(** ** The store *)

Lemma deref_app_l (h g : heap) (l : ref) :
  (l < length h)%nat -> deref (h ++ g) l = deref h l.
Proof. intros H. unfold deref. now rewrite app_nth1. Qed.

Lemma deref_app_r (h g : heap) (l : ref) :
  deref (h ++ g) (length h + l)%nat = deref g l.
Proof.
  unfold deref. rewrite app_nth2 by lia. f_equal. lia.
Qed.

Lemma length_store (l : ref) (a : ndarray) (h : heap) :
  length (store l a h) = length h.
Proof.
  revert l. induction h as [|b h IH]; intros [|l]; cbn; auto.
Qed.

Lemma deref_store_eq (l : ref) (a : ndarray) (h : heap) :
  (l < length h)%nat -> deref (store l a h) l = a.
Proof.
  revert l. induction h as [|b h IH]; intros [|l] H; cbn in *; try lia.
  - reflexivity.
  - apply IH. lia.
Qed.

Lemma deref_store_ne (l l' : ref) (a : ndarray) (h : heap) :
  l <> l' -> deref (store l a h) l' = deref h l'.
Proof.
  revert l l'. induction h as [|b h IH]; intros [|l] [|l'] H; cbn;
    try reflexivity; try contradiction.
  apply IH. lia.
Qed.

(** The store after one step: the three fresh arrays follow the old ones. *)
Lemma deref_after_step (h : heap) (c new disp : ndarray) :
  let h' := store (S (S (length h))) disp (h ++ [c] ++ [new] ++ [new]) in
  deref h' (length h) = c /\
  deref h' (S (length h)) = new /\
  deref h' (S (S (length h))) = disp /\
  forall l, (l < length h)%nat -> deref h' l = deref h l.
Proof.
  cbn zeta. repeat split.
  - rewrite deref_store_ne by lia.
    replace (length h) with (length h + 0)%nat at 1 by lia.
    now rewrite deref_app_r.
  - rewrite deref_store_ne by lia.
    replace (S (length h)) with (length h + 1)%nat by lia.
    now rewrite deref_app_r.
  - apply deref_store_eq. rewrite !length_app. cbn. lia.
  - intros l Hl. rewrite deref_store_ne by lia. now apply deref_app_l.
Qed.

(** ** One step of the integrator *)

Lemma nth_error_map2 {A B C : Type} (f : A -> B -> C) (a : list A) (b : list B)
    (k : nat) :
  nth_error (map2 f a b) k =
    match nth_error a k, nth_error b k with
    | Some x, Some y => Some (f x y)
    | _, _ => None
    end.
Proof.
  revert b k. induction a as [|x a IH]; intros [|y b] [|k]; cbn; try reflexivity.
  - destruct (nth_error a k); reflexivity.
  - apply IH.
Qed.

Lemma length_map2 {A B C : Type} (f : A -> B -> C) (a : list A) (b : list B) :
  length (map2 f a b) = Nat.min (length a) (length b).
Proof.
  revert b. induction a as [|x a IH]; intros [|y b]; cbn; auto.
Qed.

Lemma arr_div_Ok (a : ndarray) (c : R) :
  c <> 0 -> arr_div a c = Ok (map (fun v => (fst v / c, snd v / c)) a).
Proof.
  intros Hc. unfold arr_div. apply mapM_all_Ok. intros v _.
  unfold np_div. destruct (Req_dec_T c 0) as [E|_]; [contradiction|].
  reflexivity.
Qed.

Lemma verlet_nth (self : MDSimulation) (current previous gradient : ndarray)
    (k : nat) (c p g : vec) :
  nth_error current k = Some c ->
  nth_error previous k = Some p ->
  nth_error gradient k = Some g ->
  nth_error (verlet self current previous gradient) k =
    Some (2 * fst c - fst p + dt self ^ 2 * (- (fst g / mass self)),
          2 * snd c - snd p + dt self ^ 2 * (- (snd g / mass self))).
Proof.
  intros Hc Hp Hg. unfold verlet, arr_add, arr_sub, arr_scale.
  repeat (rewrite nth_error_map2 || rewrite nth_error_map).
  rewrite Hc, Hp, Hg. cbn [option_map]. unfold vadd, vsub, vscale, minv.
  cbn [fst snd]. apply f_equal. apply f_equal2; unfold Rdiv; ring.
Qed.

(** C5.  From a state whose evaluator output at the current positions is
    finite (and dt is not 0), [propagate] returns; with a = -(gradient/mass)
    the new positions are 2*current - previous + dt^2*a, the velocity is
    (new - previous)/(2 dt), the kinetic energy is (1/2) m sum v^2, the old
    current array becomes the previous one, time advances by dt, and each
    of the four series gets exactly one new entry: the time, the potential
    energy, the kinetic energy and their sum. *)
Theorem propagate_step (self : MDSimulation) (h : heap) (PE : R) (gradient : ndarray) :
  compute_energy_and_gradient self (deref h (coords self)) = Ok (PE, gradient) ->
  dt self <> 0 ->
  exists (self' : MDSimulation) (h' : heap) (v : ndarray),
    propagate self h = Ok (self', h') /\
    (forall (k : nat) (c p g : vec),
       nth_error (deref h (coords self)) k = Some c ->
       nth_error (deref h (last_coords self)) k = Some p ->
       nth_error gradient k = Some g ->
       exists new : vec,
         nth_error (deref h' (coords self')) k = Some new /\
         fst new = 2 * fst c - fst p + dt self ^ 2 * (- (fst g / mass self)) /\
         snd new = 2 * snd c - snd p + dt self ^ 2 * (- (snd g / mass self)) /\
         nth_error v k =
           Some ((fst new - fst p) / (2 * dt self),
                 (snd new - snd p) / (2 * dt self))) /\
    length v = length (deref h' (coords self')) /\
    deref h' (last_coords self') = deref h (coords self) /\
    timestep self' = timestep self + dt self /\
    timeseries self' = timeseries self ++ [timestep self'] /\
    PEs self' = PEs self ++ [PE] /\
    KEs self' = KEs self ++ [1 / 2 * mass self * sum_square v] /\
    TEs self' = TEs self ++ [PE + 1 / 2 * mass self * sum_square v].
Proof.
  intros Heval Hdt.
  set (current := deref h (coords self)).
  set (previous := deref h (last_coords self)).
  set (newcoords := verlet self current previous gradient).
  assert (H2dt : 2 * dt self <> 0) by lra.
  pose proof (arr_div_Ok (arr_sub newcoords previous) (2 * dt self) H2dt) as Hv.
  pose proof (propagate_eq self h PE gradient _ Heval Hv) as Hp.
  destruct (deref_after_step h current newcoords
              (apply_periodicity self newcoords)) as (Hd0 & Hd1 & Hd2 & Hold).
  set (v := map (fun v : vec => (fst v / (2 * dt self), snd v / (2 * dt self)))
                (arr_sub newcoords previous)) in *.
  eexists _, _, v. split; [exact Hp|]. cbn [coords last_coords stepped
    timestep timeseries PEs KEs TEs].
  fold current previous newcoords. rewrite Hd0, Hd1.
  split; [|split; [|split; [reflexivity|]]].
  - intros k c p g Hc Hpk Hg.
    pose proof (verlet_nth self current previous gradient k c p g Hc Hpk Hg) as Hn.
    fold newcoords in Hn. eexists. split; [exact Hn|]. cbn [fst snd].
    split; [reflexivity|]. split; [reflexivity|].
    unfold v. rewrite nth_error_map. unfold arr_sub.
    rewrite nth_error_map2, Hn, Hpk. reflexivity.
  - unfold v, arr_sub, newcoords, verlet, arr_add, arr_sub, arr_scale.
    repeat (rewrite length_map2 || rewrite length_map). lia.
  - replace (0.5) with (1 / 2) by lra. repeat split.
Qed.

(** ** The small instance, evaluated *)

Ltac vec_list_eq :=
  repeat match goal with
         | |- @eq (list _) (_ :: _) (_ :: _) => apply f_equal2
         | |- @eq (list _) [] [] => reflexivity
         | |- @eq (R * R) (_, _) (_, _) => apply f_equal2
         end.

Lemma demo_displacements :
  displacements demo_sim demo_coords =
    Ok [(1, 0); (0, 4); (4, 4); (-1, 4); (3, 4); (4, 0)].
Proof.
  rewrite displacements_pairwise.
  change (pairs demo_sim) with [(0, 1); (0, 2); (0, 3); (1, 2); (1, 3); (2, 3)]%nat.
  unfold demo_coords, pair_disp. cbn [mapM nth_error fst snd bind].
  apply f_equal. vec_list_eq;
    (rewrite wrap_small; cbn [demo_sim boxlength]; lra).
Qed.

Lemma demo_pair_within : pair_cutoff demo_sim (1, 0) = Ok (0, (6, 0)).
Proof.
  unfold pair_cutoff, vdot, cutoff2, np_div, sig2, sigmaij, foureps, vscale.
  cbn [fst snd demo_sim cutoff sigma epsilon].
  destruct (Rgt_dec _ _) as [Hgt|_]; [lra|].
  destruct (Req_dec_T _ _) as [E|_]; [lra|].
  cbn [bind]. apply Ok_triple; field.
Qed.

Lemma demo_pair_beyond (d : vec) :
  vdot d d > 4 -> pair_cutoff demo_sim d = Ok (0, vzero).
Proof.
  intros H. apply pair_cutoff_beyond. unfold cutoff2. cbn [demo_sim cutoff]. lra.
Qed.

Lemma demo_evaluation :
  compute_energy_and_gradient demo_sim demo_coords = Ok (0, demo_gradient).
Proof.
  unfold compute_energy_and_gradient. cbn [demo_sim window].
  unfold compute_energy_and_gradient_cutoff.
  rewrite demo_displacements. cbn [bind mapM].
  rewrite demo_pair_within.
  rewrite !demo_pair_beyond by (unfold vdot; cbn [fst snd]; lra).
  cbn [bind map fst snd].
  change (pairs demo_sim) with [(0, 1); (0, 2); (0, 3); (1, 2); (1, 3); (2, 3)]%nat.
  change (natoms demo_sim) with 4%nat.
  unfold accumulate, Rsum, demo_gradient, vzero.
  cbn [repeat combine fold_left fold_right upd].
  unfold vadd, vsub. cbn [fst snd].
  apply f_equal. apply f_equal2; [lra|]. vec_list_eq; lra.
Qed.

(** ** Time reversal *)

Lemma length_upd (k : nat) (f : vec -> vec) (a : ndarray) :
  length (upd k f a) = length a.
Proof.
  revert k. induction a as [|v a IH]; intros [|k]; cbn; auto.
Qed.

Lemma length_accumulate (forces : ndarray) (ps : list (nat * nat))
    (pairforces : ndarray) :
  length (accumulate forces ps pairforces) = length forces.
Proof.
  unfold accumulate. revert forces.
  induction (combine ps pairforces) as [|[[i j] pf] l IH]; intros forces;
    cbn [fold_left]; [reflexivity|].
  rewrite IH, !length_upd. reflexivity.
Qed.

Lemma gradient_length (self : MDSimulation) (c : ndarray) (PE : R)
    (gradient : ndarray) :
  compute_energy_and_gradient self c = Ok (PE, gradient) ->
  length gradient = natoms self.
Proof.
  assert (Hc : compute_energy_and_gradient_cutoff self c = Ok (PE, gradient) ->
               length gradient = natoms self).
  { unfold compute_energy_and_gradient_cutoff. intros H.
    apply bind_Ok in H as [dR [_ H]]. apply bind_Ok in H as [pp [_ H]].
    injection H as _ <-. now rewrite length_accumulate, repeat_length. }
  unfold compute_energy_and_gradient.
  destruct (window self) as [w|]; [|exact Hc].
  destruct (Req_dec_T w 0); [exact Hc|].
  unfold compute_energy_and_gradient_switch. intros H.
  apply bind_Ok in H as [denom [_ H]].
  apply bind_Ok in H as [dR [_ H]]. apply bind_Ok in H as [pp [_ H]].
  injection H as _ <-. now rewrite length_accumulate, repeat_length.
Qed.

Lemma verlet_length (self : MDSimulation) (c p g : ndarray) (n : nat) :
  length c = n -> length p = n -> length g = n ->
  length (verlet self c p g) = n.
Proof.
  intros Hc Hp Hg. unfold verlet, arr_add, arr_sub, arr_scale.
  repeat (rewrite length_map2 || rewrite length_map). lia.
Qed.

Lemma nth_error_in_range {A : Type} (l : list A) (k : nat) :
  (k < length l)%nat -> exists a, nth_error l k = Some a.
Proof.
  intros H. destruct (nth_error l k) as [a|] eqn:E; [now exists a|].
  apply nth_error_None in E. lia.
Qed.

Lemma verlet_involution (self : MDSimulation) (c p g : ndarray) :
  length c = length g -> length p = length g ->
  verlet self c (verlet self c p g) g = p.
Proof.
  intros Hc Hp. apply nth_error_ext. intros k.
  pose proof (verlet_length self c p g (length g) Hc Hp eq_refl) as Hlen.
  destruct (Nat.lt_ge_cases k (length g)) as [Hk|Hk].
  - destruct (nth_error_in_range c k) as [ck Hck]; [lia|].
    destruct (nth_error_in_range p k) as [pk Hpk]; [lia|].
    destruct (nth_error_in_range g k) as [gk Hgk]; [lia|].
    pose proof (verlet_nth self c p g k ck pk gk Hck Hpk Hgk) as Hn.
    rewrite (verlet_nth self c _ g k ck _ gk Hck Hn Hgk), Hpk.
    cbn [fst snd]. destruct pk as [px py]. cbn [fst snd].
    apply f_equal. apply f_equal2; ring.
  - transitivity (@None vec).
    + apply nth_error_None.
      rewrite (verlet_length self c _ g (length g)); auto.
    + symmetry. apply nth_error_None. lia.
Qed.

Lemma arr_div_Ok_length (a b v : ndarray) (c : R) :
  arr_div a c = Ok v -> length b = length a ->
  exists v', arr_div b c = Ok v'.
Proof.
  intros Hv Hlen. destruct (Req_dec_T c 0) as [E|Hc].
  - destruct a as [|x a].
    + destruct b; [|discriminate]. now exists [].
    + exfalso. unfold arr_div in Hv. cbn in Hv. unfold np_div in Hv.
      destruct (Req_dec_T c 0); [discriminate | contradiction].
  - eexists. now apply arr_div_Ok.
Qed.

Lemma verlet_step_reverse (self : MDSimulation) (c p new c' : ndarray) :
  length c = natoms self -> length p = natoms self ->
  verlet_step self (c, p) = Ok (new, c') ->
  c' = c /\ length new = natoms self /\ verlet_step self (c, new) = Ok (p, c).
Proof.
  intros Hc Hp H. unfold verlet_step in *. cbn [fst snd] in *.
  apply bind_Ok in H as [[PE g] [Heval H]].
  apply bind_Ok in H as [v [Hv H]]. injection H as <- <-.
  pose proof (gradient_length self c PE g Heval) as Hg.
  pose proof (verlet_length self c p g _ Hc Hp Hg) as Hnew.
  split; [reflexivity|]. split; [exact Hnew|].
  rewrite Heval. cbn [bind].
  rewrite verlet_involution by congruence.
  destruct (arr_div_Ok_length _ (arr_sub p (verlet self c p g)) _ _ Hv) as [v' Hv'].
  { unfold arr_sub. rewrite !length_map2. lia. }
  rewrite Hv'. reflexivity.
Qed.

Lemma verlet_run_snoc (k : nat) (self : MDSimulation) (cp : ndarray * ndarray) :
  verlet_run (S k) self cp = bind (verlet_run k self cp) (verlet_step self).
Proof.
  revert cp. induction k as [|k IH]; intros cp.
  - cbn. destruct (verlet_step self cp); reflexivity.
  - change (verlet_run (S (S k)) self cp)
      with (bind (verlet_step self cp) (verlet_run (S k) self)).
    change (verlet_run (S k) self cp)
      with (bind (verlet_step self cp) (verlet_run k self)).
    destruct (verlet_step self cp) as [cp'| |]; cbn [bind]; [apply IH | | ];
      reflexivity.
Qed.

Lemma verlet_run_reverse (k : nat) (self : MDSimulation) (c p ck pk : ndarray) :
  length c = natoms self -> length p = natoms self ->
  verlet_run k self (c, p) = Ok (ck, pk) ->
  length ck = natoms self /\ length pk = natoms self /\
  verlet_run k self (pk, ck) = Ok (p, c).
Proof.
  revert c p. induction k as [|k IH]; intros c p Hc Hp H.
  - cbn in H. injection H as <- <-. auto.
  - cbn [verlet_run] in H. apply bind_Ok in H as [[new c'] [Hstep Hrun]].
    destruct (verlet_step_reverse self c p new c' Hc Hp Hstep)
      as (-> & Hnew & Hback).
    destruct (IH new c Hnew Hc Hrun) as (Hck & Hpk & Hrev).
    split; [exact Hck|]. split; [exact Hpk|].
    rewrite verlet_run_snoc, Hrev. exact Hback.
Qed.

Lemma verlet_step_setup (a b : MDSimulation) (cp : ndarray * ndarray) :
  setup a = setup b -> verlet_step a cp = verlet_step b cp.
Proof.
  intros H. change (verlet_step (setup a) cp = verlet_step (setup b) cp).
  now rewrite H.
Qed.

Lemma verlet_run_setup (k : nat) (a b : MDSimulation) (cp : ndarray * ndarray) :
  setup a = setup b -> verlet_run k a cp = verlet_run k b cp.
Proof.
  intros H. revert cp. induction k as [|k IH]; intros cp; [reflexivity|].
  cbn [verlet_run]. rewrite (verlet_step_setup a b cp H).
  destruct (verlet_step b cp); cbn [bind]; auto.
Qed.

Lemma propagate_arrays (self self' : MDSimulation) (h h' : heap) :
  propagate self h = Ok (self', h') ->
  verlet_step self (arrays self h) = Ok (arrays self' h') /\
  setup self' = setup self.
Proof.
  intros H. apply propagate_Ok in H as (PE & g & v & Heval & Hv & -> & ->).
  unfold verlet_step, arrays. cbn [fst snd coords last_coords stepped].
  rewrite Heval. cbn [bind]. rewrite Hv. cbn [bind].
  destruct (deref_after_step h (deref h (coords self))
              (verlet self (deref h (coords self)) (deref h (last_coords self)) g)
              (apply_periodicity self
                 (verlet self (deref h (coords self))
                    (deref h (last_coords self)) g)))
    as (Hd0 & Hd1 & _ & _).
  rewrite Hd0, Hd1. split; reflexivity.
Qed.

Lemma verlet_step_propagate (self : MDSimulation) (h : heap)
    (cp' : ndarray * ndarray) :
  verlet_step self (arrays self h) = Ok cp' ->
  exists self' h',
    propagate self h = Ok (self', h') /\ arrays self' h' = cp' /\
    setup self' = setup self.
Proof.
  intros H. pose proof H as H0. unfold verlet_step, arrays in H0.
  cbn [fst snd] in H0.
  apply bind_Ok in H0 as [[PE g] [Heval H0]].
  apply bind_Ok in H0 as [v [Hv _]].
  pose proof (propagate_eq self h PE g v Heval Hv) as Hp.
  eexists _, _. split; [exact Hp|].
  destruct (propagate_arrays _ _ _ _ Hp) as [Ha Hs].
  split; [congruence | exact Hs].
Qed.

Lemma run_arrays (k : nat) (self self' : MDSimulation) (h h' : heap) :
  run k self h = Ok (self', h') ->
  verlet_run k self (arrays self h) = Ok (arrays self' h') /\
  setup self' = setup self.
Proof.
  revert self h. induction k as [|k IH]; intros self h H.
  - cbn in H. injection H as <- <-. split; reflexivity.
  - cbn [run] in H. apply bind_Ok in H as [[s1 h1] [Hp Hrun]].
    destruct (propagate_arrays _ _ _ _ Hp) as [Hstep Hs1].
    destruct (IH _ _ Hrun) as [Hk Hs'].
    cbn [verlet_run]. rewrite Hstep. cbn [bind].
    rewrite <- (verlet_run_setup k s1 self _ Hs1). split; congruence.
Qed.

Lemma verlet_run_run (k : nat) (self : MDSimulation) (h : heap)
    (cp' : ndarray * ndarray) :
  verlet_run k self (arrays self h) = Ok cp' ->
  exists self' h', run k self h = Ok (self', h') /\ arrays self' h' = cp'.
Proof.
  revert self h. induction k as [|k IH]; intros self h H.
  - cbn in H. injection H as <-. now exists self, h.
  - cbn [verlet_run] in H. apply bind_Ok in H as [cp1 [Hstep Hrun]].
    destruct (verlet_step_propagate self h cp1 Hstep)
      as (s1 & h1 & Hp & Ha & Hs).
    rewrite <- Ha, <- (verlet_run_setup k s1 self _ Hs) in Hrun.
    destruct (IH s1 h1 Hrun) as (s' & h' & Hr & Ha').
    exists s', h'. cbn [run]. rewrite Hp. cbn [bind]. auto.
Qed.

(** C7.  Time symmetry.  If K steps take the history (current, previous)
    to the history of a later object, then from that object with the two
    roles exchanged K steps return, with as current positions the starting
    previous ones and as previous positions the starting current ones.
    K = 1: a step from (previous, current) to (current, next) is undone by
    a step from (next, current), which gives (current, previous). *)
Theorem time_reversal (K : nat) (self selfK : MDSimulation) (h hK : heap) :
  length (deref h (coords self)) = natoms self ->
  length (deref h (last_coords self)) = natoms self ->
  run K self h = Ok (selfK, hK) ->
  exists (self' : MDSimulation) (h' : heap),
    run K (reversed selfK) hK = Ok (self', h') /\
    deref h' (coords self') = deref h (last_coords self) /\
    deref h' (last_coords self') = deref h (coords self).
Proof.
  intros Hc Hp Hrun.
  destruct (run_arrays K self selfK h hK Hrun) as [Hfwd Hs].
  unfold arrays in Hfwd.
  destruct (verlet_run_reverse K self _ _ _ _ Hc Hp Hfwd) as (_ & _ & Hback).
  assert (Hrev : verlet_run K (reversed selfK) (arrays (reversed selfK) hK) =
                 Ok (deref h (last_coords self), deref h (coords self))).
  { rewrite (verlet_run_setup K (reversed selfK) self); [exact Hback|].
    rewrite <- Hs. reflexivity. }
  destruct (verlet_run_run K (reversed selfK) hK _ Hrev) as (s' & h' & Hr & Ha).
  exists s', h'. unfold arrays in Ha. injection Ha as Ha1 Ha2. auto.
Qed.

(** ** Periodic images *)

Lemma np_floor_shift (x : R) (m : Z) : np_floor (x + IZR m) = np_floor x + IZR m.
Proof.
  pose proof (np_floor_bounds x) as [Hlo Hhi]. unfold np_floor in *.
  rewrite <- plus_IZR. apply np_floor_unique. rewrite plus_IZR. lra.
Qed.

Lemma wrap_shift (self : MDSimulation) (d : R) (m : Z) :
  wrap self (d + IZR m * boxlength self) = wrap self d.
Proof.
  unfold wrap, boxinv. destruct (Req_dec_T (boxlength self) 0) as [E|HL].
  - rewrite E. ring.
  - replace ((d + IZR m * boxlength self) * (1 / boxlength self) + 0.5)
      with (d * (1 / boxlength self) + 0.5 + IZR m) by (field; exact HL).
    rewrite np_floor_shift. ring.
Qed.

Lemma nth_error_upd (k i : nat) (f : vec -> vec) (a : ndarray) :
  nth_error (upd k f a) i =
    if Nat.eq_dec i k then option_map f (nth_error a i) else nth_error a i.
Proof.
  revert k i. induction a as [|v a IH]; intros [|k] [|i];
    cbn [upd nth_error option_map];
    try (destruct (Nat.eq_dec _ _); try reflexivity; lia).
  rewrite IH. destruct (Nat.eq_dec i k), (Nat.eq_dec (S i) (S k));
    try reflexivity; lia.
Qed.

Lemma pair_disp_translate (self : MDSimulation) (k : nat) (m n : Z)
    (c : ndarray) (ij : nat * nat) :
  pair_disp self (translate self k m n c) ij = pair_disp self c ij.
Proof.
  unfold pair_disp, translate. rewrite !nth_error_upd.
  destruct (nth_error c (snd ij)) as [[xj yj]|], (nth_error c (fst ij)) as [[xi yi]|];
    destruct (Nat.eq_dec (snd ij) k), (Nat.eq_dec (fst ij) k);
    cbn [option_map fst snd]; try reflexivity; apply f_equal; apply f_equal2.
  - rewrite <- (wrap_shift self (xj - xi) 0). f_equal. cbn. ring.
  - rewrite <- (wrap_shift self (yj - yi) 0). f_equal. cbn. ring.
  - rewrite <- (wrap_shift self (xj - xi) m). f_equal. ring.
  - rewrite <- (wrap_shift self (yj - yi) n). f_equal. ring.
  - rewrite <- (wrap_shift self (xj - xi) (- m)). f_equal. rewrite opp_IZR. ring.
  - rewrite <- (wrap_shift self (yj - yi) (- n)). f_equal. rewrite opp_IZR. ring.
Qed.

Lemma displacements_translate (self : MDSimulation) (k : nat) (m n : Z)
    (c : ndarray) :
  displacements self (translate self k m n c) = displacements self c.
Proof.
  rewrite !displacements_pairwise. apply mapM_ext_in.
  intros ij _. apply pair_disp_translate.
Qed.

Lemma evaluate_translate (self : MDSimulation) (k : nat) (m n : Z) (c : ndarray) :
  compute_energy_and_gradient self (translate self k m n c) =
  compute_energy_and_gradient self c.
Proof.
  unfold compute_energy_and_gradient, compute_energy_and_gradient_cutoff,
    compute_energy_and_gradient_switch.
  rewrite displacements_translate. reflexivity.
Qed.

(** C10.  After a step the stored current positions are the Verlet
    positions themselves; the wrapped positions sit in a separate array
    kept for the display, and the arrays that were in the store before the
    step are untouched.  Moving any one atom by whole box lengths along the
    two axes changes neither the energy nor the forces returned by the
    evaluator, in either mode. *)
Theorem positions_not_wrapped (self self' : MDSimulation) (h h' : heap) :
  propagate self h = Ok (self', h') ->
  (exists (PE : R) (gradient : ndarray),
     compute_energy_and_gradient self (deref h (coords self)) = Ok (PE, gradient) /\
     deref h' (coords self') =
       verlet self (deref h (coords self)) (deref h (last_coords self)) gradient) /\
  deref h' (coorddata self') = apply_periodicity self (deref h' (coords self')) /\
  coorddata self' <> coords self' /\
  coorddata self' <> last_coords self' /\
  deref h' (last_coords self') = deref h (coords self) /\
  (forall l : ref, (l < length h)%nat -> deref h' l = deref h l) /\
  (forall (c : ndarray) (k : nat) (m n : Z),
     compute_energy_and_gradient self (translate self k m n c) =
     compute_energy_and_gradient self c) /\
  (forall (c : ndarray) (k : nat) (m n : Z),
     compute_energy_and_gradient_cutoff self (translate self k m n c) =
     compute_energy_and_gradient_cutoff self c) /\
  (forall (w : R) (c : ndarray) (k : nat) (m n : Z),
     compute_energy_and_gradient_switch self w (translate self k m n c) =
     compute_energy_and_gradient_switch self w c).
Proof.
  intros H. apply propagate_Ok in H as (PE & g & v & Heval & Hv & -> & ->).
  cbn [coords last_coords coorddata stepped].
  destruct (deref_after_step h (deref h (coords self))
              (verlet self (deref h (coords self)) (deref h (last_coords self)) g)
              (apply_periodicity self
                 (verlet self (deref h (coords self))
                    (deref h (last_coords self)) g)))
    as (Hd0 & Hd1 & Hd2 & Hold).
  rewrite Hd0, Hd1, Hd2.
  split; [exists PE, g; auto|].
  split; [reflexivity|]. split; [lia|]. split; [lia|].
  split; [reflexivity|]. split; [exact Hold|].
  split; [intros; apply evaluate_translate|].
  split.
  - intros c k m n. unfold compute_energy_and_gradient_cutoff.
    now rewrite displacements_translate.
  - intros w c k m n. unfold compute_energy_and_gradient_switch.
    now rewrite displacements_translate.
Qed.

(** ** Construction *)

Lemma pairs_nonempty (self : MDSimulation) :
  (2 <= atoms_per_dim self)%nat -> pairs self <> [].
Proof.
  intros H E.
  assert (Hin : In (0, 1)%nat (pairs self)).
  { unfold pairs, range. apply combinations2_seq_In. unfold natoms.
    cbn [Nat.pow]. nia. }
  rewrite E in Hin. exact Hin.
Qed.

Lemma ValidationError_unbound :
  global_name "ValidationError" = Raise (NameError "ValidationError").
Proof. reflexivity. Qed.

(** C6.  With at least two atoms per dimension and a non-zero box length
    and mass, a construction with cutoff >= boxlength/2 stops at the
    cutoff check, before any array is made and before the evaluator is
    called, for both classes; what it raises there is the [NameError] for
    the unbound name [ValidationError], not an error object that carries
    the message about the cutoff.  A construction with cutoff < boxlength/2
    raises neither. *)
Theorem init_cutoff_check (sigma0 epsilon0 mass0 temp dt0 : R)
    (atoms_per_dim0 : nat) (boxlength0 cutoff0 : R) (window0 : option R)
    (nsteps0 : nat) (rand normal : ndarray) (h : heap) :
  (2 <= atoms_per_dim0)%nat -> boxlength0 <> 0 -> mass0 <> 0 ->
  (cutoff0 >= boxlength0 / 2 ->
     init sigma0 epsilon0 mass0 temp dt0 atoms_per_dim0 boxlength0 cutoff0
          window0 nsteps0 rand normal h
       = Raise (NameError "ValidationError")) /\
  (cutoff0 < boxlength0 / 2 ->
     forall name message : string,
       init sigma0 epsilon0 mass0 temp dt0 atoms_per_dim0 boxlength0 cutoff0
            window0 nsteps0 rand normal h
         <> Raise (NameError name) /\
       init sigma0 epsilon0 mass0 temp dt0 atoms_per_dim0 boxlength0 cutoff0
            window0 nsteps0 rand normal h
         <> Raise (Raised name message)).
Proof.
  intros Hn HL Hm. unfold init.
  match goal with |- context [pairs ?s] =>
    pose proof (pairs_nonempty s Hn) as Hps; destruct (pairs s) as [|ij ps]
  end; [contradiction|]. cbn [bind].
  unfold py_div.
  destruct (Req_dec_T boxlength0 0) as [E|_]; [contradiction|].
  destruct (Req_dec_T mass0 0) as [E|_]; [contradiction|]. cbn [bind].
  split.
  - intros Hge. destruct (Rge_dec cutoff0 (boxlength0 / 2)) as [_|Hlt];
      [|contradiction].
    unfold raise_new. rewrite ValidationError_unbound. reflexivity.
  - intros Hlt name message.
    destruct (Rge_dec cutoff0 (boxlength0 / 2)) as [Hge|_]; [lra|].
    cbn [bind]. unfold alloc.
    match goal with |- context [compute_energy_and_gradient ?s ?c] =>
      pose proof (evaluate_avoids_NameError name s c) as Hev1;
      pose proof (evaluate_avoids_Raised name message s c) as Hev2;
      destruct (compute_energy_and_gradient s c) as [[PE g]| |]
    end; cbn [bind]; cbn in Hev1, Hev2; try (split; congruence).
    destruct (Rlt_dec _ 0); cbn [bind]; split; discriminate.
Qed.

Lemma init_cutoff_check_witness :
  (1.5 >= 3 / 2 ->
     init 0.27 0.3 2 300 0.005 5 3 1.5 None 400 [] [] []
       = Raise (NameError "ValidationError")) /\
  (1.5 < 3 / 2 ->
     forall name message : string,
       init 0.27 0.3 2 300 0.005 5 3 1.5 None 400 [] [] []
         <> Raise (NameError name) /\
       init 0.27 0.3 2 300 0.005 5 3 1.5 None 400 [] [] []
         <> Raise (Raised name message)).
Proof.
  apply (init_cutoff_check 0.27 0.3 2 300 0.005 5 3 1.5 None 400 [] [] []).
  - lia.
  - lra.
  - lra.
Defined.

(** ** The statements above at the small instance *)

Lemma demo_propagate : propagate demo_sim demo_heap = Ok demo_after.
Proof.
  assert (H2dt : 2 * dt demo_sim <> 0) by (cbn [demo_sim dt]; lra).
  pose proof (propagate_eq demo_sim demo_heap 0 demo_gradient _
                demo_evaluation (arr_div_Ok _ _ H2dt)) as Hp.
  unfold demo_after. now rewrite Hp.
Qed.

Lemma demo_run : run 1 demo_sim demo_heap = Ok (fst demo_after, snd demo_after).
Proof.
  cbn [run]. rewrite demo_propagate. cbn [bind].
  destruct demo_after. reflexivity.
Qed.

Lemma cutoff_pair_contributions_witness :
  exists (dR : ndarray) (pairenergies : list R) (pairforces : ndarray),
    displacements demo_sim demo_coords = Ok dR /\
    length pairenergies = length dR /\
    length pairforces = length dR /\
    0 = Rsum pairenergies /\
    demo_gradient =
      accumulate (repeat vzero (natoms demo_sim)) (pairs demo_sim) pairforces /\
    forall (n : nat) (d : vec),
      nth_error dR n = Some d ->
      (vdot d d > cutoff2 demo_sim ->
         nth_error pairenergies n = Some 0 /\
         nth_error pairforces n = Some vzero /\
         forall (f : ndarray) (i j : nat),
           upd j (fun v => vsub v vzero) (upd i (fun v => vadd v vzero) f) = f) /\
      (vdot d d <= cutoff2 demo_sim ->
         nth_error pairenergies n =
           Some (lennard_jones (epsilon demo_sim) (2 * sigma demo_sim)
                   (sqrt (vdot d d)))).
Proof.
  apply (cutoff_pair_contributions demo_sim demo_coords 0 demo_gradient).
  exact demo_evaluation.
Defined.

Lemma switch_window_zero_witness :
  compute_energy_and_gradient demo_switch0 demo_coords =
    compute_energy_and_gradient (as_base demo_switch0) demo_coords /\
  compute_energy_and_gradient demo_switch0 demo_coords =
    compute_energy_and_gradient_cutoff demo_switch0 demo_coords /\
  compute_energy_and_gradient demo_switch0 demo_coords <> Raise ZeroDivisionError /\
  compute_energy_and_gradient_switch demo_switch0 0 demo_coords =
    Raise ZeroDivisionError.
Proof.
  apply (switch_window_zero demo_switch0 demo_coords). reflexivity.
Defined.

Lemma propagate_step_witness :
  exists (self' : MDSimulation) (h' : heap) (v : ndarray),
    propagate demo_sim demo_heap = Ok (self', h') /\
    (forall (k : nat) (c p g : vec),
       nth_error (deref demo_heap (coords demo_sim)) k = Some c ->
       nth_error (deref demo_heap (last_coords demo_sim)) k = Some p ->
       nth_error demo_gradient k = Some g ->
       exists new : vec,
         nth_error (deref h' (coords self')) k = Some new /\
         fst new =
           2 * fst c - fst p + dt demo_sim ^ 2 * (- (fst g / mass demo_sim)) /\
         snd new =
           2 * snd c - snd p + dt demo_sim ^ 2 * (- (snd g / mass demo_sim)) /\
         nth_error v k =
           Some ((fst new - fst p) / (2 * dt demo_sim),
                 (snd new - snd p) / (2 * dt demo_sim))) /\
    length v = length (deref h' (coords self')) /\
    deref h' (last_coords self') = deref demo_heap (coords demo_sim) /\
    timestep self' = timestep demo_sim + dt demo_sim /\
    timeseries self' = timeseries demo_sim ++ [timestep self'] /\
    PEs self' = PEs demo_sim ++ [0] /\
    KEs self' = KEs demo_sim ++ [1 / 2 * mass demo_sim * sum_square v] /\
    TEs self' = TEs demo_sim ++ [0 + 1 / 2 * mass demo_sim * sum_square v].
Proof.
  apply (propagate_step demo_sim demo_heap 0 demo_gradient).
  - exact demo_evaluation.
  - cbn [demo_sim dt]. lra.
Defined.

Lemma time_reversal_witness :
  exists (self' : MDSimulation) (h' : heap),
    run 1 (reversed (fst demo_after)) (snd demo_after) = Ok (self', h') /\
    deref h' (coords self') = deref demo_heap (last_coords demo_sim) /\
    deref h' (last_coords self') = deref demo_heap (coords demo_sim).
Proof.
  apply (time_reversal 1 demo_sim (fst demo_after) demo_heap (snd demo_after)).
  - reflexivity.
  - reflexivity.
  - exact demo_run.
Defined.

Lemma positions_not_wrapped_witness :
  (exists (PE : R) (gradient : ndarray),
     compute_energy_and_gradient demo_sim (deref demo_heap (coords demo_sim))
       = Ok (PE, gradient) /\
     deref (snd demo_after) (coords (fst demo_after)) =
       verlet demo_sim (deref demo_heap (coords demo_sim))
         (deref demo_heap (last_coords demo_sim)) gradient) /\
  deref (snd demo_after) (coorddata (fst demo_after)) =
    apply_periodicity demo_sim (deref (snd demo_after) (coords (fst demo_after))) /\
  coorddata (fst demo_after) <> coords (fst demo_after) /\
  coorddata (fst demo_after) <> last_coords (fst demo_after) /\
  deref (snd demo_after) (last_coords (fst demo_after)) =
    deref demo_heap (coords demo_sim) /\
  (forall l : ref, (l < length demo_heap)%nat ->
     deref (snd demo_after) l = deref demo_heap l) /\
  (forall (c : ndarray) (k : nat) (m n : Z),
     compute_energy_and_gradient demo_sim (translate demo_sim k m n c) =
     compute_energy_and_gradient demo_sim c) /\
  (forall (c : ndarray) (k : nat) (m n : Z),
     compute_energy_and_gradient_cutoff demo_sim (translate demo_sim k m n c) =
     compute_energy_and_gradient_cutoff demo_sim c) /\
  (forall (w : R) (c : ndarray) (k : nat) (m n : Z),
     compute_energy_and_gradient_switch demo_sim w (translate demo_sim k m n c) =
     compute_energy_and_gradient_switch demo_sim w c).
Proof.
  apply (positions_not_wrapped demo_sim (fst demo_after) demo_heap (snd demo_after)).
  rewrite demo_propagate. destruct demo_after. reflexivity.
Defined.

(** ** Derivatives *)

Lemma dl_eq (f : R -> R) (x l l' : R) :
  derivable_pt_lim f x l -> l = l' -> derivable_pt_lim f x l'.
Proof. now intros H <-. Qed.

Lemma dl_const (c x : R) : derivable_pt_lim (fun _ => c) x 0.
Proof. exact (derivable_pt_lim_const c x). Qed.

Lemma dl_id (x : R) : derivable_pt_lim (fun y => y) x 1.
Proof. exact (derivable_pt_lim_id x). Qed.

Lemma dl_plus (f g : R -> R) (x lf lg : R) :
  derivable_pt_lim f x lf -> derivable_pt_lim g x lg ->
  derivable_pt_lim (fun y => f y + g y) x (lf + lg).
Proof. exact (derivable_pt_lim_plus f g x lf lg). Qed.

Lemma dl_minus (f g : R -> R) (x lf lg : R) :
  derivable_pt_lim f x lf -> derivable_pt_lim g x lg ->
  derivable_pt_lim (fun y => f y - g y) x (lf - lg).
Proof. exact (derivable_pt_lim_minus f g x lf lg). Qed.

Lemma dl_mult (f g : R -> R) (x lf lg : R) :
  derivable_pt_lim f x lf -> derivable_pt_lim g x lg ->
  derivable_pt_lim (fun y => f y * g y) x (lf * g x + f x * lg).
Proof. exact (derivable_pt_lim_mult f g x lf lg). Qed.

Lemma dl_div (f g : R -> R) (x lf lg : R) :
  derivable_pt_lim f x lf -> derivable_pt_lim g x lg -> g x <> 0 ->
  derivable_pt_lim (fun y => f y / g y) x ((lf * g x - lg * f x) / (g x)²).
Proof. exact (derivable_pt_lim_div f g x lf lg). Qed.

Lemma dl_comp (f g : R -> R) (x lf lg : R) :
  derivable_pt_lim f x lf -> derivable_pt_lim g (f x) lg ->
  derivable_pt_lim (fun y => g (f y)) x (lg * lf).
Proof. exact (derivable_pt_lim_comp f g x lf lg). Qed.

Lemma dl_pow (f : R -> R) (n : nat) (x lf : R) :
  derivable_pt_lim f x lf ->
  derivable_pt_lim (fun y => f y ^ n) x (INR n * f x ^ pred n * lf).
Proof.
  intros H. apply (dl_comp f (fun y => y ^ n) x lf _ H).
  apply derivable_pt_lim_pow.
Qed.

Ltac dl :=
  repeat first
    [ apply dl_const | apply dl_id | eapply dl_minus | eapply dl_pow
    | eapply dl_div | eapply dl_plus | eapply dl_mult ].

(** A derivative depends only on the function near the point; more
    generally the function may follow either of two functions that agree
    at the point in value and derivative. *)
Lemma dl_glue (f g1 g2 : R -> R) (x l delta : R) :
  0 < delta ->
  (forall y, Rabs (y - x) < delta -> f y = g1 y \/ f y = g2 y) ->
  f x = g1 x -> f x = g2 x ->
  derivable_pt_lim g1 x l -> derivable_pt_lim g2 x l ->
  derivable_pt_lim f x l.
Proof.
  intros Hd Hloc H1 H2 D1 D2 eps Heps.
  destruct (D1 eps Heps) as [d1 Hd1]. destruct (D2 eps Heps) as [d2 Hd2].
  assert (Hm : 0 < Rmin delta (Rmin d1 d2)).
  { repeat apply Rmin_glb_lt; auto; apply cond_pos. }
  exists (mkposreal _ Hm). cbn. intros h Hh Hlt.
  assert (Hlt0 : Rabs h < delta) by (eapply Rlt_le_trans; [exact Hlt | apply Rmin_l]).
  assert (Hlt12 : Rabs h < Rmin d1 d2) by (eapply Rlt_le_trans; [exact Hlt | apply Rmin_r]).
  assert (Hlt1 : Rabs h < d1) by (eapply Rlt_le_trans; [exact Hlt12 | apply Rmin_l]).
  assert (Hlt2 : Rabs h < d2) by (eapply Rlt_le_trans; [exact Hlt12 | apply Rmin_r]).
  assert (Hnear : Rabs (x + h - x) < delta).
  { replace (x + h - x) with h by ring. exact Hlt0. }
  destruct (Hloc (x + h) Hnear) as [E|E].
  - rewrite E. rewrite H1. apply Hd1; assumption.
  - rewrite E. rewrite H2. apply Hd2; assumption.
Qed.

Lemma dl_local (f g : R -> R) (x l delta : R) :
  0 < delta ->
  (forall y, Rabs (y - x) < delta -> f y = g y) ->
  derivable_pt_lim g x l -> derivable_pt_lim f x l.
Proof.
  intros Hd Hloc D.
  assert (Hx : f x = g x).
  { apply Hloc. replace (x - x) with 0 by ring. now rewrite Rabs_R0. }
  apply (dl_glue f g g x l delta Hd); auto.
Qed.

(** ** The radial form of the pair terms *)

Lemma pair_cutoff_radial (self : MDSimulation) (d : vec) :
  vdot d d <> 0 ->
  pair_cutoff self d =
    Ok (energy_cutoff self (vdot d d), vscale (factor_cutoff self (vdot d d)) d).
Proof.
  intros H. unfold pair_cutoff, energy_cutoff, factor_cutoff, np_div.
  destruct (Rgt_dec (vdot d d) (cutoff2 self)); [reflexivity|].
  destruct (Req_dec_T (vdot d d) 0); [contradiction | reflexivity].
Qed.

Lemma pair_switch_radial (self : MDSimulation) (ron2 roff2 denom : R) (d : vec) :
  vdot d d <> 0 ->
  pair_switch self ron2 roff2 denom d =
    Ok (energy_switch self ron2 roff2 denom (vdot d d),
        vscale (factor_switch self ron2 roff2 denom (vdot d d)) d).
Proof.
  intros H. unfold pair_switch, energy_switch, factor_switch, np_div.
  destruct (Req_dec_T (vdot d d) 0); [contradiction | reflexivity].
Qed.

Lemma pair_switch_coincident (self : MDSimulation) (ron2 roff2 denom : R) (d : vec) :
  vdot d d = 0 -> pair_switch self ron2 roff2 denom d = NonFinite.
Proof.
  intros H. unfold pair_switch, np_div.
  destruct (Req_dec_T (vdot d d) 0); [reflexivity | contradiction].
Qed.

(** ** Derivatives with respect to r2 *)

Lemma energy_unswitched_deriv (self : MDSimulation) (r2 : R) :
  r2 <> 0 ->
  derivable_pt_lim (energy_unswitched self) r2
    (- 3 * (1 / r2) *
       (2 * (foureps self * (sig2 self * (1 / r2)) ^ 6)
        - foureps self * (sig2 self * (1 / r2)) ^ 3)).
Proof.
  intros H. unfold energy_unswitched.
  eapply dl_eq; [dl; exact H | cbn; unfold Rsqr; field; exact H].
Qed.

Lemma energy_cutoff_deriv (self : MDSimulation) (r2 : R) :
  r2 <> 0 -> r2 <> cutoff2 self ->
  derivable_pt_lim (energy_cutoff self) r2 (- factor_cutoff self r2 / 2).
Proof.
  intros H0 Hc. destruct (Rgt_dec r2 (cutoff2 self)) as [Hgt|Hle].
  - apply (dl_local _ (fun _ => 0) r2 _ (r2 - cutoff2 self)); [lra| |].
    + intros y Hy. apply Rabs_def2 in Hy. unfold energy_cutoff.
      destruct (Rgt_dec y (cutoff2 self)); [ring | lra].
    + eapply dl_eq; [apply dl_const|]. unfold factor_cutoff.
      destruct (Rgt_dec r2 (cutoff2 self)); [field | contradiction].
  - apply (dl_local _ (energy_unswitched self) r2 _ (cutoff2 self - r2)); [lra| |].
    + intros y Hy. apply Rabs_def2 in Hy. unfold energy_cutoff, energy_unswitched.
      destruct (Rgt_dec y (cutoff2 self)); [lra | reflexivity].
    + eapply dl_eq; [apply energy_unswitched_deriv; exact H0|].
      unfold factor_cutoff.
      destruct (Rgt_dec r2 (cutoff2 self)); [contradiction|]. field. exact H0.
Qed.

(** The switching polynomial and its derivative. *)
Lemma switch_poly_deriv (ron2 roff2 denom r2 : R) :
  derivable_pt_lim
    (fun y => (roff2 + 2 * y - 3 * ron2) * (roff2 - y) ^ 2 * denom) r2
    (- (-12 * (r2 - roff2) * (r2 - ron2) * denom) / 2).
Proof. eapply dl_eq; [dl | cbn; field]. Qed.

Lemma switch_fn_deriv (self : MDSimulation) (ron2 denom r2 : R) :
  (ron2 < cutoff2 self /\ denom = 1 / (cutoff2 self - ron2) ^ 3) \/
  (cutoff2 self <= ron2 /\ r2 <> cutoff2 self) ->
  derivable_pt_lim (switch_fn self ron2 (cutoff2 self) denom) r2
    (- dswitch_fn self ron2 (cutoff2 self) denom r2 / 2).
Proof.
  set (roff2 := cutoff2 self).
  set (P := fun y => (roff2 + 2 * y - 3 * ron2) * (roff2 - y) ^ 2 * denom).
  assert (HP : forall y, derivable_pt_lim P y
                 (- (-12 * (y - roff2) * (y - ron2) * denom) / 2))
    by (intros y; apply switch_poly_deriv).
  assert (Hzero : forall y, derivable_pt_lim (fun _ => 0) y (- 0 / 2))
    by (intros y; eapply dl_eq; [apply dl_const | field]).
  assert (Hone : forall y, derivable_pt_lim (fun _ => 1) y (- 0 / 2))
    by (intros y; eapply dl_eq; [apply dl_const | field]).
  intros [[Hlt Hden] | [Hge Hne]].
  - (* the smooth regime: ron2 < roff2 *)
    assert (Hgap : roff2 - ron2 <> 0) by lra.
    assert (HP1 : P ron2 = 1) by (unfold P; rewrite Hden; field; exact Hgap).
    assert (HP0 : P roff2 = 0) by (unfold P; ring).
    destruct (Rtotal_order r2 ron2) as [Hlo | [Heq | Hhi]].
    + (* below the window *)
      replace (dswitch_fn self ron2 roff2 denom r2) with 0.
      2:{ unfold dswitch_fn. fold roff2.
          destruct (Rgt_dec r2 roff2); [reflexivity|].
          destruct (Rgt_dec r2 ron2); [lra | reflexivity]. }
      apply (dl_local _ (fun _ => 1) r2 _ (ron2 - r2)); [lra | | apply Hone].
      intros y Hy. apply Rabs_def2 in Hy. unfold switch_fn. fold roff2.
      destruct (Rgt_dec y roff2); [lra|].
      destruct (Rgt_dec y ron2); [lra | reflexivity].
    + (* where the window starts *)
      subst r2.
      replace (dswitch_fn self ron2 roff2 denom ron2) with 0.
      2:{ unfold dswitch_fn. fold roff2.
          destruct (Rgt_dec ron2 roff2); [reflexivity|].
          destruct (Rgt_dec ron2 ron2); [lra | reflexivity]. }
      apply (dl_glue _ (fun _ => 1) P ron2 _ (roff2 - ron2)); [lra | | | | apply Hone |].
      * intros y Hy. apply Rabs_def2 in Hy. unfold switch_fn. fold roff2.
        destruct (Rgt_dec y roff2); [lra|].
        destruct (Rgt_dec y ron2); [right | left]; reflexivity.
      * unfold switch_fn. fold roff2.
        destruct (Rgt_dec ron2 roff2); [lra|].
        destruct (Rgt_dec ron2 ron2); [lra | reflexivity].
      * unfold switch_fn. fold roff2.
        destruct (Rgt_dec ron2 roff2); [lra|].
        destruct (Rgt_dec ron2 ron2); [lra | now rewrite HP1].
      * eapply dl_eq; [apply HP | field].
    + destruct (Rtotal_order r2 roff2) as [Hin | [Heq | Hout]].
      * (* inside the window *)
        replace (dswitch_fn self ron2 roff2 denom r2)
          with (-12 * (r2 - roff2) * (r2 - ron2) * denom).
        2:{ unfold dswitch_fn. fold roff2.
            destruct (Rgt_dec r2 roff2); [lra|].
            destruct (Rgt_dec r2 ron2); [reflexivity | lra]. }
        apply (dl_local _ P r2 _ (Rmin (r2 - ron2) (roff2 - r2)));
          [apply Rmin_glb_lt; lra | | apply HP].
        intros y Hy.
        assert (Rabs (y - r2) < r2 - ron2)
          by (eapply Rlt_le_trans; [exact Hy | apply Rmin_l]).
        assert (Rabs (y - r2) < roff2 - r2)
          by (eapply Rlt_le_trans; [exact Hy | apply Rmin_r]).
        repeat match goal with H : Rabs _ < _ |- _ => apply Rabs_def2 in H end.
        unfold switch_fn. fold roff2.
        destruct (Rgt_dec y roff2); [lra|].
        destruct (Rgt_dec y ron2); [reflexivity | lra].
      * (* at the cutoff *)
        subst r2.
        replace (dswitch_fn self ron2 roff2 denom roff2) with 0.
        2:{ unfold dswitch_fn. fold roff2.
            destruct (Rgt_dec roff2 roff2); [reflexivity|].
            destruct (Rgt_dec roff2 ron2); [ring | reflexivity]. }
        apply (dl_glue _ P (fun _ => 0) roff2 _ (roff2 - ron2)); [lra | | | | | apply Hzero].
        -- intros y Hy. apply Rabs_def2 in Hy. unfold switch_fn. fold roff2.
           destruct (Rgt_dec y roff2); [now right|].
           destruct (Rgt_dec y ron2); [now left | lra].
        -- unfold switch_fn. fold roff2.
           destruct (Rgt_dec roff2 roff2); [lra|].
           destruct (Rgt_dec roff2 ron2); [reflexivity | lra].
        -- unfold switch_fn. fold roff2.
           destruct (Rgt_dec roff2 roff2); [lra|].
           destruct (Rgt_dec roff2 ron2); [exact HP0 | lra].
        -- eapply dl_eq; [apply HP | field].
      * (* beyond the cutoff *)
        replace (dswitch_fn self ron2 roff2 denom r2) with 0.
        2:{ unfold dswitch_fn. fold roff2.
            destruct (Rgt_dec r2 roff2); [reflexivity | lra]. }
        apply (dl_local _ (fun _ => 0) r2 _ (r2 - roff2)); [lra | | apply Hzero].
        intros y Hy. apply Rabs_def2 in Hy. unfold switch_fn. fold roff2.
        destruct (Rgt_dec y roff2); [reflexivity | lra].
  - (* a window wider than twice the cutoff: a plain step at the cutoff *)
    replace (dswitch_fn self ron2 roff2 denom r2) with 0.
    2:{ unfold dswitch_fn. fold roff2.
        destruct (Rgt_dec r2 roff2); [reflexivity|].
        destruct (Rgt_dec r2 ron2); [lra | reflexivity]. }
    destruct (Rtotal_order r2 roff2) as [Hin | [Heq | Hout]]; [| contradiction |].
    + apply (dl_local _ (fun _ => 1) r2 _ (roff2 - r2)); [lra | | apply Hone].
      intros y Hy. apply Rabs_def2 in Hy. unfold switch_fn. fold roff2.
      destruct (Rgt_dec y roff2); [lra|].
      destruct (Rgt_dec y ron2); [lra | reflexivity].
    + apply (dl_local _ (fun _ => 0) r2 _ (r2 - roff2)); [lra | | apply Hzero].
      intros y Hy. apply Rabs_def2 in Hy. unfold switch_fn. fold roff2.
      destruct (Rgt_dec y roff2); [reflexivity | lra].
Qed.

Lemma energy_switch_deriv (self : MDSimulation) (ron2 denom r2 : R) :
  r2 <> 0 ->
  (ron2 < cutoff2 self /\ denom = 1 / (cutoff2 self - ron2) ^ 3) \/
  (cutoff2 self <= ron2 /\ r2 <> cutoff2 self) ->
  derivable_pt_lim (energy_switch self ron2 (cutoff2 self) denom) r2
    (- factor_switch self ron2 (cutoff2 self) denom r2 / 2).
Proof.
  intros H0 Hreg.
  pose proof (switch_fn_deriv self ron2 denom r2 Hreg) as HS.
  pose proof (energy_unswitched_deriv self r2 H0) as HU.
  eapply dl_eq.
  - exact (dl_mult _ _ _ _ _ HS HU).
  - unfold factor_switch, energy_unswitched. cbn. field. exact H0.
Qed.

(** ** The minimum image near a point *)

Lemma np_floor_local (x : R) :
  x <> np_floor x ->
  exists delta, 0 < delta /\
    forall y, Rabs (y - x) < delta -> np_floor y = np_floor x.
Proof.
  intros Hx. pose proof (np_floor_bounds x) as [Hlo Hhi].
  exists (Rmin (x - np_floor x) (np_floor x + 1 - x)). split.
  - apply Rmin_glb_lt; lra.
  - intros y Hy.
    assert (H1 : Rabs (y - x) < x - np_floor x)
      by (eapply Rlt_le_trans; [exact Hy | apply Rmin_l]).
    assert (H2 : Rabs (y - x) < np_floor x + 1 - x)
      by (eapply Rlt_le_trans; [exact Hy | apply Rmin_r]).
    apply Rabs_def2 in H1, H2. unfold np_floor in *.
    apply np_floor_unique. lra.
Qed.

Lemma wrap_local (self : MDSimulation) (x0 : R) :
  off_boundary self x0 ->
  exists delta, 0 < delta /\
    forall x, Rabs (x - x0) < delta -> wrap self x = x + (wrap self x0 - x0).
Proof.
  unfold off_boundary. intros H.
  destruct (np_floor_local _ H) as (d & Hd & Hloc).
  destruct (Req_dec_T (boxinv self) 0) as [E|Hb].
  - exists 1. split; [lra|]. intros x _. unfold wrap. rewrite E.
    replace (x * 0 + 0.5) with (x0 * 0 + 0.5) by ring. ring.
  - exists (d / Rabs (boxinv self)).
    assert (Hpos : 0 < Rabs (boxinv self)) by now apply Rabs_pos_lt.
    split; [now apply Rdiv_lt_0_compat|].
    intros x Hx. unfold wrap. rewrite (Hloc (x * boxinv self + 0.5)); [ring|].
    replace (x * boxinv self + 0.5 - (x0 * boxinv self + 0.5))
      with ((x - x0) * boxinv self) by ring.
    rewrite Rabs_mult.
    apply (Rmult_lt_compat_r _ _ _ Hpos) in Hx.
    replace (d / Rabs (boxinv self) * Rabs (boxinv self)) with d in Hx
      by (field; lra).
    exact Hx.
Qed.

(** ** One pair, one coordinate *)

Lemma Rabs_sign (s : R) : s = 1 \/ s = -1 -> Rabs s = 1.
Proof.
  intros [-> | ->]; unfold Rabs; destruct (Rcase_abs _); lra.
Qed.

Lemma vdot_on_axis (a : axis) (u w : R) :
  vdot (on_axis a u w) (on_axis a u w) = u * u + w * w.
Proof. destruct a; unfold vdot; cbn; ring. Qed.

Lemma coord_on_axis (a : axis) (u w : R) : coord a (on_axis a u w) = u.
Proof. destruct a; reflexivity. Qed.

Section PairAxis.
Variables (W G : R -> R) (pf : vec -> result (R * vec)).
Hypothesis Hrad : radial W G pf.
Variable self : MDSimulation.

Lemma pair_axis_deriv (a : axis) (s c w t0 : R) :
  s = 1 \/ s = -1 ->
  off_boundary self (s * t0 + c) ->
  let d0 := on_axis a (wrap self (s * t0 + c)) w in
  vdot d0 d0 <> 0 ->
  derivable_pt_lim W (vdot d0 d0) (- G (vdot d0 d0) / 2) ->
  (exists delta, 0 < delta /\
     forall t, Rabs (t - t0) < delta ->
       exists b, pf (on_axis a (wrap self (s * t + c)) w) = Ok b) /\
  derivable_pt_lim
    (fun t => fst (pair_val (pf (on_axis a (wrap self (s * t + c)) w)))) t0
    (- s * coord a (snd (pair_val (pf d0)))).
Proof.
  intros Hs Hoff d0 Hr2 HW.
  destruct (wrap_local self (s * t0 + c) Hoff) as (d1 & Hd1 & Hwrap).
  set (kappa := wrap self (s * t0 + c) - (s * t0 + c)) in *.
  set (u := fun t => s * t + c + kappa).
  assert (Hu0 : wrap self (s * t0 + c) = u t0) by (unfold u, kappa; ring).
  assert (Hr2' : u t0 * u t0 + w * w <> 0).
  { rewrite <- Hu0, <- (vdot_on_axis a). exact Hr2. }
  assert (Hnear : forall t, Rabs (t - t0) < d1 -> wrap self (s * t + c) = u t).
  { intros t Ht. apply Hwrap.
    replace (s * t + c - (s * t0 + c)) with (s * (t - t0)) by ring.
    rewrite Rabs_mult.
    rewrite (Rabs_sign s Hs). lra. }
  (* a radius on which the squared distance stays away from zero *)
  assert (Hnz : exists d2, 0 < d2 /\
            forall t, Rabs (t - t0) < d2 -> u t * u t + w * w <> 0).
  { destruct (Req_dec_T w 0) as [Ew|Hw].
    - assert (Hut : u t0 <> 0).
      { intros E. apply Hr2'. rewrite E, Ew. ring. }
      exists (Rabs (u t0)). split; [now apply Rabs_pos_lt|].
      intros t Ht.
      assert (Hdiff : u t - u t0 = s * (t - t0)) by (unfold u; ring).
      assert (Habs : Rabs (u t - u t0) < Rabs (u t0)).
      { rewrite Hdiff, Rabs_mult.
        rewrite (Rabs_sign s Hs). lra. }
      assert (Hne : u t <> 0).
      { intros E. rewrite E in Habs.
        replace (0 - u t0) with (- u t0) in Habs by ring.
        rewrite Rabs_Ropp in Habs. lra. }
      rewrite Ew. nra.
    - exists 1. split; [lra|]. intros t _. nra. }
  destruct Hnz as (d2 & Hd2 & Hnz).
  assert (Hd : 0 < Rmin d1 d2) by (apply Rmin_glb_lt; assumption).
  assert (Hloc : forall t, Rabs (t - t0) < Rmin d1 d2 ->
            pf (on_axis a (wrap self (s * t + c)) w) =
              Ok (W (u t * u t + w * w),
                  vscale (G (u t * u t + w * w)) (on_axis a (u t) w))).
  { intros t Ht.
    assert (H1 : Rabs (t - t0) < d1)
      by (eapply Rlt_le_trans; [exact Ht | apply Rmin_l]).
    assert (H2 : Rabs (t - t0) < d2)
      by (eapply Rlt_le_trans; [exact Ht | apply Rmin_r]).
    rewrite (Hnear t H1).
    destruct (Hrad (on_axis a (u t) w)) as [Hok _].
    rewrite vdot_on_axis in Hok. apply Hok. now apply Hnz. }
  assert (H00 : Rabs (t0 - t0) < Rmin d1 d2).
  { replace (t0 - t0) with 0 by ring. now rewrite Rabs_R0. }
  split.
  - exists (Rmin d1 d2). split; [exact Hd|].
    intros t Ht. rewrite (Hloc t Ht). now eexists.
  - apply (dl_local _ (fun t => W (u t * u t + w * w)) t0 _ (Rmin d1 d2) Hd).
    + intros t Ht. now rewrite (Hloc t Ht).
    + unfold d0. rewrite (Hloc t0 H00). cbn [pair_val snd].
      unfold vscale.
      replace (coord a (G (u t0 * u t0 + w * w) * fst (on_axis a (u t0) w),
                        G (u t0 * u t0 + w * w) * snd (on_axis a (u t0) w)))
        with (G (u t0 * u t0 + w * w) * u t0) by (destruct a; reflexivity).
      unfold d0 in HW. rewrite vdot_on_axis, Hu0 in HW.
      assert (Hin : derivable_pt_lim (fun t => u t * u t + w * w) t0
                      (2 * u t0 * s))
        by (unfold u; eapply dl_eq; [dl | cbn; ring]).
      eapply dl_eq; [exact (dl_comp _ W t0 _ _ Hin HW) | field].
Qed.
End PairAxis.

(** ** All pairs *)

Lemma mapM_fused {A B C : Type} (f : A -> result B) (g : B -> result C)
    (l : list A) (x : list C) :
  bind (mapM f l) (mapM g) = Ok x <-> mapM (fun a => bind (f a) g) l = Ok x.
Proof.
  revert x. induction l as [|a l IH]; intros x.
  - cbn. tauto.
  - split; intros H.
    + apply bind_Ok in H as [bs0 [Hf Hg]]. cbn in Hf.
      apply bind_Ok in Hf as [b [Hb Hf]]. apply bind_Ok in Hf as [bs [Hbs Hf]].
      injection Hf as <-. cbn in Hg.
      apply bind_Ok in Hg as [c [Hc Hg]]. apply bind_Ok in Hg as [cs [Hcs Hg]].
      injection Hg as <-.
      cbn. rewrite Hb. cbn. rewrite Hc. cbn.
      assert (Hl : mapM (fun a => bind (f a) g) l = Ok cs).
      { apply IH. rewrite Hbs. exact Hcs. }
      now rewrite Hl.
    + cbn in H. apply bind_Ok in H as [c [Hc H]].
      apply bind_Ok in H as [cs [Hcs H]]. injection H as <-.
      apply bind_Ok in Hc as [b [Hb Hc]].
      apply IH in Hcs. apply bind_Ok in Hcs as [bs [Hbs Hcs]].
      cbn. rewrite Hb. cbn. rewrite Hbs. cbn. rewrite Hc. cbn.
      now rewrite Hcs.
Qed.

Lemma mapM_pointwise {A : Type} (f : A -> result (R * vec)) (l : list A)
    (bs : list (R * vec)) :
  mapM f l = Ok bs <->
  (forall a, In a l -> exists b, f a = Ok b) /\
  bs = map (fun a => pair_val (f a)) l.
Proof.
  revert bs. induction l as [|a l IH]; intros bs; cbn.
  - split.
    + intros H. injection H as <-. split; [intros a []|reflexivity].
    + intros [_ ->]. reflexivity.
  - split.
    + intros H. apply bind_Ok in H as [b [Hb H]].
      apply bind_Ok in H as [bs' [Hbs H]]. injection H as <-.
      apply IH in Hbs as [Hall ->]. split.
      * intros a' [<- | Hin]; [now exists b | now apply Hall].
      * now rewrite Hb.
    + intros [Hall ->].
      destruct (Hall a (or_introl eq_refl)) as [b Hb]. rewrite Hb. cbn.
      assert (Hl : mapM f l = Ok (map (fun a => pair_val (f a)) l)).
      { apply IH. split; [|reflexivity]. intros a' Hin. apply Hall. now right. }
      now rewrite Hl.
Qed.

Lemma bind_assoc {A B C : Type} (m : result A) (f : A -> result B)
    (g : B -> result C) :
  bind (bind m f) g = bind m (fun a => bind (f a) g).
Proof. destruct m; reflexivity. Qed.

Lemma evaluate_with_Ok (pf : vec -> result (R * vec)) (self : MDSimulation)
    (c : ndarray) (E : R) (F : ndarray) :
  evaluate_with pf self c = Ok (E, F) <->
  (forall ij, In ij (pairs self) -> exists b, pair_out pf self c ij = Ok b) /\
  E = Rsum (map (fun ij => fst (pair_val (pair_out pf self c ij))) (pairs self)) /\
  F = accumulate (repeat vzero (natoms self)) (pairs self)
        (map (fun ij => snd (pair_val (pair_out pf self c ij))) (pairs self)).
Proof.
  unfold evaluate_with. rewrite displacements_pairwise.
  rewrite <- (bind_assoc (mapM (pair_disp self c) (pairs self)) (mapM pf)).
  split.
  - intros H. apply bind_Ok in H as [pp [Hpp H]]. injection H as <- <-.
    apply mapM_fused in Hpp. apply mapM_pointwise in Hpp as [Hall ->].
    rewrite !map_map. auto.
  - intros (Hall & -> & ->).
    assert (Hpp : bind (mapM (pair_disp self c) (pairs self)) (mapM pf) =
                  Ok (map (fun ij => pair_val (pair_out pf self c ij)) (pairs self))).
    { apply mapM_fused. apply mapM_pointwise. auto. }
    rewrite Hpp. cbn [bind]. now rewrite !map_map.
Qed.

Lemma accumulate_nth (f : nat * nat -> vec) (ps : list (nat * nat))
    (forces : ndarray) (k : nat) (v : vec) :
  nth_error forces k = Some v ->
  nth_error (accumulate forces ps (map f ps)) k =
    Some (fold_left (fun v ij => contrib k ij (f ij) v) ps v).
Proof.
  unfold accumulate. revert forces v.
  induction ps as [|[i j] ps IH]; intros forces v Hv; cbn [map combine fold_left].
  - exact Hv.
  - apply IH. rewrite !nth_error_upd, Hv. unfold contrib. cbn [fst snd].
    destruct (Nat.eq_dec k j), (Nat.eq_dec j k), (Nat.eq_dec k i),
      (Nat.eq_dec i k); cbn [option_map]; try reflexivity; congruence.
Qed.

Lemma coord_fold_contrib (a : axis) (k : nat) (f : nat * nat -> vec)
    (ps : list (nat * nat)) (v : vec) :
  coord a (fold_left (fun v ij => contrib k ij (f ij) v) ps v) =
  coord a v + Rsum (map (fun ij => pair_slope a k ij (f ij)) ps).
Proof.
  revert v. induction ps as [|ij ps IH]; intros v; cbn [fold_left map Rsum fold_right].
  - ring.
  - fold (Rsum (map (fun ij => pair_slope a k ij (f ij)) ps)).
    rewrite IH. unfold contrib, pair_slope.
    destruct (Nat.eq_dec (fst ij) k), (Nat.eq_dec (snd ij) k);
      destruct a; unfold vadd, vsub; cbn [coord fst snd]; ring.
Qed.

Lemma uniform_delta {A : Type} (P : A -> R -> Prop) (l : list A) (t0 : R) :
  (forall a, In a l ->
     exists delta, 0 < delta /\ forall t, Rabs (t - t0) < delta -> P a t) ->
  exists delta, 0 < delta /\
    forall t, Rabs (t - t0) < delta -> forall a, In a l -> P a t.
Proof.
  induction l as [|a l IH]; intros H.
  - exists 1. split; [lra|]. intros t _ a [].
  - destruct (H a (or_introl eq_refl)) as (d1 & Hd1 & H1).
    destruct IH as (d2 & Hd2 & H2).
    { intros b Hb. apply H. now right. }
    exists (Rmin d1 d2). split; [now apply Rmin_glb_lt|].
    intros t Ht b [<- | Hb].
    + apply H1. eapply Rlt_le_trans; [exact Ht | apply Rmin_l].
    + apply H2; [|exact Hb]. eapply Rlt_le_trans; [exact Ht | apply Rmin_r].
Qed.

Lemma dl_Rsum {A : Type} (phi : A -> R -> R) (D : A -> R) (l : list A) (t0 : R) :
  (forall a, In a l -> derivable_pt_lim (phi a) t0 (D a)) ->
  derivable_pt_lim (fun t => Rsum (map (fun a => phi a t) l)) t0 (Rsum (map D l)).
Proof.
  induction l as [|a l IH]; intros H; cbn [map Rsum fold_right].
  - apply dl_const.
  - apply (dl_plus (phi a) (fun t => Rsum (map (fun a => phi a t) l))).
    + apply H. now left.
    + apply IH. intros b Hb. apply H. now right.
Qed.

(** ** One pair as one atom moves *)

Lemma disp_of_on_axis (self : MDSimulation) (a : axis) (cj ci : vec) :
  disp_of self cj ci =
    on_axis a (wrap self (coord a cj - coord a ci))
              (wrap self (coord (other a) cj - coord (other a) ci)).
Proof. destruct a; reflexivity. Qed.

Lemma coord_set_coord (a : axis) (t : R) (v : vec) :
  coord a (set_coord a t v) = t /\
  coord (other a) (set_coord a t v) = coord (other a) v.
Proof. destruct a; split; reflexivity. Qed.

Lemma set_coord_same (a : axis) (v : vec) : set_coord a (coord a v) v = v.
Proof. destruct a, v; reflexivity. Qed.

Lemma move_same (a : axis) (k : nat) (c : ndarray) (ck : vec) :
  nth_error c k = Some ck -> move a k (coord a ck) c = c.
Proof.
  intros H. apply nth_error_ext. intros n. unfold move.
  rewrite nth_error_upd. destruct (Nat.eq_dec n k) as [->|]; [|reflexivity].
  rewrite H. cbn. now rewrite set_coord_same.
Qed.

Lemma pair_disp_Ok (self : MDSimulation) (c : ndarray) (i j : nat) (d : vec) :
  pair_disp self c (i, j) = Ok d ->
  exists ci cj,
    nth_error c i = Some ci /\ nth_error c j = Some cj /\ d = disp_of self cj ci.
Proof.
  unfold pair_disp. cbn [fst snd].
  destruct (nth_error c j) as [cj|]; [|discriminate].
  destruct (nth_error c i) as [ci|]; [|discriminate].
  intros H. injection H as <-. now exists ci, cj.
Qed.

Lemma pair_disp_move (self : MDSimulation) (a : axis) (k : nat) (t : R)
    (c : ndarray) (i j : nat) (ci cj : vec) :
  nth_error c i = Some ci -> nth_error c j = Some cj ->
  pair_disp self (move a k t c) (i, j) =
    Ok (disp_of self (if Nat.eq_dec j k then set_coord a t cj else cj)
                     (if Nat.eq_dec i k then set_coord a t ci else ci)).
Proof.
  intros Hi Hj. unfold pair_disp, move. cbn [fst snd].
  rewrite !nth_error_upd, Hi, Hj.
  destruct (Nat.eq_dec j k), (Nat.eq_dec i k); reflexivity.
Qed.

Section Gradient.
Variables (W G : R -> R) (pf : vec -> result (R * vec)).
Hypothesis Hrad : radial W G pf.
Variable self : MDSimulation.
Variables (a : axis) (k : nat) (c : ndarray) (ck : vec).
Hypothesis Hck : nth_error c k = Some ck.

(** What is asked of the pairs that contain atom [k]. *)
Hypothesis Hreg :
  forall i j ci cj,
    In (i, j) (pairs self) -> i = k \/ j = k ->
    nth_error c i = Some ci -> nth_error c j = Some cj ->
    off_boundary self (coord a cj - coord a ci) /\
    derivable_pt_lim W (vdot (disp_of self cj ci) (disp_of self cj ci))
      (- G (vdot (disp_of self cj ci) (disp_of self cj ci)) / 2).

Lemma pair_out_deriv (ij : nat * nat) :
  In ij (pairs self) ->
  (exists b, pair_out pf self c ij = Ok b) ->
  (exists delta, 0 < delta /\
     forall t, Rabs (t - coord a ck) < delta ->
       exists b, pair_out pf self (move a k t c) ij = Ok b) /\
  derivable_pt_lim
    (fun t => fst (pair_val (pair_out pf self (move a k t c) ij))) (coord a ck)
    (pair_slope a k ij (snd (pair_val (pair_out pf self c ij)))).
Proof.
  destruct ij as [i j]. intros Hin [b Hb].
  assert (Hlt : (i < j)%nat).
  { unfold pairs, range in Hin. apply combinations2_seq_In in Hin. lia. }
  unfold pair_out in Hb. apply bind_Ok in Hb as [d [Hd Hpf]].
  destruct (pair_disp_Ok self c i j d Hd) as (ci & cj & Hi & Hj & ->).
  assert (Hr2 : vdot (disp_of self cj ci) (disp_of self cj ci) <> 0).
  { intros E. destruct (Hrad (disp_of self cj ci)) as [_ Hnf].
    rewrite (Hnf E) in Hpf. discriminate. }
  assert (Hout : forall t, pair_out pf self (move a k t c) (i, j) =
            pf (disp_of self (if Nat.eq_dec j k then set_coord a t cj else cj)
                        (if Nat.eq_dec i k then set_coord a t ci else ci))).
  { intros t. unfold pair_out.
    now rewrite (pair_disp_move self a k t c i j ci cj Hi Hj). }
  assert (Hout0 : pair_out pf self c (i, j) = pf (disp_of self cj ci)).
  { unfold pair_out. now rewrite Hd. }
  unfold pair_slope. cbn [fst snd]. rewrite Hout0.
  destruct (Nat.eq_dec i k) as [Eik|Nik], (Nat.eq_dec j k) as [Ejk|Njk];
    try lia.
  - (* atom k is the first of the pair *)
    subst i. assert (ci = ck) by congruence. subst ci.
    destruct (Hreg k j ck cj Hin (or_introl eq_refl) Hi Hj) as [Hoff HW].
    set (w := wrap self (coord (other a) cj - coord (other a) ck)).
    assert (Hshape : forall t,
              disp_of self cj (set_coord a t ck) =
              on_axis a (wrap self (-1 * t + coord a cj)) w).
    { intros t. rewrite (disp_of_on_axis self a).
      destruct (coord_set_coord a t ck) as [-> ->].
      unfold w. do 2 f_equal. ring. }
    assert (Hshape0 : disp_of self cj ck =
              on_axis a (wrap self (-1 * coord a ck + coord a cj)) w).
    { rewrite <- Hshape. now rewrite set_coord_same. }
    rewrite Hshape0 in Hr2, HW |- *.
    assert (Hoff' : off_boundary self (-1 * coord a ck + coord a cj)).
    { replace (-1 * coord a ck + coord a cj) with (coord a cj - coord a ck)
        by ring. exact Hoff. }
    destruct (pair_axis_deriv W G pf Hrad self a (-1) (coord a cj) w (coord a ck)
                (or_intror eq_refl) Hoff' Hr2 HW) as [Hok Hder].
    split.
    + destruct Hok as (dl & Hdl & Hok). exists dl. split; [exact Hdl|].
      intros t Ht. rewrite Hout, Hshape. now apply Hok.
    + eapply dl_eq.
      * eapply dl_local with (delta := 1); [lra | | exact Hder].
        intros t _. cbn beta. now rewrite Hout, Hshape.
      * ring.
  - (* atom k is the second of the pair *)
    subst j. assert (cj = ck) by congruence. subst cj.
    destruct (Hreg i k ci ck Hin (or_intror eq_refl) Hi Hj) as [Hoff HW].
    set (w := wrap self (coord (other a) ck - coord (other a) ci)).
    assert (Hshape : forall t,
              disp_of self (set_coord a t ck) ci =
              on_axis a (wrap self (1 * t + - coord a ci)) w).
    { intros t. rewrite (disp_of_on_axis self a).
      destruct (coord_set_coord a t ck) as [-> ->].
      unfold w. do 2 f_equal. ring. }
    assert (Hshape0 : disp_of self ck ci =
              on_axis a (wrap self (1 * coord a ck + - coord a ci)) w).
    { rewrite <- Hshape. now rewrite set_coord_same. }
    rewrite Hshape0 in Hr2, HW |- *.
    assert (Hoff' : off_boundary self (1 * coord a ck + - coord a ci)).
    { replace (1 * coord a ck + - coord a ci) with (coord a ck - coord a ci)
        by ring. exact Hoff. }
    destruct (pair_axis_deriv W G pf Hrad self a 1 (- coord a ci) w (coord a ck)
                (or_introl eq_refl) Hoff' Hr2 HW) as [Hok Hder].
    split.
    + destruct Hok as (dl & Hdl & Hok). exists dl. split; [exact Hdl|].
      intros t Ht. rewrite Hout, Hshape. now apply Hok.
    + eapply dl_eq.
      * eapply dl_local with (delta := 1); [lra | | exact Hder].
        intros t _. cbn beta. now rewrite Hout, Hshape.
      * ring.
  - (* atom k is not in the pair *)
    split.
    + exists 1. split; [lra|]. intros t _. rewrite Hout, Hpf. now eexists.
    + eapply dl_eq.
      * eapply dl_local with (delta := 1) (g := fun _ => fst (pair_val (pf (disp_of self cj ci))));
          [lra | | apply dl_const].
        intros t _. cbn beta. now rewrite Hout.
      * ring.
Qed.

Lemma gradient_axis (E : R) (F : ndarray) :
  (k < natoms self)%nat ->
  evaluate_with pf self c = Ok (E, F) ->
  exists fk,
    nth_error F k = Some fk /\
    (exists delta, 0 < delta /\
       forall t, Rabs (t - coord a ck) < delta ->
         exists E' F', evaluate_with pf self (move a k t c) = Ok (E', F')) /\
    derivable_pt_lim (fun t => energy_of (evaluate_with pf self (move a k t c)))
      (coord a ck) (coord a fk).
Proof.
  intros Hk Heval. apply evaluate_with_Ok in Heval as (Hall & -> & ->).
  set (f := fun ij => snd (pair_val (pair_out pf self c ij))).
  assert (Hz : nth_error (repeat vzero (natoms self)) k = Some vzero)
    by now apply nth_error_repeat.
  rewrite (accumulate_nth f (pairs self) _ k vzero Hz).
  eexists. split; [reflexivity|].
  rewrite coord_fold_contrib.
  replace (coord a vzero) with 0 by (destruct a; reflexivity).
  rewrite Rplus_0_l.
  destruct (uniform_delta
              (fun ij t => exists b, pair_out pf self (move a k t c) ij = Ok b)
              (pairs self) (coord a ck)) as (dl & Hdl & Hok).
  { intros ij Hin. exact (proj1 (pair_out_deriv ij Hin (Hall ij Hin))). }
  assert (Hev : forall t, Rabs (t - coord a ck) < dl ->
            exists F', evaluate_with pf self (move a k t c) =
              Ok (Rsum (map (fun ij =>
                      fst (pair_val (pair_out pf self (move a k t c) ij)))
                    (pairs self)), F')).
  { intros t Ht. eexists. apply evaluate_with_Ok. split; [|split; reflexivity].
    intros ij Hin. now apply Hok. }
  split.
  { exists dl. split; [exact Hdl|]. intros t Ht.
    destruct (Hev t Ht) as [F' HF']. eexists _, F'. exact HF'. }
  apply (dl_local _
           (fun t => Rsum (map (fun ij =>
                      fst (pair_val (pair_out pf self (move a k t c) ij)))
                    (pairs self)))
           (coord a ck) _ dl Hdl).
  - intros t Ht. destruct (Hev t Ht) as [F' ->]. reflexivity.
  - apply (dl_Rsum
             (fun ij t => fst (pair_val (pair_out pf self (move a k t c) ij)))
             (fun ij => pair_slope a k ij (f ij))).
    intros ij Hin. exact (proj2 (pair_out_deriv ij Hin (Hall ij Hin))).
Qed.
End Gradient.

(** ** The two evaluators as instances *)

Lemma radial_cutoff (self : MDSimulation) :
  radial (energy_cutoff self) (factor_cutoff self) (pair_cutoff self).
Proof.
  intros d. split.
  - apply pair_cutoff_radial.
  - apply pair_cutoff_coincident.
Qed.

Lemma radial_switch (self : MDSimulation) (ron2 roff2 denom : R) :
  radial (energy_switch self ron2 roff2 denom)
         (factor_switch self ron2 roff2 denom)
         (pair_switch self ron2 roff2 denom).
Proof.
  intros d. split.
  - apply pair_switch_radial.
  - apply pair_switch_coincident.
Qed.

Lemma Rsum_map_upd (g : vec -> R) (i : nat) (f : vec -> vec) (a : ndarray) :
  Rsum (map g (upd i f a)) =
    Rsum (map g a) +
    match nth_error a i with Some v => g (f v) - g v | None => 0 end.
Proof.
  revert i. induction a as [|v a IH]; intros [|i]; cbn [upd map Rsum fold_right nth_error].
  - ring.
  - ring.
  - ring.
  - fold (Rsum (map g (upd i f a))). fold (Rsum (map g a)). rewrite IH. ring.
Qed.

Lemma accumulate_total (forces : ndarray) (ps : list (nat * nat))
    (pairforces : ndarray) :
  (forall i j, In (i, j) ps ->
     (i < length forces)%nat /\ (j < length forces)%nat /\ i <> j) ->
  Rsum (map fst (accumulate forces ps pairforces)) = Rsum (map fst forces) /\
  Rsum (map snd (accumulate forces ps pairforces)) = Rsum (map snd forces).
Proof.
  unfold accumulate. revert pairforces forces.
  induction ps as [|[i j] ps IH]; intros pairforces forces Hin.
  - cbn. split; reflexivity.
  - destruct pairforces as [|pf pairforces]; [cbn; split; reflexivity|].
    cbn [combine fold_left].
    destruct (Hin i j (or_introl eq_refl)) as (Hi & Hj & Hij).
    destruct (nth_error_in_range forces i Hi) as [vi Hvi].
    destruct (nth_error_in_range forces j Hj) as [vj Hvj].
    destruct (IH pairforces
                (upd j (fun v => vsub v pf) (upd i (fun v => vadd v pf) forces)))
      as [Hx Hy].
    { intros i' j' H'. rewrite !length_upd. apply Hin. now right. }
    rewrite Hx, Hy. rewrite !Rsum_map_upd, !nth_error_upd, Hvi, Hvj.
    destruct (Nat.eq_dec j i) as [E|_]; [congruence|].
    unfold vadd, vsub. cbn [fst snd]. split; ring.
Qed.

Lemma Rsum_repeat_zero (g : vec -> R) (n : nat) :
  g vzero = 0 -> Rsum (map g (repeat vzero n)) = 0.
Proof.
  intros Hg. induction n as [|n IH]; cbn [repeat map Rsum fold_right]; [reflexivity|].
  fold (Rsum (map g (repeat vzero n))). rewrite IH, Hg. ring.
Qed.

Lemma pairs_in_range (self : MDSimulation) (i j : nat) :
  In (i, j) (pairs self) ->
  (i < natoms self)%nat /\ (j < natoms self)%nat /\ i <> j.
Proof.
  unfold pairs, range. intros H. apply combinations2_seq_In in H. lia.
Qed.

(** The statement about forces and energy for any radial pair routine. *)
Lemma gradient_with (W G : R -> R) (pf : vec -> result (R * vec))
    (self : MDSimulation) (coords : ndarray) (k : nat) (ck : vec)
    (energy : R) (forces : ndarray) :
  radial W G pf ->
  (k < natoms self)%nat ->
  evaluate_with pf self coords = Ok (energy, forces) ->
  nth_error coords k = Some ck ->
  (forall i j ci cj,
     In (i, j) (pairs self) -> i = k \/ j = k ->
     nth_error coords i = Some ci -> nth_error coords j = Some cj ->
     off_boundary self (fst cj - fst ci) /\
     off_boundary self (snd cj - snd ci) /\
     (vdot (disp_of self cj ci) (disp_of self cj ci) <> 0 ->
      derivable_pt_lim W (vdot (disp_of self cj ci) (disp_of self cj ci))
        (- G (vdot (disp_of self cj ci) (disp_of self cj ci)) / 2))) ->
  gradient_at (evaluate_with pf self) self coords k ck forces.
Proof.
  intros Hrad Hk Heval Hck Hreg.
  pose proof Heval as Heval0.
  apply evaluate_with_Ok in Heval0 as (Hall & _ & HF).
  assert (Hr2 : forall i j ci cj,
            In (i, j) (pairs self) ->
            nth_error coords i = Some ci -> nth_error coords j = Some cj ->
            vdot (disp_of self cj ci) (disp_of self cj ci) <> 0).
  { intros i j ci cj Hin Hi Hj E.
    destruct (Hall (i, j) Hin) as [b Hb]. unfold pair_out, pair_disp in Hb.
    cbn [fst snd] in Hb. rewrite Hj, Hi in Hb. cbn [bind] in Hb.
    destruct (Hrad (disp_of self cj ci)) as [_ Hnf].
    unfold disp_of in Hnf, E. rewrite (Hnf E) in Hb. discriminate. }
  destruct (gradient_axis W G pf Hrad self X k coords ck Hck) with (E := energy)
    (F := forces) as (fx & Hfx & Hlx & Hdx); auto.
  { intros i j ci cj Hin Hor Hi Hj.
    destruct (Hreg i j ci cj Hin Hor Hi Hj) as (Hox & _ & HW).
    split; [exact Hox | apply HW; now apply (Hr2 i j)]. }
  destruct (gradient_axis W G pf Hrad self Y k coords ck Hck) with (E := energy)
    (F := forces) as (fy & Hfy & Hly & Hdy); auto.
  { intros i j ci cj Hin Hor Hi Hj.
    destruct (Hreg i j ci cj Hin Hor Hi Hj) as (_ & Hoy & HW).
    split; [exact Hoy | apply HW; now apply (Hr2 i j)]. }
  assert (fy = fx) by congruence. subst fy.
  set (f := fun ij => snd (pair_val (pair_out pf self coords ij))) in *.
  exists fx, f. split; [exact Hfx|].
  split; [split; [exact Hlx | exact Hdx]|].
  split; [split; [exact Hly | exact Hdy]|].
  split; [exact HF|]. split.
  - assert (Hz : nth_error (repeat vzero (natoms self)) k = Some vzero)
      by now apply nth_error_repeat.
    pose proof (accumulate_nth f (pairs self) _ k vzero Hz) as Hacc.
    rewrite <- HF in Hacc. congruence.
  - rewrite HF.
    destruct (accumulate_total (repeat vzero (natoms self)) (pairs self)
                (map f (pairs self))) as [Hx Hy].
    { intros i j Hin. rewrite repeat_length. now apply pairs_in_range. }
    rewrite Hx, Hy. split; now apply Rsum_repeat_zero.
Qed.

Lemma py_div_Ok (x y q : R) : py_div x y = Ok q -> y <> 0 /\ q = x / y.
Proof.
  unfold py_div. destruct (Req_dec_T y 0); [discriminate|].
  intros H. injection H as <-. auto.
Qed.

Lemma gradient_at_ext (ev ev' : ndarray -> result (R * ndarray))
    (self : MDSimulation) (coords : ndarray) (k : nat) (ck : vec)
    (forces : ndarray) :
  (forall a t, ev' (move a k t coords) = ev (move a k t coords)) ->
  gradient_at ev self coords k ck forces ->
  gradient_at ev' self coords k ck forces.
Proof.
  intros Hext (fk & f & H1 & [Hlx Hdx] & [Hly Hdy] & H4).
  exists fk, f. split; [exact H1|]. unfold partial_at.
  split; [split|split; [split|exact H4]].
  - destruct Hlx as (dl & Hdl & Hl). exists dl. split; [exact Hdl|].
    intros t Ht. rewrite Hext. now apply Hl.
  - eapply dl_local with (delta := 1); [lra | | exact Hdx].
    intros t _. cbn beta. now rewrite Hext.
  - destruct Hly as (dl & Hdl & Hl). exists dl. split; [exact Hdl|].
    intros t Ht. rewrite Hext. now apply Hl.
  - eapply dl_local with (delta := 1); [lra | | exact Hdy].
    intros t _. cbn beta. now rewrite Hext.
Qed.

Lemma cutoff_gradient (self : MDSimulation) (coords : ndarray)
    (k : nat) (ck : vec) (energy : R) (forces : ndarray) :
  (k < natoms self)%nat ->
  compute_energy_and_gradient_cutoff self coords = Ok (energy, forces) ->
  nth_error coords k = Some ck ->
  (forall i j ci cj,
     In (i, j) (pairs self) -> i = k \/ j = k ->
     nth_error coords i = Some ci -> nth_error coords j = Some cj ->
     off_boundary self (fst cj - fst ci) /\
     off_boundary self (snd cj - snd ci) /\
     vdot (disp_of self cj ci) (disp_of self cj ci) <> cutoff2 self) ->
  gradient_at (compute_energy_and_gradient_cutoff self) self coords k ck forces.
Proof.
  intros Hk Hev Hck Hreg.
  apply (gradient_with (energy_cutoff self) (factor_cutoff self)
           (pair_cutoff self) self coords k ck energy forces
           (radial_cutoff self) Hk Hev Hck).
  intros i j ci cj Hin Hor Hi Hj.
  destruct (Hreg i j ci cj Hin Hor Hi Hj) as (Hox & Hoy & Hc).
  split; [exact Hox|]. split; [exact Hoy|]. intros Hne.
  now apply energy_cutoff_deriv.
Qed.

(** C1 (amended).  In both modes, when the evaluator returns a finite
    result at a position array and every pair that contains atom k is a
    regular pair, the entry of atom k in the returned array is the gradient
    of the returned energy with respect to the position of atom k, with the
    plus sign: the evaluator stays finite as atom k moves a little along
    either axis, and the two components of the entry are the partial
    derivatives of the energy along the two axes.  Each pair force is added
    to the entry of the first atom of the pair and subtracted from the
    entry of the second, so the entries sum to zero. *)
Theorem forces_are_energy_gradient (self : MDSimulation) (coords : ndarray)
    (k : nat) (ck : vec) (energy : R) (forces : ndarray) :
  (k < natoms self)%nat ->
  compute_energy_and_gradient self coords = Ok (energy, forces) ->
  nth_error coords k = Some ck ->
  (forall i j ci cj,
     In (i, j) (pairs self) -> i = k \/ j = k ->
     nth_error coords i = Some ci -> nth_error coords j = Some cj ->
     regular_pair self ci cj) ->
  exists (fk : vec) (f : nat * nat -> vec),
    nth_error forces k = Some fk /\
    partial_at (compute_energy_and_gradient self) X k coords (fst ck) (fst fk) /\
    partial_at (compute_energy_and_gradient self) Y k coords (snd ck) (snd fk) /\
    forces = accumulate (repeat vzero (natoms self)) (pairs self)
               (map f (pairs self)) /\
    fk = fold_left (fun v ij => contrib k ij (f ij) v) (pairs self) vzero /\
    Rsum (map fst forces) = 0 /\ Rsum (map snd forces) = 0.
Proof.
  intros Hk Heval Hck Hreg.
  change (gradient_at (compute_energy_and_gradient self) self coords k ck forces).
  assert (Hcut : (forall w, window self = Some w -> w = 0) ->
            compute_energy_and_gradient_cutoff self coords = Ok (energy, forces) ->
            (forall a t,
               compute_energy_and_gradient self (move a k t coords) =
               compute_energy_and_gradient_cutoff self (move a k t coords)) ->
            gradient_at (compute_energy_and_gradient self) self coords k ck forces).
  { intros Hw Hev Hfun.
    apply (gradient_at_ext (compute_energy_and_gradient_cutoff self)); [exact Hfun|].
    apply (cutoff_gradient self coords k ck energy forces Hk Hev Hck).
    intros i j ci cj Hin Hor Hi Hj.
    destruct (Hreg i j ci cj Hin Hor Hi Hj) as (Hox & Hoy & Hsm).
    split; [exact Hox|]. split; [exact Hoy|].
    destruct Hsm as [Hs | Hc]; [|exact Hc].
    exfalso. unfold smooth_switch in Hs.
    destruct (window self) as [w|] eqn:Ew; [|exact Hs].
    destruct Hs as [Hs _]. apply Hs. now apply Hw. }
  unfold compute_energy_and_gradient in Heval.
  destruct (window self) as [w|] eqn:Ew.
  2:{ apply Hcut; [discriminate | exact Heval |].
      intros a t. unfold compute_energy_and_gradient. now rewrite Ew. }
  destruct (Req_dec_T w 0) as [E0|Hw0].
  { apply Hcut; [congruence | exact Heval |].
    intros a t. unfold compute_energy_and_gradient. rewrite Ew.
    destruct (Req_dec_T w 0); [reflexivity | contradiction]. }
  (* the switched routine *)
  unfold compute_energy_and_gradient_switch in Heval.
  apply bind_Ok in Heval as [denom [Hden Hev]].
  destruct (py_div_Ok _ _ _ Hden) as [Hnz Hdv].
  set (ron2 := (cutoff self - w) ^ 2) in *.
  apply (gradient_at_ext
           (evaluate_with (pair_switch self ron2 (cutoff2 self) denom) self)).
  { intros a t. unfold compute_energy_and_gradient. rewrite Ew.
    destruct (Req_dec_T w 0); [contradiction|].
    unfold compute_energy_and_gradient_switch. fold ron2. now rewrite Hden. }
  apply (gradient_with (energy_switch self ron2 (cutoff2 self) denom)
           (factor_switch self ron2 (cutoff2 self) denom)
           (pair_switch self ron2 (cutoff2 self) denom) self coords k ck
           energy forces (radial_switch self _ _ _) Hk Hev Hck).
  intros i j ci cj Hin Hor Hi Hj.
  destruct (Hreg i j ci cj Hin Hor Hi Hj) as (Hox & Hoy & Hsm).
  split; [exact Hox|]. split; [exact Hoy|]. intros Hne.
  apply energy_switch_deriv; [exact Hne|].
  destruct (Rlt_le_dec ron2 (cutoff2 self)) as [Hlt|Hge].
  - left. split; [exact Hlt | exact Hdv].
  - right. split; [exact Hge|].
    destruct Hsm as [Hs | Hc]; [|exact Hc].
    exfalso. unfold smooth_switch in Hs. rewrite Ew in Hs.
    destruct Hs as [_ Hs]. fold ron2 in Hs. lra.
Qed.

(** ** The switching factor *)





(** ** The gradient at the small instance *)

Lemma demo_regular (i j : nat) (ci cj : vec) :
  In (i, j) (pairs demo_sim) -> i = 0%nat \/ j = 0%nat ->
  nth_error demo_coords i = Some ci -> nth_error demo_coords j = Some cj ->
  regular_pair demo_sim ci cj.
Proof.
  change (pairs demo_sim) with [(0, 1); (0, 2); (0, 3); (1, 2); (1, 3); (2, 3)]%nat.
  intros Hin Hor Hi Hj.
  assert (Hoff : forall x, -5 < x < 5 -> off_boundary demo_sim x).
  { intros x Hx. unfold off_boundary, boxinv. cbn [demo_sim boxlength].
    rewrite (np_floor_unique _ 0); cbn; lra. }
  assert (Hwrap : forall x, -5 < x < 5 -> wrap demo_sim x = x).
  { intros x Hx. apply wrap_small; cbn [demo_sim boxlength]; lra. }
  repeat (destruct Hin as [Hin | Hin]; [injection Hin as <- <-|]);
    try contradiction; try lia;
    cbn in Hi, Hj; injection Hi as <-; injection Hj as <-;
    unfold regular_pair; cbn [fst snd]; (split; [apply Hoff; lra|]); (split; [apply Hoff; lra|]);
    right; rewrite !Hwrap by lra; unfold vdot, cutoff2;
    cbn [fst snd demo_sim cutoff]; lra.
Qed.

Lemma demo_switch_regular (i j : nat) (ci cj : vec) :
  In (i, j) (pairs demo_switch) -> i = 0%nat \/ j = 0%nat ->
  nth_error demo_coords i = Some ci -> nth_error demo_coords j = Some cj ->
  regular_pair demo_switch ci cj.
Proof.
  change (pairs demo_switch)
    with [(0, 1); (0, 2); (0, 3); (1, 2); (1, 3); (2, 3)]%nat.
  intros Hin Hor Hi Hj.
  assert (Hoff : forall x, -5 < x < 5 -> off_boundary demo_switch x).
  { intros x Hx. unfold off_boundary, boxinv. cbn [demo_switch boxlength].
    rewrite (np_floor_unique _ 0); cbn; lra. }
  assert (Hsm : smooth_switch demo_switch).
  { unfold smooth_switch, cutoff2. cbn [demo_switch window cutoff pow].
    split; lra. }
  repeat (destruct Hin as [Hin | Hin]; [injection Hin as <- <-|]);
    try contradiction; try lia;
    cbn in Hi, Hj; injection Hi as <-; injection Hj as <-;
    unfold regular_pair; cbn [fst snd]; (split; [apply Hoff; lra|]);
    (split; [apply Hoff; lra|]); left; exact Hsm.
Qed.

Lemma demo_switch_displacements :
  displacements demo_switch demo_coords =
    Ok [(1, 0); (0, 4); (4, 4); (-1, 4); (3, 4); (4, 0)].
Proof.
  rewrite displacements_pairwise.
  change (pairs demo_switch)
    with [(0, 1); (0, 2); (0, 3); (1, 2); (1, 3); (2, 3)]%nat.
  unfold demo_coords, pair_disp. cbn [mapM nth_error fst snd bind].
  apply f_equal. vec_list_eq;
    (rewrite wrap_small; cbn [demo_switch boxlength]; lra).
Qed.

Lemma pair_switch_beyond (self : MDSimulation) (ron2 denom : R) (d : vec) :
  vdot d d > cutoff2 self ->
  pair_switch self ron2 (cutoff2 self) denom d = Ok (0, vzero).
Proof.
  intros H. unfold pair_switch, np_div, switch_fn, dswitch_fn.
  assert (0 <= cutoff2 self) by (unfold cutoff2; apply pow2_ge_0).
  destruct (Req_dec_T (vdot d d) 0); [lra|].
  destruct (Rgt_dec (vdot d d) (cutoff2 self)); [|contradiction].
  cbn [bind]. unfold vscale, vzero. apply Ok_triple; ring.
Qed.

(** The switched routine at the small instance; the pair of atoms 0 and 1
    sits where the window starts. *)
Lemma demo_switch_evaluation :
  compute_energy_and_gradient demo_switch demo_coords = Ok (0, demo_gradient).
Proof.
  unfold compute_energy_and_gradient. cbn [demo_switch window].
  destruct (Req_dec_T 1 0) as [E|_]; [lra|].
  unfold compute_energy_and_gradient_switch, py_div.
  destruct (Req_dec_T _ 0) as [E|_].
  { exfalso. unfold cutoff2 in E. cbn [demo_switch cutoff pow] in E. lra. }
  cbn [bind]. rewrite demo_switch_displacements. cbn [bind mapM].
  assert (Hp : forall denom,
            pair_switch demo_switch ((cutoff demo_switch - 1) ^ 2)
              (cutoff2 demo_switch) denom (1, 0) = Ok (0, (6, 0))).
  { intros denom.
    unfold pair_switch, vdot, np_div, switch_fn, dswitch_fn, sig2,
      sigmaij, foureps, vscale, cutoff2.
    cbn [fst snd demo_switch cutoff sigma epsilon pow].
    destruct (Req_dec_T _ _) as [E|_]; [lra|].
    destruct (Rgt_dec _ _) as [Hgt|_]; [lra|].
    destruct (Rgt_dec _ _) as [Hgt|_]; [lra|].
    cbn [bind]. apply Ok_triple; field. }
  rewrite Hp.
  rewrite !pair_switch_beyond
    by (unfold vdot, cutoff2; cbn [fst snd demo_switch cutoff pow]; lra).
  cbn [bind map fst snd].
  change (pairs demo_switch)
    with [(0, 1); (0, 2); (0, 3); (1, 2); (1, 3); (2, 3)]%nat.
  change (natoms demo_switch) with 4%nat.
  unfold accumulate, Rsum, demo_gradient, vzero.
  cbn [repeat combine fold_left fold_right upd].
  unfold vadd, vsub. cbn [fst snd].
  apply f_equal. apply f_equal2; [lra|]. vec_list_eq; lra.
Qed.

Lemma forces_are_energy_gradient_witness :
  (exists (fk : vec) (f : nat * nat -> vec),
     nth_error demo_gradient 0 = Some fk /\
     partial_at (compute_energy_and_gradient demo_sim) X 0 demo_coords
       (fst (0, 0)) (fst fk) /\
     partial_at (compute_energy_and_gradient demo_sim) Y 0 demo_coords
       (snd (0, 0)) (snd fk) /\
     demo_gradient =
       accumulate (repeat vzero (natoms demo_sim)) (pairs demo_sim)
         (map f (pairs demo_sim)) /\
     fk = fold_left (fun v ij => contrib 0 ij (f ij) v) (pairs demo_sim) vzero /\
     Rsum (map fst demo_gradient) = 0 /\ Rsum (map snd demo_gradient) = 0) /\
  (exists (fk : vec) (f : nat * nat -> vec),
     nth_error demo_gradient 0 = Some fk /\
     partial_at (compute_energy_and_gradient demo_switch) X 0 demo_coords
       (fst (0, 0)) (fst fk) /\
     partial_at (compute_energy_and_gradient demo_switch) Y 0 demo_coords
       (snd (0, 0)) (snd fk) /\
     demo_gradient =
       accumulate (repeat vzero (natoms demo_switch)) (pairs demo_switch)
         (map f (pairs demo_switch)) /\
     fk = fold_left (fun v ij => contrib 0 ij (f ij) v) (pairs demo_switch) vzero /\
     Rsum (map fst demo_gradient) = 0 /\ Rsum (map snd demo_gradient) = 0).
Proof.
  split.
  - apply (forces_are_energy_gradient demo_sim demo_coords 0 (0, 0) 0 demo_gradient).
    + cbn. lia.
    + exact demo_evaluation.
    + reflexivity.
    + exact demo_regular.
  - apply (forces_are_energy_gradient demo_switch demo_coords 0 (0, 0) 0
             demo_gradient).
    + cbn. lia.
    + exact demo_switch_evaluation.
    + reflexivity.
    + exact demo_switch_regular.
Defined.

(** At the small instance the evaluator returns the entry (6, 0) for atom
    0, and the partial derivative of the returned energy along x at atom 0
    is 6: minus that derivative is -6, which the entry is not. *)
Lemma forces_not_minus_gradient :
  compute_energy_and_gradient demo_sim demo_coords = Ok (0, demo_gradient) /\
  nth_error demo_gradient 0 = Some (6, 0) /\
  derivable_pt_lim
    (fun t => energy_of (compute_energy_and_gradient demo_sim (move X 0 t demo_coords)))
    0 6 /\
  ~ derivable_pt_lim
      (fun t => energy_of (compute_energy_and_gradient demo_sim (move X 0 t demo_coords)))
      0 (- 6).
Proof.
  assert (Hk : (0 < natoms demo_sim)%nat) by (cbn; lia).
  destruct (cutoff_gradient demo_sim demo_coords 0 (0, 0) 0 demo_gradient Hk
              demo_evaluation eq_refl)
    as (fk & f & Hfk & [_ Hdx] & _).
  { intros i j ci cj Hin Hor Hi Hj.
    destruct (demo_regular i j ci cj Hin Hor Hi Hj) as (Hox & Hoy & [[] | Hc]).
    auto. }
  cbn in Hfk. injection Hfk as <-. cbn [fst] in Hdx.
  split; [exact demo_evaluation|]. split; [reflexivity|]. split; [exact Hdx|].
  intros Hneg. pose proof (uniqueness_limite _ _ _ _ Hdx Hneg). lra.
Qed.

(** ** The periodic particle of the first animation *)

Lemma move_particle_cases (L dr rval : R) :
  0 < L -> - L <= dr <= L -> 0 <= rval <= L ->
  0 <= move_particle L dr rval <= L /\
  (move_particle L dr rval = rval + dr \/
   move_particle L dr rval = rval + dr - L \/
   move_particle L dr rval = rval + dr + L).
Proof.
  intros HL Hdr Hr. unfold move_particle.
  destruct (Rgt_dec (rval + dr) L) as [Hgt|Hle].
  - destruct (Rlt_dec (rval + dr - L) 0) as [Hlt|Hge]; [lra|].
    split; [lra|]. right. left. reflexivity.
  - destruct (Rlt_dec (rval + dr) 0) as [Hlt|Hge].
    + split; [lra|]. right. right. reflexivity.
    + split; [lra|]. left. reflexivity.
Qed.

(** X1.  With a box of length L > 0 and a step of size at most L, a
    particle that starts inside [0, L] is inside [0, L] after any number of
    frames, and its position is the unwrapped position rval + n*dr moved by
    a whole number of box lengths. *)
Theorem move_particles_periodic (n : nat) (L dr rval : R) :
  0 < L -> - L <= dr <= L -> 0 <= rval <= L ->
  0 <= move_particles n L dr rval <= L /\
  exists m : Z, move_particles n L dr rval = rval + INR n * dr + IZR m * L.
Proof.
  intros HL Hdr. revert rval. induction n as [|n IH]; intros rval Hr.
  - split; [exact Hr|]. exists 0%Z. cbn. ring.
  - cbn [move_particles].
    destruct (move_particle_cases L dr rval HL Hdr Hr) as [Hin Hcase].
    destruct (IH _ Hin) as [Hin' [m Hm]]. split; [exact Hin'|].
    rewrite Hm, S_INR.
    destruct Hcase as [-> | [-> | ->]].
    + exists m. ring.
    + exists (m - 1)%Z. rewrite minus_IZR. ring.
    + exists (m + 1)%Z. rewrite plus_IZR. ring.
Qed.

Lemma move_particles_periodic_witness :
  0 <= move_particles 500 1.5 0.02 0.5 <= 1.5 /\
  exists m : Z, move_particles 500 1.5 0.02 0.5 = 0.5 + INR 500 * 0.02 + IZR m * 1.5.
Proof.
  apply (move_particles_periodic 500 1.5 0.02 0.5); lra.
Defined.

(** ** Construction: the parameters that stop it *)

Lemma pairs_empty (self : MDSimulation) :
  (atoms_per_dim self < 2)%nat -> pairs self = [].
Proof.
  unfold pairs, natoms, range. intros H.
  destruct (atoms_per_dim self) as [|[|n]]; [reflexivity | reflexivity | lia].
Qed.

(** X2.  A construction with fewer than two atoms per dimension raises
    [IndexError] whatever the other arguments are; with at least two, a box
    length of 0 raises [ZeroDivisionError], and so does a mass of 0 with a
    non-zero box length.  All three come before the cutoff check. *)
Theorem init_parameter_errors (sigma0 epsilon0 mass0 temp dt0 : R)
    (atoms_per_dim0 : nat) (boxlength0 cutoff0 : R) (window0 : option R)
    (nsteps0 : nat) (rand normal : ndarray) (h : heap) :
  ((atoms_per_dim0 < 2)%nat ->
     init sigma0 epsilon0 mass0 temp dt0 atoms_per_dim0 boxlength0 cutoff0
          window0 nsteps0 rand normal h = Raise IndexError) /\
  ((2 <= atoms_per_dim0)%nat -> boxlength0 = 0 ->
     init sigma0 epsilon0 mass0 temp dt0 atoms_per_dim0 boxlength0 cutoff0
          window0 nsteps0 rand normal h = Raise ZeroDivisionError) /\
  ((2 <= atoms_per_dim0)%nat -> boxlength0 <> 0 -> mass0 = 0 ->
     init sigma0 epsilon0 mass0 temp dt0 atoms_per_dim0 boxlength0 cutoff0
          window0 nsteps0 rand normal h = Raise ZeroDivisionError).
Proof.
  unfold init. split; [|split].
  - intros Hn.
    match goal with |- context [pairs ?s] =>
      rewrite (pairs_empty s Hn) end.
    reflexivity.
  - intros Hn HL.
    match goal with |- context [pairs ?s] =>
      pose proof (pairs_nonempty s Hn) as Hps; destruct (pairs s) as [|ij ps]
    end; [contradiction|]. cbn [bind]. unfold py_div at 1.
    destruct (Req_dec_T boxlength0 0); [reflexivity | contradiction].
  - intros Hn HL Hm.
    match goal with |- context [pairs ?s] =>
      pose proof (pairs_nonempty s Hn) as Hps; destruct (pairs s) as [|ij ps]
    end; [contradiction|]. cbn [bind]. unfold py_div.
    destruct (Req_dec_T boxlength0 0); [contradiction|]. cbn [bind].
    destruct (Req_dec_T mass0 0); [reflexivity | contradiction].
Qed.

Lemma init_parameter_errors_witness :
  init 0.27 0.3 2 300 0.005 1 3 1.5 None 400 [] [] [] = Raise IndexError /\
  init 0.27 0.3 2 300 0.005 5 0 0.5 None 400 [] [] [] = Raise ZeroDivisionError /\
  init 0.27 0.3 0 300 0.005 5 3 0.5 None 400 [] [] [] = Raise ZeroDivisionError.
Proof.
  split; [|split].
  - apply (proj1 (init_parameter_errors 0.27 0.3 2 300 0.005 1 3 1.5 None 400
                    [] [] [])).
    lia.
  - apply (proj1 (proj2 (init_parameter_errors 0.27 0.3 2 300 0.005 5 0 0.5 None
                           400 [] [] [])));
      [lia | reflexivity].
  - apply (proj2 (proj2 (init_parameter_errors 0.27 0.3 0 300 0.005 5 3 0.5 None
                           400 [] [] [])));
      [lia | lra | reflexivity].
Defined.

(** X3.  An [MDSimulationSwitch] object whose window is not 0 and
    satisfies (cutoff - window)^2 = cutoff^2, as window = 2*cutoff does,
    cannot be constructed: the first evaluation of the energy inside the
    constructor raises [ZeroDivisionError]. *)
Theorem init_switch_degenerate_window (sigma0 epsilon0 mass0 temp dt0 : R)
    (atoms_per_dim0 : nat) (boxlength0 cutoff0 w : R)
    (nsteps0 : nat) (rand normal : ndarray) (h : heap) :
  (2 <= atoms_per_dim0)%nat -> boxlength0 <> 0 -> mass0 <> 0 ->
  cutoff0 < boxlength0 / 2 ->
  w <> 0 -> (cutoff0 - w) ^ 2 = cutoff0 ^ 2 ->
  init sigma0 epsilon0 mass0 temp dt0 atoms_per_dim0 boxlength0 cutoff0
       (Some w) nsteps0 rand normal h = Raise ZeroDivisionError.
Proof.
  intros Hn HL Hm Hc Hw Heq. unfold init.
  match goal with |- context [pairs ?s] =>
    pose proof (pairs_nonempty s Hn) as Hps; destruct (pairs s) as [|ij ps]
  end; [contradiction|]. cbn [bind]. unfold py_div at 1 2.
  destruct (Req_dec_T boxlength0 0); [contradiction|].
  destruct (Req_dec_T mass0 0); [contradiction|]. cbn [bind].
  destruct (Rge_dec cutoff0 (boxlength0 / 2)); [lra|]. cbn [bind].
  unfold alloc, compute_energy_and_gradient. cbn [window].
  destruct (Req_dec_T w 0); [contradiction|].
  unfold compute_energy_and_gradient_switch, py_div, cutoff2. cbn [cutoff].
  destruct (Req_dec_T _ 0) as [_|Hne]; [reflexivity|].
  exfalso. apply Hne. rewrite Heq. ring.
Qed.

Lemma init_switch_degenerate_window_witness :
  init 0.27 0.3 2 300 0.005 5 3 0.5 (Some 1) 500 [] [] [] = Raise ZeroDivisionError.
Proof.
  apply (init_switch_degenerate_window 0.27 0.3 2 300 0.005 5 3 0.5 1 500 [] [] []).
  - lia.
  - lra.
  - lra.
  - lra.
  - lra.
  - cbn [pow]. lra.
Defined.

(** ** The rows of the position array *)

Lemma pair_disp_outcome (self : MDSimulation) (c : ndarray) (ij : nat * nat) :
  (exists d, pair_disp self c ij = Ok d) \/ pair_disp self c ij = Raise IndexError.
Proof.
  unfold pair_disp. destruct (nth_error c (snd ij)); [|now right].
  destruct (nth_error c (fst ij)); [left; now eexists | now right].
Qed.

Lemma mapM_failure {A B : Type} (f : A -> result B) (l : list A) (e : exn) :
  (forall a, In a l -> (exists b, f a = Ok b) \/ f a = Raise e) ->
  (exists a, In a l /\ f a = Raise e) ->
  mapM f l = Raise e.
Proof.
  induction l as [|a l IH]; intros Hall [x [Hin Hx]]; [destruct Hin|].
  cbn [mapM]. destruct (Hall a (or_introl eq_refl)) as [[b Hb] | Hb].
  - rewrite Hb. cbn [bind]. rewrite IH; [reflexivity | |].
    + intros a' Ha'. apply Hall. now right.
    + destruct Hin as [<- | Hin]; [congruence|]. now exists x.
  - now rewrite Hb.
Qed.

Lemma displacements_Ok (self : MDSimulation) (coords : ndarray) :
  (natoms self <= length coords)%nat ->
  displacements self coords =
    Ok (map (fun ij : nat * nat =>
               disp_of self (nth (snd ij) coords vzero) (nth (fst ij) coords vzero))
            (pairs self)).
Proof.
  intros Hlen. rewrite displacements_pairwise.
  apply mapM_all_Ok with
    (g := fun ij : nat * nat =>
            disp_of self (nth (snd ij) coords vzero) (nth (fst ij) coords vzero)).
  intros [i j] Hin. apply pairs_in_range in Hin as (Hi & Hj & _).
  unfold pair_disp. cbn [fst snd].
  rewrite (nth_error_nth' coords vzero) by lia.
  rewrite (nth_error_nth' coords vzero) by lia. reflexivity.
Qed.

Lemma displacements_short (self : MDSimulation) (c : ndarray) :
  (2 <= atoms_per_dim self)%nat -> (length c < natoms self)%nat ->
  displacements self c = Raise IndexError.
Proof.
  intros Hn Hlen. rewrite displacements_pairwise.
  apply mapM_failure.
  - intros ij _. apply pair_disp_outcome.
  - exists (0, natoms self - 1)%nat. split.
    + unfold pairs, range. apply combinations2_seq_In.
      assert (4 <= natoms self)%nat by (unfold natoms; cbn [Nat.pow]; nia). lia.
    + unfold pair_disp. cbn [fst snd].
      assert (E : nth_error c (natoms self - 1) = None)
        by (apply nth_error_None; lia).
      now rewrite E.
Qed.

Lemma displacements_app (self : MDSimulation) (c extra : ndarray) :
  (natoms self <= length c)%nat ->
  displacements self (c ++ extra) = displacements self c.
Proof.
  intros Hlen. rewrite !displacements_pairwise. apply mapM_ext_in.
  intros [i j] Hin. apply pairs_in_range in Hin as (Hi & Hj & _).
  unfold pair_disp. cbn [fst snd].
  rewrite !nth_error_app1 by lia. reflexivity.
Qed.

(** X4.  For an object with at least two atoms per dimension: a position
    array with fewer rows than atoms makes the hard-cutoff routine raise
    [IndexError] (the method of the object raises that or, for a switched
    object, the [ZeroDivisionError] of its scalar division), while rows
    beyond the number of atoms are not looked at, so an array that is too
    long is accepted and gives the result of its first [natoms] rows. *)
Theorem evaluate_rows (self : MDSimulation) (coords : ndarray) :
  (2 <= atoms_per_dim self)%nat ->
  ((length coords < natoms self)%nat ->
     compute_energy_and_gradient_cutoff self coords = Raise IndexError /\
     (compute_energy_and_gradient self coords = Raise IndexError \/
      compute_energy_and_gradient self coords = Raise ZeroDivisionError)) /\
  ((natoms self <= length coords)%nat ->
     compute_energy_and_gradient self coords <> Raise IndexError /\
     forall extra : ndarray,
       compute_energy_and_gradient self (coords ++ extra) =
       compute_energy_and_gradient self coords).
Proof.
  intros Hn. split.
  - intros Hlen.
    assert (Hc : compute_energy_and_gradient_cutoff self coords = Raise IndexError).
    { unfold compute_energy_and_gradient_cutoff.
      now rewrite (displacements_short self coords Hn Hlen). }
    split; [exact Hc|].
    unfold compute_energy_and_gradient.
    destruct (window self) as [w|]; [|now left].
    destruct (Req_dec_T w 0); [now left|].
    unfold compute_energy_and_gradient_switch, py_div.
    destruct (Req_dec_T _ 0); [now right|]. cbn [bind].
    rewrite (displacements_short self coords Hn Hlen). now left.
  - intros Hlen. split.
    + assert (Hd : exists dR, displacements self coords = Ok dR)
        by (eexists; exact (displacements_Ok self coords Hlen)).
      destruct Hd as [dR HdR].
      assert (Hpc : forall l : list vec,
                avoids IndexError (mapM (pair_cutoff self) l)).
      { intros l. apply mapM_avoids. intros d. unfold pair_cutoff, np_div.
        destruct (Rgt_dec _ _); cbn; [exact I|].
        destruct (Req_dec_T _ _); cbn; exact I. }
      assert (Hc : avoids IndexError (compute_energy_and_gradient_cutoff self coords)).
      { unfold compute_energy_and_gradient_cutoff. rewrite HdR. cbn [bind].
        apply bind_avoids; [apply Hpc | intros pp; exact I]. }
      apply avoids_neq. unfold compute_energy_and_gradient.
      destruct (window self) as [w|]; [|exact Hc].
      destruct (Req_dec_T w 0); [exact Hc|].
      unfold compute_energy_and_gradient_switch.
      apply bind_avoids.
      { unfold py_div. destruct (Req_dec_T _ _); cbn; [discriminate | exact I]. }
      intros denom. rewrite HdR. cbn [bind].
      apply bind_avoids; [|intros pp; exact I].
      apply mapM_avoids. intros d. unfold pair_switch, np_div.
      destruct (Req_dec_T _ _); cbn; exact I.
    + intros extra.
      unfold compute_energy_and_gradient, compute_energy_and_gradient_cutoff,
        compute_energy_and_gradient_switch.
      now rewrite (displacements_app self coords extra Hlen).
Qed.

Lemma evaluate_rows_witness :
  (compute_energy_and_gradient_cutoff demo_sim [(0, 0)] = Raise IndexError /\
   (compute_energy_and_gradient demo_sim [(0, 0)] = Raise IndexError \/
    compute_energy_and_gradient demo_sim [(0, 0)] = Raise ZeroDivisionError)) /\
  (compute_energy_and_gradient demo_sim demo_coords <> Raise IndexError /\
   forall extra : ndarray,
     compute_energy_and_gradient demo_sim (demo_coords ++ extra) =
     compute_energy_and_gradient demo_sim demo_coords).
Proof.
  split.
  - apply (proj1 (evaluate_rows demo_sim [(0, 0)] (le_n 2))). cbn. lia.
  - apply (proj2 (evaluate_rows demo_sim demo_coords (le_n 2))). cbn. lia.
Defined.

(** ** Moving all atoms together *)

Lemma pair_disp_shift_all (self : MDSimulation) (t : vec) (c : ndarray)
    (ij : nat * nat) :
  pair_disp self (shift_all t c) ij = pair_disp self c ij.
Proof.
  unfold pair_disp, shift_all. rewrite !nth_error_map.
  destruct (nth_error c (snd ij)) as [[xj yj]|]; [|reflexivity].
  destruct (nth_error c (fst ij)) as [[xi yi]|]; [|reflexivity].
  cbn [option_map vadd fst snd]. apply f_equal. apply f_equal2; f_equal; ring.
Qed.

(** X5.  Moving every atom by one and the same vector, of any length and
    direction, changes nothing in what the evaluator returns, in either
    mode: not the energy, not the forces, not the failure. *)
Theorem evaluate_shift_all (self : MDSimulation) (t : vec) (coords : ndarray) :
  compute_energy_and_gradient self (shift_all t coords) =
    compute_energy_and_gradient self coords /\
  compute_energy_and_gradient_cutoff self (shift_all t coords) =
    compute_energy_and_gradient_cutoff self coords /\
  forall w : R,
    compute_energy_and_gradient_switch self w (shift_all t coords) =
    compute_energy_and_gradient_switch self w coords.
Proof.
  assert (Hd : displacements self (shift_all t coords) = displacements self coords).
  { rewrite !displacements_pairwise. apply mapM_ext_in.
    intros ij _. apply pair_disp_shift_all. }
  unfold compute_energy_and_gradient, compute_energy_and_gradient_cutoff,
    compute_energy_and_gradient_switch.
  rewrite Hd. repeat split.
Qed.

(** ** The net force and the centre of mass *)

Lemma evaluate_total_zero (self : MDSimulation) (c : ndarray) (E : R)
    (F : ndarray) :
  compute_energy_and_gradient self c = Ok (E, F) ->
  length F = natoms self /\ total F = (0, 0).
Proof.
  intros H. split; [exact (gradient_length self c E F H)|].
  assert (Hacc : exists pfs,
            F = accumulate (repeat vzero (natoms self)) (pairs self) pfs).
  { unfold compute_energy_and_gradient in H.
    assert (Hc : compute_energy_and_gradient_cutoff self c = Ok (E, F) ->
                 exists pfs,
                   F = accumulate (repeat vzero (natoms self)) (pairs self) pfs).
    { unfold compute_energy_and_gradient_cutoff. intros H'.
      apply bind_Ok in H' as [dR [_ H']]. apply bind_Ok in H' as [pp [_ H']].
      injection H' as _ <-. now eexists. }
    destruct (window self) as [w|]; [|now apply Hc].
    destruct (Req_dec_T w 0); [now apply Hc|].
    unfold compute_energy_and_gradient_switch in H.
    apply bind_Ok in H as [denom [_ H]].
    apply bind_Ok in H as [dR [_ H]]. apply bind_Ok in H as [pp [_ H]].
    injection H as _ <-. now eexists. }
  destruct Hacc as [pfs ->].
  destruct (accumulate_total (repeat vzero (natoms self)) (pairs self) pfs)
    as [Hx Hy].
  { intros i j Hin. rewrite repeat_length. now apply pairs_in_range. }
  unfold total. rewrite Hx, Hy.
  rewrite !Rsum_repeat_zero by reflexivity. reflexivity.
Qed.

(** X6.  Whenever the evaluator returns a finite result, in either mode,
    the returned array has one row per atom and its rows sum to the zero
    vector: the pair terms cancel two by two. *)
Theorem net_gradient_zero (self : MDSimulation) (coords : ndarray) (energy : R)
    (forces : ndarray) :
  compute_energy_and_gradient self coords = Ok (energy, forces) ->
  length forces = natoms self /\
  Rsum (map fst forces) = 0 /\ Rsum (map snd forces) = 0.
Proof.
  intros H. destruct (evaluate_total_zero self coords energy forces H) as [Hl Ht].
  unfold total in Ht. injection Ht as Hx Hy. auto.
Qed.

Lemma net_gradient_zero_witness :
  length demo_gradient = natoms demo_sim /\
  Rsum (map fst demo_gradient) = 0 /\ Rsum (map snd demo_gradient) = 0.
Proof.
  apply (net_gradient_zero demo_sim demo_coords 0 demo_gradient).
  exact demo_evaluation.
Defined.

Lemma total_map2 (f : vec -> vec -> vec) (op : R -> R -> R) (a b : ndarray) :
  (forall u v, fst (f u v) = op (fst u) (fst v)) ->
  (forall u v, snd (f u v) = op (snd u) (snd v)) ->
  (forall x y z w, op x y + op z w = op (x + z) (y + w)) ->
  op 0 0 = 0 ->
  length a = length b ->
  total (map2 f a b) =
    (op (fst (total a)) (fst (total b)), op (snd (total a)) (snd (total b))).
Proof.
  intros Hf Hs Hop H0. revert b.
  induction a as [|u a IH]; intros [|v b] Hlen; try discriminate.
  - unfold total. cbn. now rewrite H0.
  - injection Hlen as Hlen. specialize (IH b Hlen).
    unfold total in *. cbn [map2 map Rsum fold_right fst snd] in *.
    injection IH as IHx IHy.
    fold (Rsum (map fst (map2 f a b))). fold (Rsum (map snd (map2 f a b))).
    fold (Rsum (map fst a)). fold (Rsum (map snd a)).
    fold (Rsum (map fst b)). fold (Rsum (map snd b)).
    fold (Rsum (map fst (map2 f a b))) in IHx.
    fold (Rsum (map snd (map2 f a b))) in IHy.
    fold (Rsum (map fst a)) in IHx. fold (Rsum (map snd a)) in IHy.
    fold (Rsum (map fst b)) in IHx. fold (Rsum (map snd b)) in IHy.
    rewrite IHx, IHy, Hf, Hs, !Hop. reflexivity.
Qed.

Lemma total_scale (k : R) (a : ndarray) :
  total (arr_scale k a) = (k * fst (total a), k * snd (total a)).
Proof.
  unfold total, arr_scale. cbn [fst snd].
  induction a as [|u a IH]; cbn [map Rsum fold_right].
  - f_equal; ring.
  - fold (Rsum (map fst (map (vscale k) a))) in *.
    fold (Rsum (map snd (map (vscale k) a))) in *.
    fold (Rsum (map fst a)) in *. fold (Rsum (map snd a)) in *.
    injection IH as -> ->. unfold vscale. cbn [fst snd]. f_equal; ring.
Qed.

Lemma verlet_total (self : MDSimulation) (c p g : ndarray) :
  length c = length g -> length p = length g -> total g = (0, 0) ->
  fst (total (verlet self c p g)) = 2 * fst (total c) - fst (total p) /\
  snd (total (verlet self c p g)) = 2 * snd (total c) - snd (total p).
Proof.
  intros Hc Hp Hg. unfold verlet, arr_add, arr_sub.
  rewrite (total_map2 vadd Rplus); try reflexivity; try (intros; ring).
  2:{ rewrite length_map2. unfold arr_scale. rewrite !length_map. lia. }
  rewrite (total_map2 vsub Rminus); try reflexivity; try (intros; ring).
  2:{ unfold arr_scale. rewrite length_map. lia. }
  rewrite !total_scale, Hg. cbn [fst snd]. split; ring.
Qed.

Lemma verlet_step_total (self : MDSimulation) (c p new c' : ndarray) :
  length c = natoms self -> length p = natoms self ->
  verlet_step self (c, p) = Ok (new, c') ->
  c' = c /\ length new = natoms self /\
  fst (total new) = 2 * fst (total c) - fst (total p) /\
  snd (total new) = 2 * snd (total c) - snd (total p).
Proof.
  intros Hc Hp H. unfold verlet_step in H. cbn [fst snd] in H.
  apply bind_Ok in H as [[PE g] [Heval H]].
  apply bind_Ok in H as [v [_ H]]. injection H as <- <-.
  destruct (evaluate_total_zero self c PE g Heval) as [Hg Ht].
  split; [reflexivity|]. split; [now apply verlet_length|].
  apply verlet_total; congruence.
Qed.

Lemma verlet_run_total (k : nat) (self : MDSimulation) (c p ck pk : ndarray) :
  length c = natoms self -> length p = natoms self ->
  verlet_run k self (c, p) = Ok (ck, pk) ->
  length ck = natoms self /\ length pk = natoms self /\
  fst (total ck) - fst (total pk) = fst (total c) - fst (total p) /\
  snd (total ck) - snd (total pk) = snd (total c) - snd (total p) /\
  fst (total ck) = fst (total c) + INR k * (fst (total c) - fst (total p)) /\
  snd (total ck) = snd (total c) + INR k * (snd (total c) - snd (total p)).
Proof.
  revert c p. induction k as [|k IH]; intros c p Hc Hp H.
  - cbn in H. injection H as <- <-. cbn [INR]. repeat split; auto; ring.
  - cbn [verlet_run] in H. apply bind_Ok in H as [[new c'] [Hstep Hrun]].
    destruct (verlet_step_total self c p new c' Hc Hp Hstep)
      as (-> & Hnew & Hx & Hy).
    destruct (IH new c Hnew Hc Hrun) as (Hck & Hpk & Hdx & Hdy & Hsx & Hsy).
    rewrite S_INR. repeat split; auto; try lra.
    + rewrite Hsx, Hx. ring.
    + rewrite Hsy, Hy. ring.
Qed.

(** X7.  The integrator keeps the total momentum: over any number K of
    steps from position arrays of the configured size, the sum of the
    displacements of all atoms in one step stays what it was at the start,
    so the sum of the positions moves by K times that amount. *)
Theorem centre_of_mass_drift (K : nat) (self selfK : MDSimulation) (h hK : heap) :
  length (deref h (coords self)) = natoms self ->
  length (deref h (last_coords self)) = natoms self ->
  run K self h = Ok (selfK, hK) ->
  let cur := total (deref h (coords self)) in
  let prev := total (deref h (last_coords self)) in
  let curK := total (deref hK (coords selfK)) in
  let prevK := total (deref hK (last_coords selfK)) in
  fst curK - fst prevK = fst cur - fst prev /\
  snd curK - snd prevK = snd cur - snd prev /\
  fst curK = fst cur + INR K * (fst cur - fst prev) /\
  snd curK = snd cur + INR K * (snd cur - snd prev).
Proof.
  intros Hc Hp Hrun. cbn zeta.
  destruct (run_arrays K self selfK h hK Hrun) as [Hfwd _].
  unfold arrays in Hfwd.
  destruct (verlet_run_total K self _ _ _ _ Hc Hp Hfwd)
    as (_ & _ & Hdx & Hdy & Hsx & Hsy).
  auto.
Qed.

Lemma centre_of_mass_drift_witness :
  let cur := total (deref demo_heap (coords demo_sim)) in
  let prev := total (deref demo_heap (last_coords demo_sim)) in
  let curK := total (deref (snd demo_after) (coords (fst demo_after))) in
  let prevK := total (deref (snd demo_after) (last_coords (fst demo_after))) in
  fst curK - fst prevK = fst cur - fst prev /\
  snd curK - snd prevK = snd cur - snd prev /\
  fst curK = fst cur + INR 1 * (fst cur - fst prev) /\
  snd curK = snd cur + INR 1 * (snd cur - snd prev).
Proof.
  apply (centre_of_mass_drift 1 demo_sim (fst demo_after) demo_heap (snd demo_after)).
  - reflexivity.
  - reflexivity.
  - exact demo_run.
Defined.

(** ** Bounds on the energy *)

Lemma switch_fn_range (self : MDSimulation) (ron2 r2 : R) :
  cutoff2 self <> ron2 ->
  0 <= switch_fn self ron2 (cutoff2 self) (1 / (cutoff2 self - ron2) ^ 3) r2 <= 1.
Proof.
  intros Hne. unfold switch_fn.
  destruct (Rgt_dec r2 (cutoff2 self)) as [|Hin]; [lra|].
  destruct (Rgt_dec r2 ron2) as [Hon|]; [|lra].
  pose (g := cutoff2 self - ron2). pose (x := r2 - ron2).
  assert (Hg : 0 < g) by (unfold g; lra).
  assert (Hg3 : 0 < g ^ 3) by (apply pow_lt; exact Hg).
  assert (Hx : 0 <= x <= g) by (unfold x, g; lra).
  assert (HN : (cutoff2 self + 2 * r2 - 3 * ron2) * (cutoff2 self - r2) ^ 2
                 * (1 / (cutoff2 self - ron2) ^ 3) =
               (g + 2 * x) * (g - x) ^ 2 / g ^ 3).
  { unfold x, g. field. lra. }
  rewrite HN. clear HN. clearbody g x.
  assert (Hnum : 0 <= (g + 2 * x) * (g - x) ^ 2)
    by (apply Rmult_le_pos; [lra | apply pow2_ge_0]).
  assert (Hle : (g + 2 * x) * (g - x) ^ 2 <= g ^ 3).
  { assert (g ^ 3 - (g + 2 * x) * (g - x) ^ 2 = x * x * (3 * g - 2 * x))
      by (cbn; ring).
    assert (0 <= x * x * (3 * g - 2 * x))
      by (apply Rmult_le_pos; [apply Rle_0_sqr | lra]).
    lra. }
  split.
  - apply Rle_mult_inv_pos; [exact Hnum | exact Hg3].
  - apply (Rmult_le_reg_r (g ^ 3)); [exact Hg3|].
    replace ((g + 2 * x) * (g - x) ^ 2 / g ^ 3 * g ^ 3)
      with ((g + 2 * x) * (g - x) ^ 2) by (field; lra).
    lra.
Qed.

Lemma well_depth (eps x : R) : 0 <= eps -> - eps <= 4 * eps * (x * x) - 4 * eps * x.
Proof.
  intros He.
  assert (H : 4 * eps * (x * x) - 4 * eps * x + eps = eps * ((2 * x - 1) * (2 * x - 1)))
    by ring.
  assert (0 <= eps * ((2 * x - 1) * (2 * x - 1)))
    by (apply Rmult_le_pos; [exact He | apply Rle_0_sqr]).
  lra.
Qed.

Lemma pair_cutoff_bound (self : MDSimulation) (d : vec) (e : R) (f : vec) :
  0 <= epsilon self -> pair_cutoff self d = Ok (e, f) -> - epsilon self <= e.
Proof.
  intros He H. unfold pair_cutoff in H.
  apply bind_Ok in H as [r2inv [_ H]]. injection H as <- _.
  unfold foureps.
  pose proof (well_depth (epsilon self)
                (sig2 self * r2inv * (sig2 self * r2inv) * (sig2 self * r2inv)) He).
  lra.
Qed.

Lemma pair_switch_bound (self : MDSimulation) (ron2 : R) (d : vec) (e : R)
    (f : vec) :
  0 <= epsilon self -> cutoff2 self <> ron2 ->
  pair_switch self ron2 (cutoff2 self) (1 / (cutoff2 self - ron2) ^ 3) d = Ok (e, f) ->
  - epsilon self <= e.
Proof.
  intros He Hne H. unfold pair_switch in H.
  apply bind_Ok in H as [r2inv [_ H]]. injection H as <- _.
  pose proof (switch_fn_range self ron2 (vdot d d) Hne) as [HS0 HS1].
  set (S := switch_fn _ _ _ _ _) in *. clearbody S.
  unfold foureps.
  pose proof (well_depth (epsilon self)
                (sig2 self * r2inv * (sig2 self * r2inv) * (sig2 self * r2inv)) He)
    as Hw.
  set (x := sig2 self * r2inv * (sig2 self * r2inv) * (sig2 self * r2inv)) in *.
  set (u := 4 * epsilon self * (x * x) - 4 * epsilon self * x) in *.
  clearbody u.
  destruct (Rle_dec 0 u) as [Hu|Hu].
  - assert (0 <= S * u) by (apply Rmult_le_pos; assumption). lra.
  - assert (S * (- u) <= 1 * (- u)) by (apply Rmult_le_compat_r; lra). lra.
Qed.

Lemma mapM_Ok_In {A B : Type} (f : A -> result B) (l : list A) (bs : list B)
    (b : B) :
  mapM f l = Ok bs -> In b bs -> exists a, In a l /\ f a = Ok b.
Proof.
  revert bs. induction l as [|a l IH]; intros bs H Hin; cbn [mapM] in H.
  - injection H as <-. destruct Hin.
  - apply bind_Ok in H as [b0 [Hb0 H]]. apply bind_Ok in H as [bs0 [Hbs0 H]].
    injection H as <-. destruct Hin as [<- | Hin].
    + exists a. split; [now left | exact Hb0].
    + destruct (IH bs0 Hbs0 Hin) as [a' [Ha' Hfa']].
      exists a'. split; [now right | exact Hfa'].
Qed.

Lemma Rsum_lower (c : R) (l : list R) :
  (forall x, In x l -> c <= x) -> c * INR (length l) <= Rsum l.
Proof.
  induction l as [|x l IH]; intros H.
  - cbn. lra.
  - cbn [length Rsum fold_right]. fold (Rsum l). rewrite S_INR.
    assert (c <= x) by (apply H; now left).
    assert (c * INR (length l) <= Rsum l) by (apply IH; intros y Hy; apply H; now right).
    lra.
Qed.

Lemma pairs_length (self : MDSimulation) :
  length (pairs self) = (natoms self * (natoms self - 1) / 2)%nat.
Proof.
  unfold pairs, range. rewrite combinations2_length, length_seq. reflexivity.
Qed.

Lemma displacements_length (self : MDSimulation) (c dR : ndarray) :
  displacements self c = Ok dR -> length dR = length (pairs self).
Proof.
  rewrite displacements_pairwise. apply mapM_Ok_length.
Qed.

(** X8.  With a non-negative [epsilon], every finite energy that the
    evaluator returns, in either mode and for any window, is at least
    minus [epsilon] times the number of pairs, natoms (natoms - 1) / 2:
    no pair contributes less than minus the well depth. *)
Theorem energy_lower_bound (self : MDSimulation) (coords : ndarray) (energy : R)
    (forces : ndarray) :
  0 <= epsilon self ->
  compute_energy_and_gradient self coords = Ok (energy, forces) ->
  - epsilon self * INR (natoms self * (natoms self - 1) / 2) <= energy.
Proof.
  intros He H. rewrite <- pairs_length.
  assert (Hc : compute_energy_and_gradient_cutoff self coords = Ok (energy, forces) ->
               - epsilon self * INR (length (pairs self)) <= energy).
  { unfold compute_energy_and_gradient_cutoff. intros H'.
    apply bind_Ok in H' as [dR [HdR H']]. apply bind_Ok in H' as [pp [Hpp H']].
    injection H' as <- _.
    rewrite <- (displacements_length self coords dR HdR).
    rewrite <- (mapM_Ok_length _ _ _ Hpp), <- (length_map fst pp).
    apply Rsum_lower. intros x Hx. apply in_map_iff in Hx as [[e f] [<- Hin]].
    destruct (mapM_Ok_In _ _ _ _ Hpp Hin) as [d [_ Hd]].
    exact (pair_cutoff_bound self d e f He Hd). }
  unfold compute_energy_and_gradient in H.
  destruct (window self) as [w|]; [|now apply Hc].
  destruct (Req_dec_T w 0); [now apply Hc|].
  unfold compute_energy_and_gradient_switch in H.
  apply bind_Ok in H as [denom [Hden H]].
  apply py_div_Ok in Hden as [Hne ->].
  assert (Hgap : cutoff2 self <> (cutoff self - w) ^ 2).
  { intros E. apply Hne. rewrite E. ring. }
  apply bind_Ok in H as [dR [HdR H]]. apply bind_Ok in H as [pp [Hpp H]].
  injection H as <- _.
  rewrite <- (displacements_length self coords dR HdR).
  rewrite <- (mapM_Ok_length _ _ _ Hpp), <- (length_map fst pp).
  apply Rsum_lower. intros x Hx. apply in_map_iff in Hx as [[e f] [<- Hin]].
  destruct (mapM_Ok_In _ _ _ _ Hpp Hin) as [d [_ Hd]].
  exact (pair_switch_bound self _ d e f He Hgap Hd).
Qed.

Lemma energy_lower_bound_witness :
  - epsilon demo_switch * INR (natoms demo_switch * (natoms demo_switch - 1) / 2) <= 0.
Proof.
  apply (energy_lower_bound demo_switch demo_coords 0 demo_gradient).
  - cbn. lra.
  - exact demo_switch_evaluation.
Defined.

(** ** A window that reaches past the cutoff *)

Lemma pair_switch_plain (self : MDSimulation) (ron2 denom : R) (d : vec) :
  vdot d d <= ron2 \/ vdot d d > cutoff2 self ->
  pair_switch self ron2 (cutoff2 self) denom d = pair_cutoff self d.
Proof.
  intros Hr. unfold pair_switch, pair_cutoff, switch_fn, dswitch_fn, np_div.
  destruct (Rgt_dec (vdot d d) (cutoff2 self)) as [Hout|Hin].
  - destruct (Req_dec_T (vdot d d) 0) as [E|_].
    + exfalso. unfold cutoff2 in Hout. pose proof (pow2_ge_0 (cutoff self)). lra.
    + cbn [bind]. f_equal. f_equal; [ring|].
      unfold vscale. f_equal; ring.
  - destruct (Req_dec_T (vdot d d) 0) as [E|_]; [reflexivity|].
    cbn [bind]. destruct (Rgt_dec (vdot d d) ron2) as [Hon|_]; [lra|].
    f_equal. f_equal; [ring|]. unfold vscale. f_equal; ring.
Qed.

(** X9.  For an [MDSimulationSwitch] object whose window makes the scalar
    division succeed: at positions where no pair lies inside the window
    (every squared minimum-image distance is at most (cutoff - window)^2 or
    beyond cutoff^2) the switched evaluation returns exactly what the hard
    cutoff returns; when (cutoff - window)^2 exceeds cutoff^2, as for a
    window above twice a positive cutoff or a negative window, this holds
    at all positions, so such an object never switches. *)
Theorem switch_outside_window (self : MDSimulation) (w : R) (coords : ndarray) :
  window self = Some w ->
  (cutoff self - w) ^ 2 <> cutoff2 self ->
  ((forall ij d, In ij (pairs self) -> pair_disp self coords ij = Ok d ->
      vdot d d <= (cutoff self - w) ^ 2 \/ vdot d d > cutoff2 self) ->
   compute_energy_and_gradient self coords =
     compute_energy_and_gradient_cutoff self coords) /\
  (cutoff2 self < (cutoff self - w) ^ 2 ->
   compute_energy_and_gradient self coords =
     compute_energy_and_gradient_cutoff self coords).
Proof.
  intros Hw Hne.
  assert (Hmain :
    (forall ij d, In ij (pairs self) -> pair_disp self coords ij = Ok d ->
       vdot d d <= (cutoff self - w) ^ 2 \/ vdot d d > cutoff2 self) ->
    compute_energy_and_gradient self coords =
      compute_energy_and_gradient_cutoff self coords).
  { intros Hall. unfold compute_energy_and_gradient. rewrite Hw.
    destruct (Req_dec_T w 0); [reflexivity|].
    unfold compute_energy_and_gradient_switch, py_div.
    destruct (Req_dec_T _ 0) as [E|_].
    { exfalso. revert E. apply pow_nonzero. intros E. apply Hne. lra. }
    cbn [bind]. unfold compute_energy_and_gradient_cutoff.
    destruct (displacements self coords) as [dR| |] eqn:HdR; try reflexivity.
    cbn [bind].
    rewrite (mapM_ext_in (pair_switch self ((cutoff self - w) ^ 2) (cutoff2 self)
                            (1 / (cutoff2 self - (cutoff self - w) ^ 2) ^ 3))
                         (pair_cutoff self) dR); [reflexivity|].
    intros d Hd. apply pair_switch_plain.
    rewrite displacements_pairwise in HdR.
    apply In_nth_error in Hd as [k Hk].
    assert (Hlen : (k < length (pairs self))%nat).
    { rewrite <- (mapM_Ok_length _ _ _ HdR). apply nth_error_Some. congruence. }
    destruct (nth_error (pairs self) k) as [ij|] eqn:Hij;
      [|apply nth_error_None in Hij; lia].
    destruct (mapM_Ok_nth _ _ _ _ _ HdR Hij) as [d' [Hd' Hk']].
    assert (d' = d) by congruence. subst d'.
    apply (Hall ij d); [eapply nth_error_In; eassumption | exact Hd']. }
  split; [exact Hmain|].
  intros Hwide. apply Hmain. intros ij d _ _.
  destruct (Rle_dec (vdot d d) ((cutoff self - w) ^ 2)); [now left | right; lra].
Qed.

Lemma switch_outside_window_witness :
  compute_energy_and_gradient demo_wide demo_coords =
    compute_energy_and_gradient_cutoff demo_wide demo_coords.
Proof.
  apply (proj2 (switch_outside_window demo_wide 3 demo_coords eq_refl
                  ltac:(unfold cutoff2; cbn [demo_wide cutoff pow]; lra))).
  unfold cutoff2. cbn [demo_wide cutoff pow]. lra.
Defined.

(** ** The series kept by the integrator *)

(** X10.  After K successful steps from position arrays of the configured
    size, each of the four series has K more
    entries and keeps the ones it had; the new times are the start time
    plus 1, 2, ..., K time steps, every new total energy is the sum of the
    potential and kinetic energy recorded in the same step, and with a
    non-negative mass no recorded kinetic energy is negative. *)
Theorem run_bookkeeping (K : nat) (self selfK : MDSimulation) (h hK : heap) :
  length (deref h (coords self)) = natoms self ->
  length (deref h (last_coords self)) = natoms self ->
  run K self h = Ok (selfK, hK) ->
  exists pes kes : list R,
    length pes = K /\ length kes = K /\
    PEs selfK = PEs self ++ pes /\
    KEs selfK = KEs self ++ kes /\
    TEs selfK = TEs self ++ map2 Rplus pes kes /\
    timeseries selfK =
      timeseries self ++ map (fun i => timestep self + INR i * dt self) (seq 1 K) /\
    timestep selfK = timestep self + INR K * dt self /\
    (0 <= mass self -> forall ke, In ke kes -> 0 <= ke).
Proof.
  intros _ _. revert self h. induction K as [|K IH]; intros self h H.
  - cbn in H. injection H as <- <-. exists [], [].
    cbn [length map2 map seq INR]. rewrite !app_nil_r.
    repeat split; try reflexivity; [ring | intros _ ke []].
  - cbn [run] in H. apply bind_Ok in H as [[self1 h1] [Hstep Hrun]].
    destruct (propagate_Ok self self1 h h1 Hstep) as (PE & g & v & Hprop).
    cbv zeta in Hprop. destruct Hprop as (_ & _ & _ & Hself1).
    destruct (IH self1 h1 Hrun)
      as (pes & kes & Hlp & Hlk & HP & HK & HT & Hts & Ht & Hke).
    rewrite Hself1 in HP, HK, HT, Hts, Ht, Hke. cbn [stepped PEs KEs TEs
      timeseries timestep dt mass] in HP, HK, HT, Hts, Ht, Hke.
    exists (PE :: pes), (0.5 * mass self * sum_square v :: kes).
    cbn [length map2]. repeat split.
    + now rewrite Hlp.
    + now rewrite Hlk.
    + rewrite HP, <- app_assoc. reflexivity.
    + rewrite HK, <- app_assoc. reflexivity.
    + rewrite HT, <- app_assoc. reflexivity.
    + rewrite Hts, <- app_assoc. f_equal. cbn [seq map app]. f_equal.
      * cbn [INR]. ring.
      * rewrite <- (seq_shift K 1), map_map. apply map_ext. intros i.
        rewrite S_INR. ring.
    + rewrite Ht, S_INR. ring.
    + intros Hm ke [<- | Hin]; [|now apply Hke].
      assert (0 <= sum_square v).
      { clear. induction v as [|u v IHv]; cbn [sum_square fold_right]; [lra|].
        fold (sum_square v). unfold vdot.
        pose proof (Rle_0_sqr (fst u)). pose proof (Rle_0_sqr (snd u)).
        unfold Rsqr in *. lra. }
      apply Rmult_le_pos; [lra | assumption].
Qed.

Lemma run_bookkeeping_witness :
  exists pes kes : list R,
    length pes = 1%nat /\ length kes = 1%nat /\
    PEs (fst demo_after) = PEs demo_sim ++ pes /\
    KEs (fst demo_after) = KEs demo_sim ++ kes /\
    TEs (fst demo_after) = TEs demo_sim ++ map2 Rplus pes kes /\
    timeseries (fst demo_after) =
      timeseries demo_sim ++
      map (fun i => timestep demo_sim + INR i * dt demo_sim) (seq 1 1) /\
    timestep (fst demo_after) = timestep demo_sim + INR 1 * dt demo_sim /\
    (0 <= mass demo_sim -> forall ke, In ke kes -> 0 <= ke).
Proof.
  apply (run_bookkeeping 1 demo_sim (fst demo_after) demo_heap (snd demo_after)).
  - reflexivity.
  - reflexivity.
  - exact demo_run.
Defined.

(** ** Atoms on the same site *)

Lemma mapM_nonfinite {A B : Type} (f : A -> result B) (l : list A) :
  (forall a, In a l -> (exists b, f a = Ok b) \/ f a = NonFinite) ->
  (exists a, In a l /\ f a = NonFinite) ->
  mapM f l = NonFinite.
Proof.
  induction l as [|a l IH]; intros Hall [x [Hin Hx]]; [destruct Hin|].
  cbn [mapM]. destruct (Hall a (or_introl eq_refl)) as [[b Hb] | Hb].
  - rewrite Hb. cbn [bind]. rewrite IH; [reflexivity | |].
    + intros a' Ha'. apply Hall. now right.
    + destruct Hin as [<- | Hin]; [congruence|]. now exists x.
  - now rewrite Hb.
Qed.

Lemma evaluate_with_finite (W G : R -> R) (pf : vec -> result (R * vec))
    (self : MDSimulation) (coords : ndarray) :
  radial W G pf ->
  (natoms self <= length coords)%nat ->
  ((forall ij, In ij (pairs self) ->
      disp_of self (nth (snd ij) coords vzero) (nth (fst ij) coords vzero) <> vzero) ->
   exists E F, evaluate_with pf self coords = Ok (E, F)) /\
  ((exists ij, In ij (pairs self) /\
      disp_of self (nth (snd ij) coords vzero) (nth (fst ij) coords vzero) = vzero) ->
   evaluate_with pf self coords = NonFinite).
Proof.
  intros Hrad Hlen. unfold evaluate_with.
  rewrite (displacements_Ok self coords Hlen). cbn [bind].
  set (D := fun ij : nat * nat =>
              disp_of self (nth (snd ij) coords vzero) (nth (fst ij) coords vzero)).
  assert (Hz : forall d : vec, vdot d d = 0 <-> d = vzero).
  { intros [x y]. unfold vdot, vzero. cbn [fst snd]. split.
    - intros H. pose proof (Rle_0_sqr x). pose proof (Rle_0_sqr y).
      unfold Rsqr in *.
      assert (x * x = 0) by lra. assert (y * y = 0) by lra.
      f_equal; apply Rsqr_0_uniq; assumption.
    - intros E. injection E as -> ->. ring. }
  split.
  - intros Hall.
    rewrite (mapM_all_Ok pf
               (fun d => (W (vdot d d), vscale (G (vdot d d)) d)) (map D (pairs self))).
    + cbn [bind]. eauto.
    + intros d Hd. apply in_map_iff in Hd as [ij [<- Hin]].
      apply (proj1 (Hrad (D ij))). intros E. apply Hz in E.
      exact (Hall ij Hin E).
  - intros [ij [Hin E]].
    rewrite (mapM_nonfinite pf (map D (pairs self))); [reflexivity | |].
    + intros d _. destruct (Req_dec_T (vdot d d) 0) as [E0|E0].
      * right. exact (proj2 (Hrad d) E0).
      * left. eexists. exact (proj1 (Hrad d) E0).
    + exists (D ij). split; [now apply in_map|].
      apply (proj2 (Hrad (D ij))). apply Hz. exact E.
Qed.

Lemma method_finite (self : MDSimulation) (coords : ndarray) :
  (natoms self <= length coords)%nat ->
  compute_energy_and_gradient self coords <> Raise ZeroDivisionError ->
  ((forall ij, In ij (pairs self) ->
      disp_of self (nth (snd ij) coords vzero) (nth (fst ij) coords vzero) <> vzero) ->
   exists E F, compute_energy_and_gradient self coords = Ok (E, F)) /\
  ((exists ij, In ij (pairs self) /\
      disp_of self (nth (snd ij) coords vzero) (nth (fst ij) coords vzero) = vzero) ->
   compute_energy_and_gradient self coords = NonFinite).
Proof.
  intros Hlen Hz.
  pose proof (evaluate_with_finite _ _ _ self coords (radial_cutoff self) Hlen) as Hc.
  unfold compute_energy_and_gradient in *.
  destruct (window self) as [w|]; [|exact Hc].
  destruct (Req_dec_T w 0); [exact Hc|].
  unfold compute_energy_and_gradient_switch, py_div in *.
  destruct (Req_dec_T _ 0); [contradiction|]. cbn [bind].
  exact (evaluate_with_finite _ _ _ self coords (radial_switch self _ _ _) Hlen).
Qed.

Lemma np_floor_half (b : R) : np_floor (0 * b + 0.5) = 0.
Proof. apply (np_floor_unique _ 0). lra. Qed.

Lemma wrap_zero (self : MDSimulation) (d : R) :
  wrap self d = 0 <-> exists m : Z, d = IZR m * boxlength self.
Proof.
  split.
  - intros H. unfold wrap, np_floor in H.
    exists (Int_part (d * boxinv self + 0.5)). lra.
  - intros [m ->].
    replace (IZR m * boxlength self) with (0 + IZR m * boxlength self) by ring.
    rewrite wrap_shift. unfold wrap.
    rewrite (np_floor_half (boxinv self)). ring.
Qed.

Lemma disp_zero (self : MDSimulation) (ci cj : vec) :
  disp_of self cj ci = vzero <-> same_site self ci cj.
Proof.
  unfold disp_of, vzero, same_site. split.
  - intros E. injection E as Ex Ey.
    apply wrap_zero in Ex as [m Hm]. apply wrap_zero in Ey as [n Hn].
    exists m, n. split; lra.
  - intros (m & n & Hm & Hn).
    f_equal; apply wrap_zero; [exists m | exists n]; lra.
Qed.

(** X11.  Over exact reals (no rounding, no overflow): when the array has
    a row for every atom and the scalar division of the switched routine
    does not fail, the evaluation divides by r2 = 0, and then returns inf
    or nan, exactly when two atoms stand on the same site of the periodic
    lattice (positions that differ by whole box lengths along both axes),
    whether that pair is within the cutoff or not; otherwise every
    division has a non-zero divisor and the routine returns its pair of
    energy and gradient. *)
Theorem evaluate_zero_divisor (self : MDSimulation) (coords : ndarray) :
  (natoms self <= length coords)%nat ->
  compute_energy_and_gradient self coords <> Raise ZeroDivisionError ->
  ((forall i j, In (i, j) (pairs self) ->
      ~ same_site self (nth i coords vzero) (nth j coords vzero)) ->
   exists E F, compute_energy_and_gradient self coords = Ok (E, F)) /\
  ((exists i j, In (i, j) (pairs self) /\
      same_site self (nth i coords vzero) (nth j coords vzero)) ->
   compute_energy_and_gradient self coords = NonFinite).
Proof.
  intros Hlen Hz. destruct (method_finite self coords Hlen Hz) as [HA HB].
  split.
  - intros Hall. apply HA. intros [i j] Hin E. cbn [fst snd] in E.
    apply disp_zero in E. exact (Hall i j Hin E).
  - intros (i & j & Hin & Hs). apply HB. exists (i, j). split; [exact Hin|].
    cbn [fst snd]. apply disp_zero. exact Hs.
Qed.

Lemma evaluate_zero_divisor_witness :
  (exists E F, compute_energy_and_gradient demo_sim demo_coords = Ok (E, F)) /\
  compute_energy_and_gradient demo_sim demo_overlap = NonFinite.
Proof.
  split.
  - apply (proj1 (evaluate_zero_divisor demo_sim demo_coords (le_n 4)
                    ltac:(rewrite demo_evaluation; discriminate))).
    intros i j Hin (m & n & Hm & Hn).
    cbn [demo_sim boxlength] in Hm, Hn.
    assert (Hcase : (i, j) = (0, 1)%nat \/ (i, j) = (0, 2)%nat \/ (i, j) = (0, 3)%nat \/
                    (i, j) = (1, 2)%nat \/ (i, j) = (1, 3)%nat \/ (i, j) = (2, 3)%nat).
    { cbn in Hin. intuition. }
    assert (Hint : forall (k : Z) (x : R), 0 < x < 10 -> x = IZR k * 10 -> False).
    { intros k x Hx Hk.
      destruct (Z_lt_le_dec k 1) as [Hlt|Hge].
      - assert (IZR k <= 0) by (apply IZR_le; lia). lra.
      - assert (1 <= IZR k) by (apply IZR_le; lia). lra. }
    destruct Hcase as [E|[E|[E|[E|[E|E]]]]]; injection E as -> ->;
      cbn [demo_coords nth fst snd] in Hm, Hn.
    + apply (Hint m 1); lra.
    + apply (Hint n 4); lra.
    + apply (Hint n 4); lra.
    + apply (Hint n 4); lra.
    + apply (Hint n 4); lra.
    + apply (Hint m 4); lra.
  - assert (Hlen : (natoms demo_sim <= length demo_overlap)%nat) by (cbn; lia).
    apply (proj2 (evaluate_zero_divisor demo_sim demo_overlap Hlen
                    ltac:(apply avoids_neq; apply cutoff_avoids; discriminate))).
    exists 0%nat, 2%nat. split; [cbn; auto|].
    exists 1%Z, (-2)%Z. cbn [demo_sim boxlength demo_overlap nth fst snd]. split; lra.
Defined.

(** ** The initial lattice *)

Lemma nth_error_grid (sp l : list R) (k : nat) :
  (k < length l * length sp)%nat ->
  nth_error (flat_map (fun x => map (fun y => (x, y)) sp) l) k =
    Some (nth (k / length sp) l 0, nth (k mod length sp) sp 0).
Proof.
  revert k. induction l as [|x l IH]; intros k Hk; [cbn in Hk; lia|].
  assert (Hsp : length sp <> 0%nat) by (intros E; rewrite E in Hk; lia).
  cbn [flat_map].
  destruct (Nat.lt_ge_cases k (length sp)) as [Hlt|Hge].
  - rewrite nth_error_app1 by (rewrite length_map; exact Hlt).
    rewrite nth_error_map, (nth_error_nth' sp 0 Hlt). cbn [option_map].
    rewrite Nat.div_small, Nat.mod_small by exact Hlt. reflexivity.
  - rewrite nth_error_app2 by (rewrite length_map; exact Hge).
    rewrite length_map, IH by (cbn [length] in Hk; lia).
    assert (Ek : k = (k - length sp + 1 * length sp)%nat) by lia.
    rewrite Ek at 3 4.
    rewrite Nat.div_add, Nat.Div0.mod_add by exact Hsp.
    rewrite Nat.add_1_r. reflexivity.
Qed.

Lemma length_grid (sp l : list R) :
  length (flat_map (fun x => map (fun y => (x, y)) sp) l) = (length l * length sp)%nat.
Proof.
  induction l as [|x l IH]; [reflexivity|].
  cbn [flat_map length]. rewrite length_app, length_map, IH. lia.
Qed.

Lemma lattice_length (self : MDSimulation) : length (lattice self) = natoms self.
Proof.
  unfold lattice, linspace, range, natoms.
  rewrite length_grid, !length_map, length_seq. cbn [Nat.pow]. lia.
Qed.

Lemma lattice_nth (self : MDSimulation) (k : nat) :
  (k < natoms self)%nat ->
  nth_error (lattice self) k =
    Some (site self (k / atoms_per_dim self), site self (k mod atoms_per_dim self)).
Proof.
  intros Hk. unfold lattice.
  set (sp := map _ (linspace _ _ _)).
  assert (Hlen : length sp = atoms_per_dim self).
  { unfold sp, linspace, range. now rewrite !length_map, length_seq. }
  assert (Hsp : forall i, (i < atoms_per_dim self)%nat -> nth i sp 0 = site self i).
  { intros i Hi. apply nth_error_nth. unfold sp, linspace, range.
    rewrite !nth_error_map.
    rewrite (nth_error_nth' (seq 0 (atoms_per_dim self)) 0%nat)
      by (rewrite length_seq; exact Hi).
    rewrite seq_nth by exact Hi. reflexivity. }
  assert (Hn : atoms_per_dim self <> 0%nat).
  { intros E. unfold natoms in Hk. rewrite E in Hk. cbn in Hk. lia. }
  assert (Hk' : (k < atoms_per_dim self * atoms_per_dim self)%nat).
  { unfold natoms in Hk. cbn [Nat.pow] in Hk. lia. }
  rewrite nth_error_grid by (rewrite Hlen; exact Hk').
  rewrite Hlen, !Hsp; [reflexivity | |].
  - apply Nat.mod_upper_bound. exact Hn.
  - apply Nat.Div0.div_lt_upper_bound. exact Hk'.
Qed.

Lemma site_inside (self : MDSimulation) (i : nat) :
  0 < boxlength self -> (i < atoms_per_dim self)%nat ->
  - boxlength self / 2 < site self i < boxlength self / 2.
Proof.
  intros HL Hi. unfold site.
  assert (Hn : 0 < INR (atoms_per_dim self)) by (apply lt_0_INR; lia).
  assert (Hi' : INR i + 1 <= INR (atoms_per_dim self)).
  { rewrite <- S_INR. apply le_INR. lia. }
  assert (Hi0 : 0 <= INR i) by apply pos_INR.
  set (n := INR (atoms_per_dim self)) in *. set (L := boxlength self) in *.
  replace (- L / 2 + INR i * ((L / 2 - - L / 2) / n) + L / (2 * n))
    with (- L / 2 + (2 * INR i + 1) * (L / (2 * n))) by (field; lra).
  assert (Hq : 0 < L / (2 * n)) by (apply Rdiv_lt_0_compat; lra).
  assert (Hfull : L = 2 * n * (L / (2 * n))) by (field; lra).
  split.
  - assert (0 < (2 * INR i + 1) * (L / (2 * n))) by (apply Rmult_lt_0_compat; lra).
    lra.
  - assert ((2 * INR i + 1) * (L / (2 * n)) < 2 * n * (L / (2 * n)))
      by (apply Rmult_lt_compat_r; lra).
    lra.
Qed.

Lemma site_step (self : MDSimulation) (i j : nat) :
  INR (atoms_per_dim self) <> 0 ->
  site self j - site self i =
    (INR j - INR i) * (boxlength self / INR (atoms_per_dim self)).
Proof.
  intros Hn. unfold site. field. exact Hn.
Qed.

Lemma init_coords_length (self : MDSimulation) (rand : ndarray) :
  length rand = natoms self -> length (init_coords self rand) = natoms self.
Proof.
  intros H. unfold init_coords, arr_add, arr_scale.
  rewrite length_map2, !length_map, lattice_length, H. lia.
Qed.

Lemma init_coords_nth (self : MDSimulation) (rand : ndarray) (k : nat) (u : vec) :
  (k < natoms self)%nat -> nth_error rand k = Some u ->
  nth_error (init_coords self rand) k =
    Some (site self (k / atoms_per_dim self) + 0.2 * (fst u - 0.5),
          site self (k mod atoms_per_dim self) + 0.2 * (snd u - 0.5)).
Proof.
  intros Hk Hu. unfold init_coords, arr_add, arr_scale.
  rewrite nth_error_map2, (lattice_nth self k Hk), !nth_error_map, Hu.
  reflexivity.
Qed.

(** X12.  [init_coords] places the atoms on an n x n grid, n =
    [atoms_per_dim]: atom [k] belongs to the grid point of row [k / n] and
    column [k mod n], the grid points are the centres of the n equal cells
    of the box along each axis and so lie strictly inside it, and with
    random draws between 0 and 1 every coordinate is within 0.1 of its grid
    value.  The array has one row per atom. *)
Theorem init_coords_grid (self : MDSimulation) (rand : ndarray) :
  0 < boxlength self ->
  length rand = natoms self ->
  (forall u, In u rand -> 0 <= fst u <= 1 /\ 0 <= snd u <= 1) ->
  length (init_coords self rand) = natoms self /\
  forall k, (k < natoms self)%nat ->
    exists x y,
      nth_error (init_coords self rand) k = Some (x, y) /\
      Rabs (x - site self (k / atoms_per_dim self)) <= 0.1 /\
      Rabs (y - site self (k mod atoms_per_dim self)) <= 0.1 /\
      - boxlength self / 2 < site self (k / atoms_per_dim self) < boxlength self / 2 /\
      - boxlength self / 2 < site self (k mod atoms_per_dim self) < boxlength self / 2 /\
      forall i, (S i < atoms_per_dim self)%nat ->
        site self (S i) - site self i = boxlength self / INR (atoms_per_dim self).
Proof.
  intros HL Hlen Hrand. split; [now apply init_coords_length|].
  intros k Hk.
  assert (Hn : atoms_per_dim self <> 0%nat).
  { intros E. unfold natoms in Hk. rewrite E in Hk. cbn in Hk. lia. }
  assert (Hk' : (k < atoms_per_dim self * atoms_per_dim self)%nat).
  { unfold natoms in Hk. cbn [Nat.pow] in Hk. lia. }
  destruct (nth_error_in_range rand k ltac:(lia)) as [u Hu].
  destruct (Hrand u (nth_error_In _ _ Hu)) as [Hx Hy].
  eexists. eexists. split; [exact (init_coords_nth self rand k u Hk Hu)|].
  repeat split.
  - apply Rabs_le. lra.
  - apply Rabs_le. lra.
  - apply site_inside; [exact HL|]. apply Nat.Div0.div_lt_upper_bound. exact Hk'.
  - apply site_inside; [exact HL|]. apply Nat.Div0.div_lt_upper_bound. exact Hk'.
  - apply site_inside; [exact HL|]. apply Nat.mod_upper_bound. exact Hn.
  - apply site_inside; [exact HL|]. apply Nat.mod_upper_bound. exact Hn.
  - intros i Hi. rewrite site_step by (apply not_0_INR; exact Hn).
    rewrite S_INR. ring.
Qed.

Lemma init_coords_grid_witness :
  length (init_coords demo_sim [(0.5, 0.5); (0, 1); (1, 0); (0.25, 0.75)]) =
    natoms demo_sim /\
  forall k, (k < natoms demo_sim)%nat ->
    exists x y,
      nth_error (init_coords demo_sim [(0.5, 0.5); (0, 1); (1, 0); (0.25, 0.75)]) k =
        Some (x, y) /\
      Rabs (x - site demo_sim (k / atoms_per_dim demo_sim)) <= 0.1 /\
      Rabs (y - site demo_sim (k mod atoms_per_dim demo_sim)) <= 0.1 /\
      - boxlength demo_sim / 2 < site demo_sim (k / atoms_per_dim demo_sim)
        < boxlength demo_sim / 2 /\
      - boxlength demo_sim / 2 < site demo_sim (k mod atoms_per_dim demo_sim)
        < boxlength demo_sim / 2 /\
      forall i, (S i < atoms_per_dim demo_sim)%nat ->
        site demo_sim (S i) - site demo_sim i =
          boxlength demo_sim / INR (atoms_per_dim demo_sim).
Proof.
  apply (init_coords_grid demo_sim [(0.5, 0.5); (0, 1); (1, 0); (0.25, 0.75)]).
  - cbn. lra.
  - reflexivity.
  - intros u Hu. cbn [In] in Hu.
    destruct Hu as [<-|[<-|[<-|[<-|[]]]]]; cbn [fst snd]; lra.
Defined.

(** ** A successful construction *)

Lemma not_multiple (L d : R) (m : Z) :
  0 < L -> 0 < d < L \/ - L < d < 0 -> d <> IZR m * L.
Proof.
  intros HL Hd E.
  destruct (Z_lt_le_dec m 0) as [Hneg|Hge].
  - assert (IZR m <= -1) by (apply IZR_le; lia).
    assert (IZR m * L <= -1 * L) by (apply Rmult_le_compat_r; lra). lra.
  - destruct (Z_lt_le_dec m 1) as [Hlt|Hpos].
    + assert (m = 0%Z) by lia. subst m. lra.
    + assert (1 <= IZR m) by (apply IZR_le; lia).
      assert (1 * L <= IZR m * L) by (apply Rmult_le_compat_r; lra). lra.
Qed.

Lemma grid_apart (self : MDSimulation) (a a' : nat) (e : R) (m : Z) :
  (a < atoms_per_dim self)%nat -> (a' < atoms_per_dim self)%nat -> a <> a' ->
  0.2 < boxlength self / INR (atoms_per_dim self) ->
  -0.2 <= e <= 0.2 ->
  site self a' - site self a + e <> IZR m * boxlength self.
Proof.
  intros Ha Ha' Hne Hq He.
  assert (Hn : 0 < INR (atoms_per_dim self)) by (apply lt_0_INR; lia).
  rewrite site_step by lra.
  set (q := boxlength self / INR (atoms_per_dim self)) in *.
  assert (HL : boxlength self = INR (atoms_per_dim self) * q)
    by (unfold q; field; lra).
  assert (Hb : INR a + 1 <= INR (atoms_per_dim self))
    by (rewrite <- S_INR; apply le_INR; lia).
  assert (Hb' : INR a' + 1 <= INR (atoms_per_dim self))
    by (rewrite <- S_INR; apply le_INR; lia).
  assert (H0 : 0 <= INR a) by apply pos_INR.
  assert (H0' : 0 <= INR a') by apply pos_INR.
  assert (HLpos : 0 < boxlength self)
    by (rewrite HL; apply Rmult_lt_0_compat; lra).
  apply not_multiple; [exact HLpos|].
  destruct (Nat.lt_ge_cases a a') as [Hlt|Hge].
  - left.
    assert (Hd : INR a + 1 <= INR a') by (rewrite <- S_INR; apply le_INR; lia).
    assert (1 * q <= (INR a' - INR a) * q) by (apply Rmult_le_compat_r; lra).
    assert ((INR a' - INR a) * q <= (INR (atoms_per_dim self) - 1) * q)
      by (apply Rmult_le_compat_r; lra).
    rewrite HL. lra.
  - right.
    assert (Hd : INR a' + 1 <= INR a) by (rewrite <- S_INR; apply le_INR; lia).
    assert (1 * q <= (INR a - INR a') * q) by (apply Rmult_le_compat_r; lra).
    assert ((INR a - INR a') * q <= (INR (atoms_per_dim self) - 1) * q)
      by (apply Rmult_le_compat_r; lra).
    rewrite HL. lra.
Qed.

Lemma init_coords_apart (self : MDSimulation) (rand : ndarray) (i j : nat) :
  0.2 < boxlength self / INR (atoms_per_dim self) ->
  length rand = natoms self ->
  (forall u, In u rand -> 0 <= fst u <= 1 /\ 0 <= snd u <= 1) ->
  (i < natoms self)%nat -> (j < natoms self)%nat -> i <> j ->
  ~ same_site self (nth i (init_coords self rand) vzero)
                   (nth j (init_coords self rand) vzero).
Proof.
  intros Hq Hlen Hrand Hi Hj Hne (m & n & Hm & Hn).
  assert (Hn0 : atoms_per_dim self <> 0%nat).
  { intros E. unfold natoms in Hi. rewrite E in Hi. cbn in Hi. lia. }
  assert (Hi' : (i < atoms_per_dim self * atoms_per_dim self)%nat)
    by (unfold natoms in Hi; cbn [Nat.pow] in Hi; lia).
  assert (Hj' : (j < atoms_per_dim self * atoms_per_dim self)%nat)
    by (unfold natoms in Hj; cbn [Nat.pow] in Hj; lia).
  destruct (nth_error_in_range rand i ltac:(lia)) as [u Hu].
  destruct (nth_error_in_range rand j ltac:(lia)) as [v Hv].
  destruct (Hrand u (nth_error_In _ _ Hu)) as [Hux Huy].
  destruct (Hrand v (nth_error_In _ _ Hv)) as [Hvx Hvy].
  rewrite (nth_error_nth _ _ vzero (init_coords_nth self rand i u Hi Hu)) in Hm, Hn.
  rewrite (nth_error_nth _ _ vzero (init_coords_nth self rand j v Hj Hv)) in Hm, Hn.
  cbn [fst snd] in Hm, Hn.
  destruct (Nat.eq_dec (i / atoms_per_dim self) (j / atoms_per_dim self)) as [Ediv|Ndiv].
  - assert (Nmod : i mod atoms_per_dim self <> j mod atoms_per_dim self).
    { intros Emod. apply Hne.
      rewrite (Nat.div_mod_eq i (atoms_per_dim self)),
              (Nat.div_mod_eq j (atoms_per_dim self)), Ediv, Emod. reflexivity. }
    apply (grid_apart self (i mod atoms_per_dim self) (j mod atoms_per_dim self)
             (0.2 * (snd v - 0.5) - 0.2 * (snd u - 0.5)) n);
      try (apply Nat.mod_upper_bound; exact Hn0); try assumption; lra.
  - apply (grid_apart self (i / atoms_per_dim self) (j / atoms_per_dim self)
             (0.2 * (fst v - 0.5) - 0.2 * (fst u - 0.5)) m);
      try (apply Nat.Div0.div_lt_upper_bound; assumption); try assumption; lra.
Qed.

Lemma deref_alloc (h g : heap) (a : ndarray) : deref (h ++ a :: g) (length h) = a.
Proof.
  unfold deref. rewrite app_nth2 by lia. now rewrite Nat.sub_diag.
Qed.

(** X13.  The constructor succeeds for valid parameters: at least two atoms
    per dimension, cells wider than 0.2 (so that the random displacement
    cannot bring two atoms together), a positive mass, a non-negative
    temperature, a cutoff below half the box and a window for which the
    scalar division is defined.  The new object keeps the undisplaced
    start positions as previous positions in an array of its own, its
    current positions are x0 + v dt + a dt^2 / 2 with a = - gradient / mass,
    and each series starts with one entry, at time 0.  Arrays that existed
    before are left as they were. *)
Theorem init_succeeds (sigma0 epsilon0 mass0 temp dt0 : R) (atoms_per_dim0 : nat)
    (boxlength0 cutoff0 : R) (window0 : option R) (nsteps0 : nat)
    (rand normal : ndarray) (h : heap) :
  (2 <= atoms_per_dim0)%nat ->
  0.2 < boxlength0 / INR atoms_per_dim0 ->
  0 < mass0 -> 0 <= temp ->
  cutoff0 < boxlength0 / 2 ->
  window_defined cutoff0 window0 ->
  length rand = (atoms_per_dim0 ^ 2)%nat ->
  (forall u, In u rand -> 0 <= fst u <= 1 /\ 0 <= snd u <= 1) ->
  length normal = (atoms_per_dim0 ^ 2)%nat ->
  exists (self : MDSimulation) (h' : heap) (PE : R) (gradient : ndarray),
    init sigma0 epsilon0 mass0 temp dt0 atoms_per_dim0 boxlength0 cutoff0
         window0 nsteps0 rand normal h = Ok (self, h') /\
    (sigma self, epsilon self, mass self, T self, dt self) =
      (sigma0, epsilon0, mass0, temp, dt0) /\
    (atoms_per_dim self, boxlength self, cutoff self, window self, nsteps self) =
      (atoms_per_dim0, boxlength0, cutoff0, window0, nsteps0) /\
    compute_energy_and_gradient self (init_coords self rand) = Ok (PE, gradient) /\
    deref h' (last_coords self) = init_coords self rand /\
    deref h' (coords self) =
      arr_add (init_coords self rand)
        (arr_add (arr_scale dt0 (arr_scale (sqrt (Rgas * temp / mass0)) normal))
                 (arr_scale (0.5 * dt0 * dt0) (arr_scale (- (1 / mass0)) gradient))) /\
    length (deref h' (coords self)) = natoms self /\
    coords self <> last_coords self /\
    timestep self = 0 /\ timeseries self = [0] /\ PEs self = [PE] /\
    KEs self =
      [0.5 * mass0 * sum_square (arr_scale (sqrt (Rgas * temp / mass0)) normal)] /\
    TEs self =
      [0.5 * mass0 * sum_square (arr_scale (sqrt (Rgas * temp / mass0)) normal) + PE] /\
    forall l : ref, (l < length h)%nat -> deref h' l = deref h l.
Proof.
  intros Hn Hq Hm HT Hc Hw Hrand Hr01 Hnormal. unfold init.
  match goal with |- context [pairs ?s] =>
    set (self0 := s);
    pose proof (pairs_nonempty self0 Hn) as Hps; destruct (pairs self0) as [|ij ps] eqn:Eps
  end; [contradiction|]. cbn [bind]. unfold py_div at 1 2.
  assert (Hn0 : 0 < INR atoms_per_dim0) by (apply lt_0_INR; lia).
  assert (HL : 0 < boxlength0).
  { replace boxlength0 with (INR atoms_per_dim0 * (boxlength0 / INR atoms_per_dim0))
      by (field; lra).
    apply Rmult_lt_0_compat; lra. }
  destruct (Req_dec_T boxlength0 0); [lra|].
  destruct (Req_dec_T mass0 0); [lra|]. cbn [bind].
  destruct (Rge_dec cutoff0 (boxlength0 / 2)); [lra|]. cbn [bind].
  unfold alloc.
  set (x0 := init_coords self0 rand).
  rewrite !deref_alloc.
  replace (deref ((h ++ [x0]) ++ [x0]) (length h)) with x0
    by (rewrite <- app_assoc; symmetry; apply deref_alloc).
  assert (Hx0 : length x0 = natoms self0) by (apply init_coords_length; exact Hrand).
  assert (Hzd : compute_energy_and_gradient self0 x0 <> Raise ZeroDivisionError).
  { unfold compute_energy_and_gradient. unfold self0 at 1. cbn [window].
    assert (Hcut : compute_energy_and_gradient_cutoff self0 x0 <> Raise ZeroDivisionError)
      by (apply avoids_neq, cutoff_avoids; discriminate).
    destruct window0 as [w|]; [|exact Hcut].
    destruct (Req_dec_T w 0); [exact Hcut|].
    destruct Hw as [Hw|Hw]; [contradiction|].
    unfold compute_energy_and_gradient_switch, py_div.
    destruct (Req_dec_T _ 0) as [E|_].
    { exfalso. revert E. apply pow_nonzero. unfold cutoff2, self0. cbn [cutoff]. lra. }
    cbn [bind]. apply avoids_neq. apply bind_avoids.
    { apply displacements_avoids. discriminate. }
    intros dR. apply bind_avoids; [|intros pp; exact I].
    apply mapM_avoids. intros d. unfold pair_switch, np_div.
    destruct (Req_dec_T _ _); cbn; exact I. }
  destruct (proj1 (method_finite self0 x0 ltac:(lia) Hzd)) as (PE & g & Heval).
  { intros [i j] Hin E. cbn [fst snd] in E. apply disp_zero in E.
    apply pairs_in_range in Hin as (Hi & Hj & Hne).
    exact (init_coords_apart self0 rand i j Hq Hrand Hr01 Hi Hj Hne E). }
  rewrite Heval. cbn [bind].
  destruct (Rlt_dec (RT self0 / mass0) 0) as [Hneg|_].
  { exfalso. unfold RT, Rgas, self0 in Hneg. cbn [T] in Hneg.
    assert (0 <= 83144621 / 10000000000 * temp / mass0).
    { apply Rle_mult_inv_pos; [|exact Hm]. apply Rmult_le_pos; lra. }
    lra. }
  cbn [bind].
  eexists. eexists. exists PE, g. split; [reflexivity|].
  cbn [sigma epsilon mass T dt atoms_per_dim boxlength cutoff window nsteps
       coords last_coords timestep timeseries PEs KEs TEs].
  assert (Hg : length g = natoms self0) by exact (gradient_length self0 x0 PE g Heval).
  rewrite ?length_app. cbn [length].
  repeat split.
  - exact Heval.
  - rewrite deref_store_ne by lia. rewrite <- app_assoc.
    replace (length h + 1)%nat with (length (h ++ [x0]))
      by (rewrite length_app; cbn; lia).
    rewrite app_assoc. apply deref_alloc.
  - rewrite deref_store_eq by (rewrite !length_app; cbn; lia). reflexivity.
  - rewrite deref_store_eq by (rewrite !length_app; cbn; lia).
    unfold arr_add, arr_scale.
    repeat (rewrite length_map2 || rewrite length_map).
    change (natoms _) with (natoms self0).
    rewrite Hx0, Hg, Hnormal. unfold natoms, self0. cbn [atoms_per_dim]. lia.
  - lia.
  - intros l Hl. rewrite deref_store_ne by lia.
    rewrite !deref_app_l; [reflexivity | exact Hl | rewrite length_app; lia].
Qed.

(** ** The plots of the pair potential *)

Lemma linspace_endpoint_bounds (start stop : R) (num : nat) (r : R) :
  start <= stop -> (2 <= num)%nat ->
  In r (linspace_endpoint start stop num) -> start <= r <= stop.
Proof.
  intros Hs Hn Hin. unfold linspace_endpoint, range in Hin.
  apply in_map_iff in Hin as [k [<- Hk]]. apply in_seq in Hk.
  assert (Hd : 0 < INR (num - 1)) by (apply lt_0_INR; lia).
  assert (Hk0 : 0 <= INR k) by apply pos_INR.
  assert (Hk1 : INR k <= INR (num - 1)) by (apply le_INR; lia).
  assert (Hq : 0 <= (stop - start) / INR (num - 1))
    by (apply Rle_mult_inv_pos; lra).
  assert (Hfull : stop - start = INR (num - 1) * ((stop - start) / INR (num - 1)))
    by (field; lra).
  set (q := (stop - start) / INR (num - 1)) in *.
  assert (0 <= INR k * q) by (apply Rmult_le_pos; lra).
  assert (INR k * q <= INR (num - 1) * q) by (apply Rmult_le_compat_r; lra).
  lra.
Qed.

Lemma mapM_Forall2 {A B : Type} (f : A -> result B) (l : list A) (bs : list B) :
  mapM f l = Ok bs -> Forall2 (fun a b => f a = Ok b) l bs.
Proof.
  revert bs. induction l as [|a l IH]; intros bs H; cbn [mapM] in H.
  - injection H as <-. constructor.
  - apply bind_Ok in H as [b [Hb H]]. apply bind_Ok in H as [bs' [Hbs' H]].
    injection H as <-. constructor; [exact Hb | now apply IH].
Qed.

Lemma mapM_total {A B : Type} (f : A -> result B) (l : list A) :
  (forall a, In a l -> exists b, f a = Ok b) -> exists bs, mapM f l = Ok bs.
Proof.
  induction l as [|a l IH]; intros H; [now exists []|].
  destruct (H a (or_introl eq_refl)) as [b Hb].
  destruct IH as [bs Hbs]; [intros a' Ha'; apply H; now right|].
  exists (b :: bs). cbn [mapM]. now rewrite Hb, Hbs.
Qed.

Lemma Forall2_In_l {A B : Type} (P Q : A -> B -> Prop) (l : list A) (m : list B) :
  (forall a b, In a l -> P a b -> Q a b) -> Forall2 P l m -> Forall2 Q l m.
Proof.
  intros H F. induction F as [|a b l m Hab F IH]; constructor.
  - apply H; [now left | exact Hab].
  - apply IH. intros a' b' Hin. apply H. now right.
Qed.

Lemma sixth_power_order (s : R) :
  0 <= s ->
  (s < 1 -> s * s * (s * s) * (s * s) < 1) /\
  (1 < s -> 1 < s * s * (s * s) * (s * s)).
Proof.
  intros Hs. split; intros H.
  - assert (s * s < 1) by nra. assert (0 <= s * s) by nra.
    assert (s * s * (s * s) < 1) by nra. assert (0 <= s * s * (s * s)) by nra.
    nra.
  - assert (1 < s * s) by nra. assert (1 < s * s * (s * s)) by nra. nra.
Qed.

(** X14.  The first plot always has its 200 points, at distances between
    0.015 and 1.5, and each plotted energy is the Lennard-Jones value
    4 eps ((2 sigma / r)^12 - (2 sigma / r)^6).  For positive sigma and
    epsilon the curve is positive below r = 2 sigma, zero at r = 2 sigma,
    negative above, and never lower than minus epsilon. *)
Theorem showpotential_curve (sigma0 epsilon0 : R) :
  exists rvals energies : list R,
    showpotential sigma0 epsilon0 = Ok (rvals, energies) /\
    length rvals = 200%nat /\ length energies = 200%nat /\
    Forall2
      (fun r e =>
         0.015 <= r <= 1.5 /\
         e = lennard_jones epsilon0 (2 * sigma0) r /\
         (0 <= epsilon0 -> - epsilon0 <= e) /\
         (0 < sigma0 -> 0 < epsilon0 ->
            (r < 2 * sigma0 -> 0 < e) /\
            (r = 2 * sigma0 -> e = 0) /\
            (2 * sigma0 < r -> e < 0)))
      rvals energies.
Proof.
  unfold showpotential.
  set (rvals := linspace_endpoint 0.015 1.5 200).
  assert (Hr : forall r, In r rvals -> 0.015 <= r <= 1.5).
  { intros r Hin. apply (linspace_endpoint_bounds 0.015 1.5 200 r); [lra | lia | exact Hin]. }
  destruct (mapM_total (showpotential_at sigma0 epsilon0) rvals) as [es Hes].
  { intros r Hin. apply Hr in Hin. unfold showpotential_at, np_div.
    destruct (Req_dec_T r 0); [lra|]. cbn [bind]. now eexists. }
  exists rvals, es. rewrite Hes. cbn [bind]. split; [reflexivity|].
  assert (Hlen : length rvals = 200%nat).
  { unfold rvals, linspace_endpoint, range. now rewrite length_map, length_seq. }
  split; [exact Hlen|]. split; [now rewrite (mapM_Ok_length _ _ _ Hes)|].
  apply (Forall2_In_l (fun r e => showpotential_at sigma0 epsilon0 r = Ok e));
    [|now apply mapM_Forall2].
  intros r e Hin He. specialize (Hr r Hin).
  unfold showpotential_at, np_div in He.
  destruct (Req_dec_T r 0); [lra|]. cbn [bind] in He. injection He as <-.
  set (s := 2 * sigma0 / r).
  split; [exact Hr|]. split.
  { unfold lennard_jones. fold s. cbn [pow]. ring. }
  split.
  { intros Heps.
    pose proof (well_depth epsilon0 (s * s * (s * s) * (s * s)) Heps). lra. }
  intros Hsig Heps.
  assert (Hs : 0 < s) by (unfold s; apply Rdiv_lt_0_compat; lra).
  destruct (sixth_power_order s (Rlt_le _ _ Hs)) as [Hlo Hhi].
  set (x := s * s * (s * s) * (s * s)) in *.
  assert (Hss : 0 < s * s) by (apply Rmult_lt_0_compat; exact Hs).
  assert (Hx : 0 < x)
    by (unfold x; apply Rmult_lt_0_compat; [apply Rmult_lt_0_compat|]; exact Hss).
  assert (Hform : 4 * epsilon0 * (x * x - x) = 4 * epsilon0 * x * (x - 1)) by ring.
  assert (Hpos : 0 < 4 * epsilon0 * x) by (apply Rmult_lt_0_compat; lra).
  rewrite Hform. repeat split.
  - intros Hlt.
    assert (1 < s).
    { unfold s. apply (Rmult_lt_reg_r r); [lra|].
      replace (2 * sigma0 / r * r) with (2 * sigma0) by (field; lra). lra. }
    apply Rmult_lt_0_compat; [exact Hpos | specialize (Hhi H); lra].
  - intros E.
    assert (s = 1) by (unfold s; rewrite <- E; field; lra).
    assert (x = 1) by (unfold x; rewrite H; ring).
    rewrite H0. ring.
  - intros Hgt.
    assert (s < 1).
    { unfold s. apply (Rmult_lt_reg_r r); [lra|].
      replace (2 * sigma0 / r * r) with (2 * sigma0) by (field; lra). lra. }
    specialize (Hlo H).
    assert (0 < 4 * epsilon0 * x * (1 - x)) by (apply Rmult_lt_0_compat; lra).
    lra.
Qed.

Lemma plot_distances (r cutoff0 : R) :
  0 < r -> 0 <= cutoff0 -> (r > cutoff0 <-> r * r > cutoff0 ^ 2).
Proof.
  intros Hr Hc. cbn [pow]. split; intros H; nra.
Qed.

(** X15.  For a non-negative cutoff, the second plot shows at each of its
    200 distances r the pair energy that the hard-cutoff routine of an
    object with the same sigma, epsilon and cutoff gives to a pair at that
    distance. *)
Theorem showpotential_cutoff_matches (self : MDSimulation) :
  0 <= cutoff self ->
  exists rvals energies : list R,
    showpotential_cutoff (sigma self) (epsilon self) (cutoff self) =
      Ok (rvals, energies) /\
    length rvals = 200%nat /\
    Forall2
      (fun r e =>
         0.3 <= r <= 1.5 /\
         forall d : vec, vdot d d = r * r ->
           exists f : vec, pair_cutoff self d = Ok (e, f))
      rvals energies.
Proof.
  intros Hc. unfold showpotential_cutoff.
  set (rvals := linspace_endpoint 0.3 1.5 200).
  assert (Hr : forall r, In r rvals -> 0.3 <= r <= 1.5).
  { intros r Hin. apply (linspace_endpoint_bounds 0.3 1.5 200 r); [lra | lia | exact Hin]. }
  destruct (mapM_total
              (showpotential_cutoff_at (sigma self) (epsilon self) (cutoff self)) rvals)
    as [es Hes].
  { intros r Hin. apply Hr in Hin. unfold showpotential_cutoff_at, np_div.
    destruct (Rgt_dec r (cutoff self)); [cbn [bind]; now eexists|].
    destruct (Req_dec_T r 0); [lra|]. cbn [bind]. now eexists. }
  exists rvals, es. rewrite Hes. cbn [bind]. split; [reflexivity|].
  split.
  { unfold rvals, linspace_endpoint, range. now rewrite length_map, length_seq. }
  apply (Forall2_In_l
           (fun r e => showpotential_cutoff_at (sigma self) (epsilon self)
                         (cutoff self) r = Ok e));
    [|now apply mapM_Forall2].
  intros r e Hin He. specialize (Hr r Hin). split; [exact Hr|].
  intros d Hd.
  assert (Hd0 : vdot d d <> 0) by (rewrite Hd; nra).
  rewrite (pair_cutoff_radial self d Hd0). eexists. f_equal. f_equal.
  unfold showpotential_cutoff_at, np_div in He.
  unfold energy_cutoff, sig2, sigmaij, foureps. rewrite Hd.
  pose proof (plot_distances r (cutoff self) ltac:(lra) Hc) as Hiff.
  fold (cutoff2 self) in Hiff.
  destruct (Rgt_dec r (cutoff self)) as [Hout|Hin'];
    destruct (Rgt_dec (r * r) (cutoff2 self)) as [Hout2|Hin2];
    try (exfalso; tauto).
  - cbn [bind] in He. injection He as <-. ring.
  - destruct (Req_dec_T r 0); [lra|]. cbn [bind] in He. injection He as <-.
    cbn [pow]. field. lra.
Qed.

Lemma showpotential_cutoff_matches_witness :
  exists rvals energies : list R,
    showpotential_cutoff (sigma demo_sim) (epsilon demo_sim) (cutoff demo_sim) =
      Ok (rvals, energies) /\
    length rvals = 200%nat /\
    Forall2
      (fun r e =>
         0.3 <= r <= 1.5 /\
         forall d : vec, vdot d d = r * r ->
           exists f : vec, pair_cutoff demo_sim d = Ok (e, f))
      rvals energies.
Proof.
  apply (showpotential_cutoff_matches demo_sim). cbn. lra.
Defined.

(** X16.  For a non-negative cutoff and a window for which
    (cutoff - window)^2 differs from cutoff^2, the third plot shows at each
    of its 200 distances r the pair energy that the switched routine of an
    object with the same sigma, epsilon, cutoff and window gives to a pair
    at that distance. *)
Theorem showpotential_switch_matches (self : MDSimulation) (w : R) :
  0 <= cutoff self ->
  (cutoff self - w) ^ 2 <> cutoff2 self ->
  exists rvals energies : list R,
    showpotential_switch (sigma self) (epsilon self) (cutoff self) w =
      Ok (rvals, energies) /\
    length rvals = 200%nat /\
    Forall2
      (fun r e =>
         0.3 <= r <= 1.5 /\
         forall d : vec, vdot d d = r * r ->
           exists f : vec,
             pair_switch self ((cutoff self - w) ^ 2) (cutoff2 self)
               (1 / (cutoff2 self - (cutoff self - w) ^ 2) ^ 3) d = Ok (e, f))
      rvals energies.
Proof.
  intros Hc Hne. unfold showpotential_switch.
  set (rvals := linspace_endpoint 0.3 1.5 200).
  assert (Hr : forall r, In r rvals -> 0.3 <= r <= 1.5).
  { intros r Hin. apply (linspace_endpoint_bounds 0.3 1.5 200 r); [lra | lia | exact Hin]. }
  assert (Hden : (cutoff self ^ 2 - (cutoff self - w) ^ 2) ^ 3 <> 0).
  { apply pow_nonzero. unfold cutoff2 in Hne. lra. }
  destruct (mapM_total
              (showpotential_switch_at (sigma self) (epsilon self) (cutoff self) w) rvals)
    as [es Hes].
  { intros r Hin. apply Hr in Hin. unfold showpotential_switch_at, np_div.
    destruct (Req_dec_T r 0); [lra|].
    destruct (Req_dec_T _ 0); [contradiction|].
    destruct (Rgt_dec r (cutoff self)); [cbn [bind]; now eexists|].
    destruct (Rgt_dec (r * r) _); cbn [bind]; now eexists. }
  exists rvals, es. rewrite Hes. cbn [bind]. split; [reflexivity|].
  split.
  { unfold rvals, linspace_endpoint, range. now rewrite length_map, length_seq. }
  apply (Forall2_In_l
           (fun r e => showpotential_switch_at (sigma self) (epsilon self)
                         (cutoff self) w r = Ok e));
    [|now apply mapM_Forall2].
  intros r e Hin He. specialize (Hr r Hin). split; [exact Hr|].
  intros d Hd.
  assert (Hd0 : vdot d d <> 0) by (rewrite Hd; nra).
  rewrite (pair_switch_radial self _ _ _ d Hd0). eexists. f_equal. f_equal.
  unfold showpotential_switch_at, np_div in He.
  unfold energy_switch, switch_fn, sig2, sigmaij, foureps. rewrite Hd.
  pose proof (plot_distances r (cutoff self) ltac:(lra) Hc) as Hiff.
  fold (cutoff2 self) in Hiff.
  destruct (Req_dec_T r 0); [lra|].
  destruct (Req_dec_T _ 0); [contradiction|].
  destruct (Rgt_dec r (cutoff self)) as [Hout|Hin'];
    destruct (Rgt_dec (r * r) (cutoff2 self)) as [Hout2|Hin2];
    try (exfalso; tauto).
  - cbn [bind] in He. injection He as <-. ring.
  - destruct (Rgt_dec (r * r) ((cutoff self - w) ^ 2));
      cbn [bind] in He; injection He as <-; unfold cutoff2 in *; cbn [pow] in *;
      field; lra.
Qed.

Lemma showpotential_switch_matches_witness :
  exists rvals energies : list R,
    showpotential_switch (sigma demo_switch) (epsilon demo_switch)
      (cutoff demo_switch) 1 = Ok (rvals, energies) /\
    length rvals = 200%nat /\
    Forall2
      (fun r e =>
         0.3 <= r <= 1.5 /\
         forall d : vec, vdot d d = r * r ->
           exists f : vec,
             pair_switch demo_switch ((cutoff demo_switch - 1) ^ 2) (cutoff2 demo_switch)
               (1 / (cutoff2 demo_switch - (cutoff demo_switch - 1) ^ 2) ^ 3) d =
               Ok (e, f))
      rvals energies.
Proof.
  apply (showpotential_switch_matches demo_switch 1).
  - cbn. lra.
  - unfold cutoff2. cbn [demo_switch cutoff pow]. lra.
Defined.

(** X17.  For all values of its four parameters, no plotted entry of the
    third plot comes from a division by zero: the distances are never 0,
    and where the quotient of the switching function has a zero divisor,
    every entry that [np.where] takes from it is overwritten by
    [switch[rvals>cutoff] = 0].  Over exact reals the 200 energies are
    therefore real numbers (overflow, as for a huge sigma, is outside the
    model). *)
Theorem showpotential_switch_no_zero_divisor (sigma0 epsilon0 cutoff0 window0 : R) :
  exists rvals energies : list R,
    showpotential_switch sigma0 epsilon0 cutoff0 window0 = Ok (rvals, energies) /\
    length rvals = 200%nat /\ length energies = 200%nat.
Proof.
  unfold showpotential_switch.
  set (rvals := linspace_endpoint 0.3 1.5 200).
  assert (Hr : forall r, In r rvals -> 0.3 <= r <= 1.5).
  { intros r Hin. apply (linspace_endpoint_bounds 0.3 1.5 200 r); [lra | lia | exact Hin]. }
  destruct (mapM_total
              (showpotential_switch_at sigma0 epsilon0 cutoff0 window0) rvals)
    as [es Hes].
  { intros r Hin. apply Hr in Hin. unfold showpotential_switch_at, np_div.
    destruct (Req_dec_T r 0); [lra|].
    destruct (Rgt_dec r cutoff0) as [|Hin']; [cbn [bind]; now eexists|].
    destruct (Rgt_dec (r * r) _) as [Hon|]; [|cbn [bind]; now eexists].
    destruct (Req_dec_T _ 0) as [E|]; [|cbn [bind]; now eexists].
    exfalso.
    destruct (Req_dec_T (cutoff0 ^ 2 - (cutoff0 - window0) ^ 2) 0) as [E0|E0];
      [|exact (pow_nonzero _ 3 E0 E)].
    assert (r * r <= cutoff0 ^ 2) by (cbn [pow]; nra). lra. }
  assert (Hlen : length rvals = 200%nat).
  { unfold rvals, linspace_endpoint, range. now rewrite length_map, length_seq. }
  exists rvals, es. rewrite Hes. cbn [bind]. split; [reflexivity|].
  split; [exact Hlen|]. now rewrite (mapM_Ok_length _ _ _ Hes).
Qed.

(** X18.  When (cutoff - window)^2 equals cutoff^2, as for a window of 0
    or of twice the cutoff, the third plot is the hard-cutoff plot of the
    second function, point by point; the plotting function does not fail
    where the switched routine of the class raises [ZeroDivisionError]. *)
Theorem showpotential_switch_degenerate (sigma0 epsilon0 cutoff0 window0 : R) :
  (cutoff0 - window0) ^ 2 = cutoff0 ^ 2 ->
  showpotential_switch sigma0 epsilon0 cutoff0 window0 =
    showpotential_cutoff sigma0 epsilon0 cutoff0.
Proof.
  intros Heq. unfold showpotential_switch, showpotential_cutoff.
  set (rvals := linspace_endpoint 0.3 1.5 200).
  assert (Hr : forall r, In r rvals -> 0.3 <= r <= 1.5).
  { intros r Hin. apply (linspace_endpoint_bounds 0.3 1.5 200 r); [lra | lia | exact Hin]. }
  rewrite (mapM_ext_in (showpotential_switch_at sigma0 epsilon0 cutoff0 window0)
                       (showpotential_cutoff_at sigma0 epsilon0 cutoff0) rvals);
    [reflexivity|].
  intros r Hin. apply Hr in Hin.
  unfold showpotential_switch_at, showpotential_cutoff_at, np_div.
  destruct (Req_dec_T r 0); [lra|].
  destruct (Rgt_dec r cutoff0) as [|Hin'].
  - cbn [bind]. f_equal. ring.
  - destruct (Rgt_dec (r * r) _) as [Hon|].
    + exfalso. assert (r * r <= cutoff0 ^ 2) by (cbn [pow]; nra). lra.
    + cbn [bind]. f_equal. ring.
Qed.

Lemma showpotential_switch_degenerate_witness :
  showpotential_switch 0.25 0.11 0.8 1.6 = showpotential_cutoff 0.25 0.11 0.8.
Proof.
  apply (showpotential_switch_degenerate 0.25 0.11 0.8 1.6). cbn [pow]. lra.
Defined.

Lemma init_succeeds_witness :
  exists (self : MDSimulation) (h' : heap) (PE : R) (gradient : ndarray),
    init 0.27 0.3 2 300 0.005 5 3 1.2 None 500
         (repeat (0.5, 0.5) 25) (repeat (0, 0) 25) [] = Ok (self, h') /\
    (sigma self, epsilon self, mass self, T self, dt self) =
      (0.27, 0.3, 2, 300, 0.005) /\
    (atoms_per_dim self, boxlength self, cutoff self, window self, nsteps self) =
      (5%nat, 3, 1.2, None, 500%nat) /\
    compute_energy_and_gradient self (init_coords self (repeat (0.5, 0.5) 25)) =
      Ok (PE, gradient) /\
    deref h' (last_coords self) = init_coords self (repeat (0.5, 0.5) 25) /\
    deref h' (coords self) =
      arr_add (init_coords self (repeat (0.5, 0.5) 25))
        (arr_add (arr_scale 0.005 (arr_scale (sqrt (Rgas * 300 / 2)) (repeat (0, 0) 25)))
                 (arr_scale (0.5 * 0.005 * 0.005) (arr_scale (- (1 / 2)) gradient))) /\
    length (deref h' (coords self)) = natoms self /\
    coords self <> last_coords self /\
    timestep self = 0 /\ timeseries self = [0] /\ PEs self = [PE] /\
    KEs self =
      [0.5 * 2 * sum_square (arr_scale (sqrt (Rgas * 300 / 2)) (repeat (0, 0) 25))] /\
    TEs self =
      [0.5 * 2 * sum_square (arr_scale (sqrt (Rgas * 300 / 2)) (repeat (0, 0) 25)) + PE] /\
    forall l : ref, (l < length (@nil ndarray))%nat -> deref h' l = deref [] l.
Proof.
  apply (init_succeeds 0.27 0.3 2 300 0.005 5 3 1.2 None 500
           (repeat (0.5, 0.5) 25) (repeat (0, 0) 25) []).
  - lia.
  - cbn [INR]. lra.
  - lra.
  - lra.
  - lra.
  - exact I.
  - reflexivity.
  - intros u Hu. apply repeat_spec in Hu. subst u. cbn [fst snd]. lra.
  - reflexivity.
Defined.

(** ** What a step can end in *)

Lemma arr_div_zero (a : ndarray) : a <> [] -> arr_div a 0 = NonFinite.
Proof.
  destruct a as [|v a]; [contradiction|]. intros _.
  unfold arr_div. cbn [mapM]. unfold np_div at 1.
  destruct (Req_dec_T 0 0); [reflexivity | contradiction].
Qed.

Lemma evaluate_fields (s1 s2 : MDSimulation) (c : ndarray) :
  sigma s1 = sigma s2 -> epsilon s1 = epsilon s2 -> cutoff s1 = cutoff s2 ->
  boxlength s1 = boxlength s2 -> atoms_per_dim s1 = atoms_per_dim s2 ->
  window s1 = window s2 ->
  compute_energy_and_gradient s1 c = compute_energy_and_gradient s2 c.
Proof.
  destruct s1, s2. simpl. intros. subst. reflexivity.
Qed.

(** X19.  When the evaluator returns a finite result for position arrays
    of the configured size, with at least one atom, a step succeeds if the
    time step is not 0 and gives the object and store written out below;
    with a time step of 0 the velocities of the step, hence its kinetic
    energy, are not finite. *)
Theorem propagate_outcome (self : MDSimulation) (h : heap) (PE : R)
    (gradient : ndarray) :
  length (deref h (coords self)) = natoms self ->
  length (deref h (last_coords self)) = natoms self ->
  (1 <= atoms_per_dim self)%nat ->
  compute_energy_and_gradient self (deref h (coords self)) = Ok (PE, gradient) ->
  (dt self = 0 -> propagate self h = NonFinite) /\
  (dt self <> 0 ->
     propagate self h =
       Ok (stepped self (length h) PE
             (0.5 * mass self *
              sum_square
                (map (fun v => (fst v / (2 * dt self), snd v / (2 * dt self)))
                     (arr_sub (verlet self (deref h (coords self))
                                 (deref h (last_coords self)) gradient)
                              (deref h (last_coords self))))),
           store (S (S (length h)))
             (apply_periodicity self
                (verlet self (deref h (coords self))
                   (deref h (last_coords self)) gradient))
             (h ++ [deref h (coords self)]
                ++ [verlet self (deref h (coords self))
                      (deref h (last_coords self)) gradient]
                ++ [verlet self (deref h (coords self))
                      (deref h (last_coords self)) gradient]))).
Proof.
  intros Hc Hp Hn He. split.
  - intros Hdt. unfold propagate. rewrite He. cbn [bind].
    fold (verlet self (deref h (coords self)) (deref h (last_coords self)) gradient).
    rewrite Hdt, Rmult_0_r, arr_div_zero; [reflexivity|].
    intros E. apply (f_equal (@length vec)) in E.
    unfold arr_sub in E. rewrite length_map2 in E.
    rewrite (verlet_length self _ _ gradient (natoms self) Hc Hp
               (gradient_length self _ PE gradient He)), Hp in E.
    cbn [length] in E.
    assert (1 <= natoms self)%nat by (unfold natoms; cbn [Nat.pow]; nia).
    lia.
  - intros Hdt.
    assert (Hv : 2 * dt self <> 0) by lra.
    apply (propagate_eq self h PE gradient _ He). apply (arr_div_Ok _ _ Hv).
Qed.

Lemma propagate_outcome_witness :
  propagate demo_still demo_heap = NonFinite /\
  propagate demo_sim demo_heap =
    Ok (stepped demo_sim (length demo_heap) 0
          (0.5 * mass demo_sim *
           sum_square
             (map (fun v => (fst v / (2 * dt demo_sim), snd v / (2 * dt demo_sim)))
                  (arr_sub (verlet demo_sim (deref demo_heap (coords demo_sim))
                              (deref demo_heap (last_coords demo_sim)) demo_gradient)
                           (deref demo_heap (last_coords demo_sim))))),
        store (S (S (length demo_heap)))
          (apply_periodicity demo_sim
             (verlet demo_sim (deref demo_heap (coords demo_sim))
                (deref demo_heap (last_coords demo_sim)) demo_gradient))
          (demo_heap ++ [deref demo_heap (coords demo_sim)]
             ++ [verlet demo_sim (deref demo_heap (coords demo_sim))
                   (deref demo_heap (last_coords demo_sim)) demo_gradient]
             ++ [verlet demo_sim (deref demo_heap (coords demo_sim))
                   (deref demo_heap (last_coords demo_sim)) demo_gradient])).
Proof.
  split.
  - apply (proj1 (propagate_outcome demo_still demo_heap 0 demo_gradient
                    eq_refl eq_refl (le_S 1 1 (le_n 1))
                    (eq_trans (evaluate_fields demo_still demo_sim demo_coords
                                 eq_refl eq_refl eq_refl eq_refl eq_refl eq_refl)
                              demo_evaluation))).
    reflexivity.
  - apply (proj2 (propagate_outcome demo_sim demo_heap 0 demo_gradient
                    eq_refl eq_refl (le_S 1 1 (le_n 1)) demo_evaluation)).
    cbn [demo_sim dt]. lra.
Defined.

(** ** Wrapping twice *)

Lemma wrap_idempotent (self : MDSimulation) (d : R) :
  boxlength self <> 0 -> wrap self (wrap self d) = wrap self d.
Proof.
  intros HL. unfold wrap at 1.
  assert (E : np_floor (wrap self d * boxinv self + 0.5) = 0).
  { apply (np_floor_unique _ 0).
    pose proof (np_floor_bounds (d * boxinv self + 0.5)) as Hb.
    replace (wrap self d * boxinv self + 0.5)
      with (d * boxinv self + 0.5 - np_floor (d * boxinv self + 0.5))
      by (unfold wrap, boxinv; field; exact HL).
    lra. }
  rewrite E. ring.
Qed.

(** X20.  Over exact reals, for a box length other than 0,
    [apply_periodicity] keeps the number of rows, and applying it to its
    own result changes nothing: an array of minimum-image vectors is
    already wrapped.  (In binary64 this can fail within a rounding error
    of the face of the cell, see the lemma after the witness.) *)
Theorem apply_periodicity_idempotent (self : MDSimulation) (dR : ndarray) :
  boxlength self <> 0 ->
  length (apply_periodicity self dR) = length dR /\
  apply_periodicity self (apply_periodicity self dR) = apply_periodicity self dR.
Proof.
  intros HL. unfold apply_periodicity. split; [apply length_map|].
  rewrite map_map. apply map_ext. intros d. cbn [fst snd].
  now rewrite !wrap_idempotent.
Qed.

Lemma apply_periodicity_idempotent_witness :
  length (apply_periodicity demo_sim [(7, -4); (12, 5)]) = length [(7, -4); (12, 5)] /\
  apply_periodicity demo_sim (apply_periodicity demo_sim [(7, -4); (12, 5)]) =
    apply_periodicity demo_sim [(7, -4); (12, 5)].
Proof.
  apply (apply_periodicity_idempotent demo_sim [(7, -4); (12, 5)]).
  cbn. lra.
Defined.

(** In binary64 (L = 10): the entry 4.999999999999999 is wrapped to
    -5.000000000000001, and wrapping that gives 4.999999999999999 again,
    so a second application moves the entry by a whole box length. *)
Lemma apply_periodicity64_twice :
  wrap64 (float64_of_pos 10)
    (wrap64 (float64_of_pos 10) (PrimFloat.next_down (float64_of_pos 5))) =
    PrimFloat.next_down (float64_of_pos 5) /\
  PrimFloat.eqb
    (wrap64 (float64_of_pos 10)
       (wrap64 (float64_of_pos 10) (PrimFloat.next_down (float64_of_pos 5))))
    (wrap64 (float64_of_pos 10) (PrimFloat.next_down (float64_of_pos 5))) = false.
Proof. split; vm_compute; reflexivity. Qed.
